(** * MVSNet preprocessing, loss and inference geometry: a shallow embedding

    The development follows the Python sources
    [mvsnet/preprocess.py], [mvsnet/loss.py] and [mvsnet/test.py].

    Numbers.  The program computes on IEEE floats (float64 in numpy and in
    Python scalars, float32 in TensorFlow).  They are embedded as rationals
    [Q] with exact arithmetic: statements over these definitions are about
    the formulas the code evaluates, with rounding left out.  Where the
    rounding decides the result, in the accuracies of [loss.py], the same
    formulas are given with every operation rounded to float32
    ([round32], [less_percentage_r]).  Results are compared with [Qeq]
    ([==]).

    Errors.  A Python exception is a value of [exn]; code that can raise
    returns [result A].

    Strings are byte strings, as in Python 2, which the reader of PFM files
    needs ([str(file.readline())]); where the two interpreters divide
    integers differently the choice is a parameter. *)

From Stdlib Require Import QArith Qabs Qround Qminmax ZArith List String Ascii Bool.
From Stdlib Require Import Lia Lqa Setoid.
From Stdlib Require DecimalString DecimalNat DecimalZ.
Import ListNotations.

Local Open Scope Q_scope.

(** ** Exceptions and the error monad *)

Inductive exn : Type :=
| IndexError          (* subscript out of range *)
| ValueError          (* a token that is not a number *)
| ZeroDivisionError
| NameError           (* a loop variable read after a loop that never ran *)
| SystemExit          (* [exit(-1)] *)
| FormatException (msg : string).   (* [raise Exception(msg)] *)

Definition result (A : Type) : Type := (exn + A)%type.

Definition ok {A} (a : A) : result A := inr a.
Definition raise {A} (e : exn) : result A := inl e.

Definition bind {A B} (m : result A) (k : A -> result B) : result B :=
  match m with
  | inl e => inl e
  | inr a => k a
  end.

Notation "x <- m ;; k" := (bind m (fun x => k))
  (at level 61, m at next level, right associativity).

(** [l[i]] for a non-negative subscript. *)
Definition index {A} (l : list A) (i : nat) : result A :=
  match nth_error l i with
  | Some a => ok a
  | None => raise IndexError
  end.

(** ** Small numpy arrays

    A camera is the array [np.zeros((2, 4, 4))]: [cam[0]] is the 4x4
    extrinsic matrix, [cam[1][0..2][0..2]] the intrinsic matrix and
    [cam[1][3]] the depth-sampling row (start, interval, count, end).
    The shape is fixed and every subscript in the code is a constant inside
    it, so the contents are a total function of the three subscripts. *)

Definition ndarray3 : Type := nat -> nat -> nat -> Q.

Definition zeros3 : ndarray3 := fun _ _ _ => 0.

Definition same_cell (a i j a' i' j' : nat) : bool :=
  Nat.eqb a a' && Nat.eqb i i' && Nat.eqb j j'.

(** [c[a][i][j]] *)
Definition get3 (c : ndarray3) (a i j : nat) : Q := c a i j.

(** [c[a][i][j] = v] seen as a value. *)
Definition set3 (c : ndarray3) (a i j : nat) (v : Q) : ndarray3 :=
  fun a' i' j' => if same_cell a i j a' i' j' then v else c a' i' j'.

(** ** Text: [str.split()] *)

(** White space of byte strings, for [split], [rstrip] and the regular
    expression's [\s]: tab, line feed, vertical tab, form feed, carriage
    return, space. *)
Definition is_space_str (c : ascii) : bool :=
  let n := nat_of_ascii c in
  ((9 <=? n) && (n <=? 13) || (n =? 32))%nat.

(** [split_acc cur s]: [cur] is the token being read, reversed. *)
Fixpoint split_acc (cur : list ascii) (s : string) : list string :=
  let flush rest :=
    match cur with
    | [] => rest
    | _ => string_of_list_ascii (rev cur) :: rest
    end in
  match s with
  | EmptyString => flush []
  | String c s' =>
      if is_space_str c then flush (split_acc [] s')
      else split_acc (c :: cur) s'
  end.

Definition split (s : string) : list string := split_acc [] s.

(** ** [float(token)]

    The parser of float literals is Python's own; the reader of calibration
    files is stated for any such parser ([None] stands for [ValueError]).
    [float_dec] is the part of it the examples need: an optional sign,
    digits, and an optional fraction. *)

Definition digit_of (c : ascii) : option Z :=
  let n := nat_of_ascii c in
  if ((48 <=? n) && (n <=? 57))%nat then Some (Z.of_nat (n - 48)) else None.

Fixpoint parse_dec (s : string) (seen_dot : bool) (num : Z) (den : positive)
    (ndig : nat) : option Q :=
  match s with
  | EmptyString =>
      match ndig with
      | O => None
      | S _ => Some (num # den)
      end
  | String c s' =>
      match digit_of c with
      | Some d =>
          parse_dec s' seen_dot (10 * num + d)
            (if seen_dot then (10 * den)%positive else den) (S ndig)
      | None =>
          if Ascii.eqb c "."%char && negb seen_dot
          then parse_dec s' true num den ndig
          else None
      end
  end.

Definition float_dec (s : string) : option Q :=
  match s with
  | String "-"%char s' => option_map Qopp (parse_dec s' false 0 1 0)
  | String "+"%char s' => parse_dec s' false 0 1 0
  | _ => parse_dec s false 0 1 0
  end.

(** ** preprocess.py: [load_cam] *)

Section LoadCam.

Variable float : string -> option Q.
(** [FLAGS.max_d], read when the caller passes [max_d = None]. *)
Variable FLAGS_max_d : Q.

Definition to_float (w : string) : result Q :=
  match float w with
  | Some q => ok q
  | None => raise ValueError
  end.

(** The pairs [(i, j)] of [for i in range(0, n): for j in range(0, n)]. *)
Definition range2 (n : nat) : list (nat * nat) :=
  list_prod (seq 0 n) (seq 0 n).

(** The body [cam[a][i][j] = words[n * i + j + off]] run over [cells]. *)
Fixpoint read_cells (words : list string) (a n off : nat)
    (cells : list (nat * nat)) (cam : ndarray3) : result ndarray3 :=
  match cells with
  | [] => ok cam
  | (i, j) :: rest =>
      w <- index words (n * i + j + off) ;;
      v <- to_float w ;;
      read_cells words a n off rest (set3 cam a i j v)
  end.

Definition load_cam (text : string) (interval_scale : Q)
    (max_d : option Q) : result ndarray3 :=
  let cam := zeros3 in
  let words := split text in
  (* read extrinsic *)
  cam <- read_cells words 0 4 1 (range2 4) cam ;;
  (* read intrinsic *)
  cam <- read_cells words 1 3 18 (range2 3) cam ;;
  if (List.length words =? 29)%nat then
    w27 <- index words 27 ;; v27 <- to_float w27 ;;
    let cam := set3 cam 1 3 0 v27 in
    w28 <- index words 28 ;; v28 <- to_float w28 ;;
    let cam := set3 cam 1 3 1 (v28 * interval_scale) in
    let cam :=
      match max_d with
      | None => set3 cam 1 3 2 FLAGS_max_d
      | Some d => set3 cam 1 3 2 d
      end in
    ok (set3 cam 1 3 3 (get3 cam 1 3 0 + get3 cam 1 3 1 * get3 cam 1 3 2))
  else if (List.length words =? 30)%nat then
    w27 <- index words 27 ;; v27 <- to_float w27 ;;
    let cam := set3 cam 1 3 0 v27 in
    w28 <- index words 28 ;; v28 <- to_float w28 ;;
    let cam := set3 cam 1 3 1 (v28 * interval_scale) in
    w29 <- index words 29 ;; v29 <- to_float w29 ;;
    let cam := set3 cam 1 3 2 v29 in
    ok (set3 cam 1 3 3 (get3 cam 1 3 0 + get3 cam 1 3 1 * get3 cam 1 3 2))
  else if (List.length words =? 31)%nat then
    w27 <- index words 27 ;; v27 <- to_float w27 ;;
    let cam := set3 cam 1 3 0 v27 in
    w28 <- index words 28 ;; v28 <- to_float w28 ;;
    let cam := set3 cam 1 3 1 (v28 * interval_scale) in
    w29 <- index words 29 ;; v29 <- to_float w29 ;;
    let cam := set3 cam 1 3 2 v29 in
    w30 <- index words 30 ;; v30 <- to_float w30 ;;
    ok (set3 cam 1 3 3 v30)
  else
    let cam := set3 cam 1 3 0 0 in
    let cam := set3 cam 1 3 1 0 in
    let cam := set3 cam 1 3 2 0 in
    ok (set3 cam 1 3 3 0).

(** The number a token stands for (0 where there is none). *)
Definition token_value (words : list string) (k : nat) : Q :=
  match nth_error words k with
  | Some w => match float w with Some v => v | None => 0 end
  | None => 0
  end.

Definition numeric_at (words : list string) (k : nat) : Prop :=
  exists w v, nth_error words k = Some w /\ float w = Some v.

Definition in_cells (cells : list (nat * nat)) (i j : nat) : bool :=
  existsb (fun c => Nat.eqb (fst c) i && Nat.eqb (snd c) j) cells.

Definition numeric_atb (words : list string) (k : nat) : bool :=
  match nth_error words k with
  | Some w => match float w with Some _ => true | None => false end
  | None => false
  end.

(** The tokens the two blocks are read from. *)
Definition block_tokens : list nat := (seq 1 16 ++ seq 18 9)%list.

End LoadCam.

(** Calibration texts used as examples: a keyword, 16 extrinsic values, a
    keyword, 9 intrinsic values, then the depth-sampling tail. *)

Definition cam_header : string :=
  "extrinsic 1 0 0 0 0 1 0 0 0 0 1 0 0 0 0 1 intrinsic 2892.33 0 823.2 0 2883.18 619.07 0 0 1".

(** 29 tokens: start and interval. *)
Definition cam_text_29 : string := cam_header ++ " 425 2.5".
(** 30 tokens: start, interval and count. *)
Definition cam_text_30 : string := cam_header ++ " 425 2.5 192".
(** 27 tokens: no tail. *)
Definition cam_text_27 : string := cam_header.

(** ** loss.py

    A tensor of shape [B, H, W, 1] is a list of [B] samples, each the list
    of its [H * W] values; a tensor of shape [B] is a list of [B] values.
    TensorFlow rejects operands whose shapes disagree; the element-wise
    operations below pair the operands up and are meant for equal shapes. *)

Definition tensor : Type := list (list Q).

Definition zip_with {A B C} (f : A -> B -> C) (la : list A) (lb : list B)
  : list C :=
  map (fun p => f (fst p) (snd p)) (combine la lb).

(** Element-wise operation on two tensors of one shape. *)
Definition tmap2 (f : Q -> Q -> Q) (a b : tensor) : tensor :=
  zip_with (zip_with f) a b.

(** [tf.reduce_sum] of a vector, of a whole tensor, and along axes 1, 2, 3. *)
Definition reduce_sum (l : list Q) : Q := fold_right Qplus 0 l.
Definition reduce_sum_all (t : tensor) : Q := reduce_sum (map reduce_sum t).
Definition reduce_sum_123 (t : tensor) : list Q := map reduce_sum t.

(** [tf.reduce_mean] of a vector. *)
Definition reduce_mean (l : list Q) : Q :=
  reduce_sum l / inject_Z (Z.of_nat (List.length l)).

(** [tf.cast(tf.not_equal(y_true, 0.0), dtype='float32')], at one pixel and
    on a tensor. *)
Definition mask_px (v : Q) : Q := if Qeq_bool v 0 then 0 else 1.
Definition mask_of (y_true : tensor) : tensor := map (map mask_px) y_true.

(** A tensor with a measured pixel. *)
Definition has_valid_pixel (y_true : tensor) : Prop :=
  Exists (Exists (fun t => ~ t == 0)) y_true.

(** The prediction equals the ground truth wherever the ground truth is
    measured (and the two tensors have one shape). *)
Definition exact_on_valid (y_true y_pred : tensor) : Prop :=
  Forall2 (Forall2 (fun t p => ~ t == 0 -> p == t)) y_true y_pred.

(** [tf.cast(tf.less_equal(d / interval, k), dtype='float32')] at one pixel.
    In floats a quotient by a zero interval is [inf] or [nan], and neither
    is [<= k]; in [Q] the quotient would be 0, so that case is written out. *)
Definition less_equal_div (d interval k : Q) : Q :=
  if Qeq_bool interval 0 then 0
  else if Qle_bool (d / interval) k then 1 else 0.

(** The common body of [less_one_percentage] ([k = 1.0]) and
    [less_three_percentage] ([k = 3.0]), which differ in that constant only.
    [interval] has one entry per sample and is tiled over its pixels. *)
Definition less_percentage (k : Q) (y_true y_pred : tensor)
    (interval : list Q) : Q :=
  let mask_true := mask_of y_true in
  let denom := Qabs (reduce_sum_all mask_true) + (1 # 1000000) in
  let abs_diff := tmap2 (fun t p => Qabs (t - p)) y_true y_pred in
  let le_image :=
    zip_with (fun iv row => map (fun d => less_equal_div d iv k) row)
      interval abs_diff in
  let less_image := tmap2 Qmult mask_true le_image in
  reduce_sum_all less_image / denom.

Definition less_one_percentage := less_percentage 1.
Definition less_three_percentage := less_percentage 3.

Section Loss.

(** [tf.math.pow] *)
Variable pow : Q -> Q -> Q.

Definition masked_loss (y_true y_pred : tensor) (interval : list Q)
    (alpha beta : Q) : list Q :=
  let mask_true := mask_of y_true in
  let denominator :=
    map (fun s => Qabs s + (1 # 1000000)) (reduce_sum_123 mask_true) in
  let denominator :=
    if negb (Qeq_bool beta 1)
    then map (fun d => pow d beta) denominator
    else denominator in
  let epsilon := map (map (fun t => 0.005 * t)) y_true in
  let numerator :=
    tmap2 Qplus (tmap2 (fun t p => Qabs (t - p)) y_true y_pred) epsilon in
  let numerator :=
    if negb (Qeq_bool alpha 1)
    then map (map (fun n => pow n alpha)) numerator
    else numerator in
  let numerator := tmap2 Qmult numerator mask_true in
  let numerator := reduce_sum_123 numerator in
  let normalization :=
    map (fun iv => pow (reduce_mean denominator) (beta - 1) / pow iv alpha)
      interval in
  map (fun n => reduce_sum (zip_with Qdiv numerator denominator) * n)
    normalization.

(** [depth_interval = tf.div(depth_end - depth_start, 191.0)] *)
Definition regression_interval (depth_start depth_end : list Q) : list Q :=
  zip_with (fun e s => (e - s) / 191) depth_end depth_start.

Definition mvsnet_regression_loss (estimated_depth_image depth_image : tensor)
    (depth_start depth_end : list Q) (alpha beta : Q)
  : list Q * Q * Q :=
  let depth_interval := regression_interval depth_start depth_end in
  let loss :=
    masked_loss depth_image estimated_depth_image depth_interval alpha beta in
  let less_one_accuracy :=
    less_one_percentage depth_image estimated_depth_image depth_interval in
  let less_three_accuracy :=
    less_three_percentage depth_image estimated_depth_image depth_interval in
  (loss, less_one_accuracy, less_three_accuracy).

(** The loss as section 4.4 of the specification words it: [V] is the
    per-sample count of valid pixels with its floor, the per-sample quotient
    is the masked sum of errors over [V^beta], and the factor is
    [mean(V)^(beta-1) / interval^alpha]. *)
Definition valid_count (y_true : tensor) : list Q :=
  map (fun s => Qabs s + (1 # 1000000)) (reduce_sum_123 (mask_of y_true)).

Definition masked_error_sum (y_true y_pred : tensor) (alpha : Q) : list Q :=
  reduce_sum_123
    (tmap2 Qmult
       (map (map (fun e => pow e alpha))
          (tmap2 (fun t p => Qabs (t - p) + 0.005 * t) y_true y_pred))
       (mask_of y_true)).

Definition masked_loss_spec (y_true y_pred : tensor) (interval : list Q)
    (alpha beta : Q) : list Q :=
  let V := valid_count y_true in
  let quotients :=
    zip_with (fun n v => n / pow v beta)
      (masked_error_sum y_true y_pred alpha) V in
  map (fun iv =>
         reduce_sum quotients * (pow (reduce_mean V) (beta - 1) / pow iv alpha))
    interval.

End Loss.

(** [tf.math.pow] at integral exponents, for the examples. *)
Definition pow_int (x y : Q) : Q := Qpower x (Qfloor y).

(** One sample of two valid pixels, predicted exactly. *)
Definition two_pixels : tensor := [[1; 1]].
(** One sample of one valid and one unmeasured pixel. *)
Definition one_valid_pixel : tensor := [[1; 0]].

(** ** test.py: the resize scale of [MVSGenerator.__iter__]

    [images] lists the shapes [(shape[0], shape[1])] of the loaded views
    (after padding the list has [view_num] entries); [max_h] and [max_w] are
    [FLAGS.max_h] and [FLAGS.max_w]. *)

(** [a / b] on floats: a zero divisor raises. *)
Definition py_div (a b : Q) : result Q :=
  if Qeq_bool b 0 then raise ZeroDivisionError else ok (a / b).

(** [a > b] *)
Definition Qgtb (a b : Q) : bool := negb (Qle_bool a b).

Definition height_scale_of (max_h : Z) (shape : nat * nat) : Q :=
  inject_Z max_h / inject_Z (Z.of_nat (fst shape)).

Definition width_scale_of (max_w : Z) (shape : nat * nat) : Q :=
  inject_Z max_w / inject_Z (Z.of_nat (snd shape)).

(** [for view in range(view, view + n)] with the running maxima. *)
Fixpoint max_scales (max_h max_w : Z) (images : list (nat * nat))
    (view n : nat) (h_scale w_scale : Q) : result (Q * Q) :=
  match n with
  | O => ok (h_scale, w_scale)
  | S n' =>
      shape <- index images view ;;
      height_scale <-
        py_div (inject_Z max_h) (inject_Z (Z.of_nat (fst shape))) ;;
      width_scale <-
        py_div (inject_Z max_w) (inject_Z (Z.of_nat (snd shape))) ;;
      let h_scale :=
        if Qgtb height_scale h_scale then height_scale else h_scale in
      let w_scale :=
        if Qgtb width_scale w_scale then width_scale else w_scale in
      max_scales max_h max_w images (S view) n' h_scale w_scale
  end.

Definition resize_scale (adaptive_scaling : bool) (max_h max_w : Z)
    (images : list (nat * nat)) (view_num : nat) : result Q :=
  if adaptive_scaling then
    hw <- max_scales max_h max_w images 0 view_num 0 0 ;;
    let h_scale := fst hw in
    let w_scale := snd hw in
    if Qgtb h_scale 1 || Qgtb w_scale 1 then raise SystemExit
    else ok (if Qgtb w_scale h_scale then w_scale else h_scale)
  else ok 1.

(** The scale one view asks for, and the shared scale as section 4.3 of the
    specification words it: the maximum over the views of that scale. *)
Definition view_scale (max_h max_w : Z) (shape : nat * nat) : Q :=
  Qmax (height_scale_of max_h shape) (width_scale_of max_w shape).

Definition is_shared_scale (max_h max_w : Z) (images : list (nat * nat))
    (s : Q) : Prop :=
  (exists shape, In shape images /\ s == view_scale max_h max_w shape) /\
  (forall shape, In shape images -> view_scale max_h max_w shape <= s).

Definition positive_shape (shape : nat * nat) : Prop :=
  (0 < fst shape)%nat /\ (0 < snd shape)%nat.

(** ** preprocess.py: cameras as objects

    [scale_camera] copies its argument and [crop_mvs_input] writes into the
    arrays it is given, so camera arrays live in a heap and the Python list
    [cams] is a list of references into it. *)

Definition ref : Type := nat.
Bind Scope nat_scope with ref.

Record heap : Type := { cell : ref -> ndarray3; next : ref }.

Definition load (h : heap) (r : ref) : ndarray3 := cell h r.

(** Writing a whole array value at [r]. *)
Definition store (h : heap) (r : ref) (c : ndarray3) : heap :=
  {| cell := fun r' => if Nat.eqb r' r then c else cell h r';
     next := next h |}.

(** A new array object holding [c]. *)
Definition alloc (h : heap) (c : ndarray3) : ref * heap :=
  (next h,
   {| cell := fun r' => if Nat.eqb r' (next h) then c else cell h r';
      next := S (next h) |}).

(** [arr[a][i][j] = v] on the object [r]. *)
Definition store3 (h : heap) (r : ref) (a i j : nat) (v : Q) : heap :=
  store h r (set3 (load h r) a i j v).

Definition scale_camera (h : heap) (cam : ref) (scale : Q) : ref * heap :=
  let (new_cam, h) := alloc h (load h cam) in          (* np.copy(cam) *)
  (* focal: *)
  let h := store3 h new_cam 1 0 0 (get3 (load h cam) 1 0 0 * scale) in
  let h := store3 h new_cam 1 1 1 (get3 (load h cam) 1 1 1 * scale) in
  (* principle point: *)
  let h := store3 h new_cam 1 0 2 (get3 (load h cam) 1 0 2 * scale) in
  let h := store3 h new_cam 1 1 2 (get3 (load h cam) 1 1 2 * scale) in
  (new_cam, h).

(** [l[i] = v] for [i] inside the list. *)
Fixpoint list_set {A} (l : list A) (i : nat) (v : A) : list A :=
  match l, i with
  | [], _ => []
  | _ :: t, O => v :: t
  | x :: t, S i' => x :: list_set t i' v
  end.

(** [for view in range(view, view + n): st = body(st, view)] *)
Fixpoint for_range {St} (body : St -> nat -> result St) (view n : nat)
    (st : St) : result St :=
  match n with
  | O => ok st
  | S n' => st' <- body st view ;; for_range body (S view) n' st'
  end.

(** ** Images and slices

    An image is its shape and its pixels; [A] is the type of a pixel (three
    channels, or one depth value). *)

Record image (A : Type) : Type :=
  { shape0 : nat; shape1 : nat; px : nat -> nat -> A }.

Arguments shape0 {A} _.
Arguments shape1 {A} _.
Arguments px {A} _ _ _.

(** A bound of the slice [start:stop] on an axis of length [n]: a negative
    subscript counts from the end, and the result is clipped to [0, n]. *)
Definition clamp_index (n i : Z) : Z :=
  let i := if (i <? 0)%Z then (i + n)%Z else i in
  Z.max 0 (Z.min n i).

(** [img[start_h:finish_h, start_w:finish_w]] *)
Definition slice2 {A} (img : image A) (start_h finish_h start_w finish_w : Z)
  : image A :=
  let h := Z.of_nat (shape0 img) in
  let w := Z.of_nat (shape1 img) in
  let a := clamp_index h start_h in
  let c := clamp_index w start_w in
  {| shape0 := Z.to_nat (clamp_index h finish_h - a);
     shape1 := Z.to_nat (clamp_index w finish_w - c);
     px := fun i j => px img (Z.to_nat a + i) (Z.to_nat c + j) |}.

(** ** preprocess.py: [crop_mvs_input]

    [FLAGS.height] and [FLAGS.width] are integers, [FLAGS.base_image_size]
    is a float.  [(h - new_h) / 2] divides two integers: [true_division]
    says whether the interpreter takes that as true division (Python 3) or
    as floor division (Python 2). *)

Record flags : Type :=
  { FLAGS_view_num : nat;
    FLAGS_height : Z;
    FLAGS_width : Z;
    FLAGS_base_image_size : Q;
    true_division : bool }.

(** [int(x)]: truncation towards zero. *)
Definition py_int (x : Q) : Z := Z.quot (Qnum x) (Zpos (Qden x)).

(** The new extent of an axis of length [size] under the bound [flag]. *)
Definition new_size (F : flags) (size flag : Z) : result Z :=
  if (size >? flag)%Z then ok flag
  else
    q <- py_div (inject_Z size) (FLAGS_base_image_size F) ;;
    ok (py_int (inject_Z (Qceiling q) * FLAGS_base_image_size F)).

(** [int(math.ceil((size - new) / 2))] *)
Definition crop_start (F : flags) (size new : Z) : Z :=
  if true_division F then Qceiling (inject_Z (size - new) / 2)
  else ((size - new) / 2)%Z.

(** [(start_h, finish_h, start_w, finish_w)] *)
Record window : Type :=
  { start_h : Z; finish_h : Z; start_w : Z; finish_w : Z }.

(** The window the loop body computes for an image of shape [(h, w)]. *)
Definition crop_window (F : flags) (h w : Z) : result window :=
  new_h <- new_size F h (FLAGS_height F) ;;
  new_w <- new_size F w (FLAGS_width F) ;;
  let start_h := crop_start F h new_h in
  let start_w := crop_start F w new_w in
  ok {| start_h := start_h; finish_h := (start_h + new_h)%Z;
        start_w := start_w; finish_w := (start_w + new_w)%Z |}.

Definition window_of {A} (F : flags) (img : image A) : result window :=
  crop_window F (Z.of_nat (shape0 img)) (Z.of_nat (shape1 img)).

Definition slice_window {A} (img : image A) (win : window) : image A :=
  slice2 img (start_h win) (finish_h win) (start_w win) (finish_w win).

(** The variables the loop leaves behind: the list [images], the heap the
    arrays of [cams] live in, and the window of the last iteration (unbound
    before the first). *)
Record crop_state (A : Type) : Type :=
  { st_images : list (image A); st_heap : heap; st_window : option window }.

Arguments st_images {A} _.
Arguments st_heap {A} _.
Arguments st_window {A} _.

Definition crop_view {A} (F : flags) (cams : list ref) (st : crop_state A)
    (view : nat) : result (crop_state A) :=
  img <- index (st_images st) view ;;
  win <- window_of F img ;;
  let images := list_set (st_images st) view (slice_window img win) in
  cam <- index cams view ;;
  let h := st_heap st in
  let h := store3 h cam 1 0 2 (get3 (load h cam) 1 0 2 - inject_Z (start_w win)) in
  let h := store3 h cam 1 1 2 (get3 (load h cam) 1 1 2 - inject_Z (start_h win)) in
  ok {| st_images := images; st_heap := h; st_window := Some win |}.

(** The function returns the list objects it was given, [images] with its
    elements replaced and [cams] as it was; the arrays of [cams] have
    changed in the heap. *)
Definition crop_mvs_input {A B} (F : flags) (h : heap)
    (images : list (image A)) (cams : list ref)
    (depth_image : option (image B))
  : result (list (image A) * list ref * option (image B) * heap) :=
  (* crop images and cameras *)
  st <- for_range (crop_view F cams) 0 (FLAGS_view_num F)
          {| st_images := images; st_heap := h; st_window := None |} ;;
  (* crop depth image *)
  match depth_image with
  | Some depth =>
      match st_window st with
      | Some win =>
          ok (st_images st, cams, Some (slice_window depth win), st_heap st)
      | None => raise NameError
      end
  | None => ok (st_images st, cams, None, st_heap st)
  end.

(** What the loop body does to the array of one camera: [cx] and [cy] move
    by the crop origin. *)
Definition crop_cam (c : ndarray3) (win : window) : ndarray3 :=
  set3 (set3 c 1 0 2 (get3 c 1 0 2 - inject_Z (start_w win)))
    1 1 2 (get3 c 1 1 2 - inject_Z (start_h win)).

(** The two cells the loop body rewrites: cx, cy. *)
Definition cropped_cell (a i j : nat) : bool :=
  same_cell 1 0 2 a i j || same_cell 1 1 2 a i j.

(** The four cells [scale_camera] rewrites: fx, fy, cx, cy. *)
Definition scaled_cell (a i j : nat) : bool :=
  same_cell 1 0 0 a i j || same_cell 1 1 1 a i j ||
  same_cell 1 0 2 a i j || same_cell 1 1 2 a i j.

(** Examples: bounds 4 x 4 with base size 8 under either division, one
    camera with principal point (10, 20), and images whose pixels are their
    own coordinates. *)
Definition flags_4x4 (view_num : nat) : flags :=
  {| FLAGS_view_num := view_num; FLAGS_height := 4; FLAGS_width := 4;
     FLAGS_base_image_size := 8; true_division := true |}.

Definition flags_4x4_floor (view_num : nat) : flags :=
  {| FLAGS_view_num := view_num; FLAGS_height := 4; FLAGS_width := 4;
     FLAGS_base_image_size := 8; true_division := false |}.

Definition cam_10_20 : ndarray3 := set3 (set3 zeros3 1 0 2 10) 1 1 2 20.

(** A heap of [n] array objects that all hold [c]. *)
Definition heap_of (n : nat) (c : ndarray3) : heap :=
  {| cell := fun _ => c; next := n |}.

(** An image whose pixel at (i, j) is the pair (i, j). *)
Definition blank (h w : nat) : image (nat * nat) :=
  {| shape0 := h; shape1 := w; px := fun i j => (i, j) |}.

(** ** preprocess.py: the PFM codec

    A file is its bytes; a byte is an [ascii].  Reading follows Python 2
    strings: [readline] and [read] return byte strings and [str] leaves
    them as they are. *)

Definition bytes : Type := list ascii.

Definition lit (s : string) : bytes := list_ascii_of_string s.

(** A float32 value is its four bytes, [f0] the least significant: the
    codec moves bit patterns and never computes on them. *)
Record float32 : Type := { f0 : ascii; f1 : ascii; f2 : ascii; f3 : ascii }.

Inductive byte_order : Type := LittleEndian | BigEndian.

Definition encode (o : byte_order) (x : float32) : bytes :=
  match o with
  | LittleEndian => [f0 x; f1 x; f2 x; f3 x]
  | BigEndian => [f3 x; f2 x; f1 x; f0 x]
  end.

Definition decode (o : byte_order) (x0 x1 x2 x3 : ascii) : float32 :=
  match o with
  | LittleEndian => {| f0 := x0; f1 := x1; f2 := x2; f3 := x3 |}
  | BigEndian => {| f0 := x3; f1 := x2; f2 := x1; f3 := x0 |}
  end.

(** A numpy array of floats: [dtype.name], [dtype.byteorder] (one of the
    characters [<], [>], [=]), the shape, and the elements in row-major
    order. *)
Record ndarray : Type :=
  { dtype_name : string;
    dtype_byteorder : ascii;
    shape : list nat;
    data : list float32 }.

(** The product of the extents. *)
Definition size_of (shape : list nat) : nat := fold_right Nat.mul 1%nat shape.

(** [n] consecutive chunks of [k] elements. *)
Fixpoint chunks {A} (n k : nat) (l : list A) : list (list A) :=
  match n with
  | O => []
  | S n' => firstn k l :: chunks n' k (skipn k l)
  end.

(** Reversal along axis 0, on the flat elements of an array of shape
    [shape]. *)
Definition flip_rows {A} (shape : list nat) (l : list A) : list A :=
  match shape with
  | [] => l
  | h :: rest => List.concat (rev (chunks h (size_of rest) l))
  end.

(** [np.flipud(image)]; a 0-d array is rejected. *)
Definition flipud (image : ndarray) : result ndarray :=
  match shape image with
  | [] => raise ValueError
  | _ =>
      ok {| dtype_name := dtype_name image;
            dtype_byteorder := dtype_byteorder image;
            shape := shape image;
            data := flip_rows (shape image) (data image) |}
  end.

(** The byte order the elements have in memory: [sys_byteorder] is the
    platform's, which [=] stands for. *)
Definition memory_order (sys_byteorder : byte_order) (image : ndarray)
  : byte_order :=
  if Ascii.eqb (dtype_byteorder image) "<" then LittleEndian
  else if Ascii.eqb (dtype_byteorder image) ">" then BigEndian
  else sys_byteorder.

(** [image.tostring()] *)
Definition tostring (sys_byteorder : byte_order) (image : ndarray) : bytes :=
  flat_map (encode (memory_order sys_byteorder image)) (data image).

(** *** Header text *)

(** The line feed. *)
Definition nl : ascii := ascii_of_nat 10.

(** [\d] *)
Definition is_digit (c : ascii) : bool :=
  let n := nat_of_ascii c in
  ((48 <=? n) && (n <=? 57))%nat.

(** ['%d' % n] for a size. *)
Definition format_d (n : nat) : bytes :=
  lit (DecimalString.NilZero.string_of_uint (Nat.to_uint n)).

(** The nearest integer, a tie going to the even one. *)
Definition round_half_even (x : Q) : Z :=
  let f := Qfloor x in
  match Qcompare (x - inject_Z f) (1 # 2) with
  | Lt => f
  | Gt => (f + 1)%Z
  | Eq => if Z.even f then f else (f + 1)%Z
  end.

(** The character of the last decimal digit of [d]. *)
Definition digit_char (d : Z) : ascii :=
  ascii_of_nat (48 + Z.to_nat (d mod 10)).

(** The number of millionths that ['%f'] prints for [scale]. *)
Definition micros (scale : Q) : Z := round_half_even (Qabs scale * 1000000).

(** ['%f' % scale]: a minus sign for a negative number, the integer part, a
    point and six decimals, the number being rounded to the sixth.  (A float
    has a negative zero as well, printed [-0.000000]; it reads back as a
    number that is not below 0, as [0.000000] does.) *)
Definition format_f (scale : Q) : bytes :=
  let m := micros scale in
  (if Qgtb 0 scale then lit "-" else []) ++
  lit (DecimalString.NilZero.string_of_uint
         (N.to_uint (Z.to_N (m / 1000000)))) ++
  lit "." ++
  map (fun k => digit_char (m / 10 ^ k)) [5; 4; 3; 2; 1; 0]%Z.


(** [int(group)] for a group of digits. *)
Definition int_of_digits (group : bytes) : nat :=
  match DecimalString.NilZero.uint_of_string (string_of_list_ascii group) with
  | Some d => Nat.of_uint d
  | None => 0%nat
  end.

(** [file.readline()]: the line with its line feed, and what is left. *)
Fixpoint readline (file : bytes) : bytes * bytes :=
  match file with
  | [] => ([], [])
  | c :: rest =>
      if Ascii.eqb c nl then ([c], rest)
      else let (line, rest') := readline rest in (c :: line, rest')
  end.

Fixpoint lstrip (b : bytes) : bytes :=
  match b with
  | [] => []
  | c :: rest => if is_space_str c then lstrip rest else b
  end.

(** [s.rstrip()] *)
Definition rstrip (b : bytes) : bytes := rev (lstrip (rev b)).

(** The longest prefix of digits, and what follows it. *)
Fixpoint span_digits (b : bytes) : bytes * bytes :=
  match b with
  | [] => ([], [])
  | c :: rest =>
      if is_digit c
      then let (ds, rest') := span_digits rest in (c :: ds, rest')
      else ([], b)
  end.

(** [re.match(r'^(\d+)\s(\d+)\s$', line)] and [map(int, groups)]: digits, one
    white-space character, digits, one white-space character, and then the
    end of the line or a line feed that ends it. *)
Definition re_match_dims (line : bytes) : option (nat * nat) :=
  let (g1, r1) := span_digits line in
  match g1, r1 with
  | _ :: _, c1 :: r2 =>
      if is_space_str c1 then
        let (g2, r3) := span_digits r2 in
        match g2, r3 with
        | _ :: _, c2 :: r4 =>
            if is_space_str c2 then
              match r4 with
              | [] => Some (int_of_digits g1, int_of_digits g2)
              | [c3] =>
                  if Ascii.eqb c3 nl
                  then Some (int_of_digits g1, int_of_digits g2)
                  else None
              | _ => None
              end
            else None
        | _, _ => None
        end
      else None
  | _, _ => None
  end.

(** *** Writing *)

Definition pfm_color (shape : list nat) : result bool :=
  match shape with
  | [_; _; c] =>
      if (c =? 3)%nat then ok true                       (* color image *)
      else if (c =? 1)%nat then ok false                 (* greyscale *)
      else raise (FormatException
             "Image must have H x W x 3, H x W x 1 or H x W dimensions.")
  | [_; _] => ok false                                   (* greyscale *)
  | _ => raise (FormatException
           "Image must have H x W x 3, H x W x 1 or H x W dimensions.")
  end.

(** [endian == '<' or endian == '=' and sys.byteorder == 'little'] *)
Definition writes_little (sys_byteorder : byte_order) (image : ndarray)
  : bool :=
  Ascii.eqb (dtype_byteorder image) "<" ||
  Ascii.eqb (dtype_byteorder image) "=" &&
  match sys_byteorder with LittleEndian => true | BigEndian => false end.

(** The scale as it is written. *)
Definition written_scale (sys_byteorder : byte_order) (image : ndarray)
    (scale : Q) : Q :=
  if writes_little sys_byteorder image then - scale else scale.

(** The bytes [write_pfm] leaves in the file. *)
Definition write_pfm (sys_byteorder : byte_order) (image : ndarray)
    (scale : Q) : result bytes :=
  if negb (String.eqb (dtype_name image) "float32")
  then raise (FormatException "Image dtype must be float32.")
  else
    image <- flipud image ;;
    color <- pfm_color (shape image) ;;
    let header := (if color then lit "PF" else lit "Pf") ++ [nl] in
    let dims :=
      format_d (nth 1 (shape image) 0%nat) ++ lit " " ++
      format_d (nth 0 (shape image) 0%nat) ++ [nl] in
    let scale := written_scale sys_byteorder image scale in
    let scale_line := format_f scale ++ [nl] in
    let image_string := tostring sys_byteorder image in
    ok (header ++ dims ++ scale_line ++ image_string).

(** *** Reading *)

(** [np.fromstring(data_string, data_type)]: the string must be a whole
    number of 4-byte elements. *)
Fixpoint fromstring (o : byte_order) (s : bytes) : result (list float32) :=
  match s with
  | [] => ok []
  | x0 :: x1 :: x2 :: x3 :: rest =>
      tl <- fromstring o rest ;;
      ok (decode o x0 x1 x2 x3 :: tl)
  | _ => raise ValueError
  end.

(** [np.reshape(data, shape)] *)
Definition reshape (data : list float32) (shape : list nat)
  : result (list float32) :=
  if (List.length data =? size_of shape)%nat then ok data
  else raise ValueError.

(** [cv2.flip(src, 0)].  OpenCV takes the memory of the array for floats
    in the platform's byte order, whatever byte order the dtype names, and
    returns a new array in the platform's order ([=]) with the rows
    reversed; for an image without elements it returns no array. *)

(** The element OpenCV sees where the array holds [x] in byte order [o]. *)
Definition as_native (sys_byteorder o : byte_order) (x : float32) : float32 :=
  match encode o x with
  | [x0; x1; x2; x3] => decode sys_byteorder x0 x1 x2 x3
  | _ => x
  end.

Definition cv2_flip (sys_byteorder : byte_order) (src : ndarray)
  : option ndarray :=
  if (size_of (shape src) =? 0)%nat then None
  else
    Some {| dtype_name := dtype_name src;
            dtype_byteorder := "=";
            shape := shape src;
            data := flip_rows (shape src)
                      (map (as_native sys_byteorder
                              (memory_order sys_byteorder src))
                         (data src)) |}.

Section LoadPfm.

(** Python's [float]. *)
Variable float : string -> option Q.

(** The header: the color flag, the width and height, the byte order taken
    from the sign of the scale, and the rest of the file. *)
Definition load_pfm_header (file : bytes)
  : result (bool * nat * nat * byte_order * bytes) :=
  let (line, rest) := readline file in
  let header := string_of_list_ascii (rstrip line) in
  color <-
    (if String.eqb header "PF" then ok true
     else if String.eqb header "Pf" then ok false
     else raise (FormatException "Not a PFM file.")) ;;
  let (line, rest) := readline rest in
  wh <-
    match re_match_dims line with
    | Some wh => ok wh
    | None => raise (FormatException "Malformed PFM header.")
    end ;;
  let (line, rest) := readline rest in
  scale <- to_float float (string_of_list_ascii (rstrip line)) ;;
  let data_type :=
    if Qgtb 0 scale then LittleEndian   (* little-endian *)
    else BigEndian in                   (* big-endian *)
  ok (color, fst wh, snd wh, data_type, rest).

(** The result is what [cv2.flip] returns: [None] for an empty image. *)
Definition load_pfm (sys_byteorder : byte_order) (file : bytes)
  : result (option ndarray) :=
  hdr <- load_pfm_header file ;;
  let '(color, width, height, data_type, data_string) := hdr in
  data <- fromstring data_type data_string ;;
  let shape := if color then [height; width; 3%nat] else [height; width] in
  data <- reshape data shape ;;
  let data :=
    {| dtype_name := "float32";
       dtype_byteorder :=
         match data_type with LittleEndian => "<" | BigEndian => ">" end;
       shape := shape;
       data := data |} in
  let data := cv2_flip sys_byteorder data in
  ok data.

End LoadPfm.

(** What the codec accepts: float32 elements in one of the three byte-order
    codes, as many as the shape says, and a shape H x W, H x W x 1 or
    H x W x 3. *)
Definition pfm_image (image : ndarray) (h w : nat) : Prop :=
  dtype_name image = "float32"%string /\
  In (dtype_byteorder image) ["<"; ">"; "="]%char /\
  List.length (data image) = size_of (shape image) /\
  (shape image = [h; w] \/ shape image = [h; w; 1%nat] \/
   shape image = [h; w; 3%nat]).

(** The shape the reader gives back for a color flag. *)
Definition read_shape (color : bool) (h w : nat) : list nat :=
  if color then [h; w; 3%nat] else [h; w].

(** Examples: one element, and images of one pixel. *)
Definition one_f32 : float32 :=
  {| f0 := "000"; f1 := "000"; f2 := "128"; f3 := "063" |}.   (* 1.0 *)

Definition image_of (byteorder : ascii) (shape : list nat)
    (data : list float32) : ndarray :=
  {| dtype_name := "float32"; dtype_byteorder := byteorder;
     shape := shape; data := data |}.



(** The layout of a PFM file: tag line, dimension line, scale line,
    payload. *)
Definition pfm_layout (color : bool) (w h : nat) (scale : Q)
    (payload : bytes) : bytes :=
  ((if color then lit "PF" else lit "Pf") ++ [nl]) ++
  (format_d w ++ lit " " ++ format_d h ++ [nl]) ++
  (format_f scale ++ [nl]) ++ payload.

(** ** float32 arithmetic

    TensorFlow evaluates the accuracies in float32.  A finite float32 is a
    rational number, and an operation gives the exact result rounded to the
    nearest float32, a tie going to the even significand.  [round32] is
    that rounding: with [y] the magnitude in units of 2^-149, the smallest
    positive float32, the last place of the result is worth [2 ^ s] units,
    where [s] is 0 below 2^24 units and the binary exponent of [y] less 23
    from there on.  Results beyond the largest float32, which overflow to
    infinity, are not modelled. *)

Definition ulp_exp (y : Q) : Z := Z.max 0 (Z.log2 (Qfloor y) - 23).

Definition round32 (x : Q) : Q :=
  let y := Qabs x * inject_Z (2 ^ 149) in
  let s := ulp_exp y in
  let m := round_half_even (y / inject_Z (2 ^ s)) in
  (if Qgtb 0 x then - (1) else 1) *
  (inject_Z (m * 2 ^ s) / inject_Z (2 ^ 149)).

(** The accuracies with every operation rounded by [rnd].  A sum is taken
    element by element; for the sums of zeros and ones below, of fewer than
    2^24 elements, every order of summation gives the same number. *)

Section Rounded.

Variable rnd : Q -> Q.

Definition reduce_sum_r (l : list Q) : Q :=
  fold_right (fun x acc => rnd (x + acc)) 0 l.

Definition reduce_sum_all_r (t : tensor) : Q :=
  reduce_sum_r (map reduce_sum_r t).

Definition less_equal_div_r (d interval k : Q) : Q :=
  if Qeq_bool interval 0 then 0
  else if Qle_bool (rnd (d / interval)) k then 1 else 0.

Definition less_percentage_r (k : Q) (y_true y_pred : tensor)
    (interval : list Q) : Q :=
  let mask_true := mask_of y_true in
  let denom :=
    rnd (Qabs (reduce_sum_all_r mask_true) + rnd (1 # 1000000)) in
  let abs_diff := tmap2 (fun t p => Qabs (rnd (t - p))) y_true y_pred in
  let le_image :=
    zip_with (fun iv row => map (fun d => less_equal_div_r d iv k) row)
      interval abs_diff in
  let less_image := tmap2 (fun m l => rnd (m * l)) mask_true le_image in
  rnd (reduce_sum_all_r less_image / denom).

End Rounded.

(** [less_one_percentage] and [less_three_percentage] in float32. *)
Definition less_one_percentage32 := less_percentage_r round32 1.
Definition less_three_percentage32 := less_percentage_r round32 3.

(** The measured pixels of a row, counted 1 each, and their number in a row
    and in a tensor. *)
Definition valid_row (row : list Q) : list Z :=
  map (fun t => if Qeq_bool t 0 then 0%Z else 1%Z) row.

Definition count_row (row : list Q) : Z := fold_right Z.add 0%Z (valid_row row).

Definition count_valid (y_true : tensor) : Z :=
  fold_right Z.add 0%Z (map count_row y_true).

(** A number that is the whole number [z], not negative. *)
Definition whole (x : Q) (z : Z) : Prop := x == inject_Z z /\ (0 <= z)%Z.

(** One sample of 32 measured pixels. *)
Definition thirty_two_pixels : tensor := [repeat 1 32].

(** * Definitions for further properties *)

(** The sum of the masked image of hits, as [less_percentage] forms it. *)
Definition hits (k : Q) (y_true y_pred : tensor) (interval : list Q) : Q :=
  reduce_sum_all
    (tmap2 Qmult (mask_of y_true)
       (zip_with (fun iv row => map (fun d => less_equal_div d iv k) row)
          interval (tmap2 (fun t p => Qabs (t - p)) y_true y_pred))).

(** Three lists related element by element (and of one length). *)
Inductive Forall3 {A B C} (R : A -> B -> C -> Prop)
  : list A -> list B -> list C -> Prop :=
| Forall3_nil : Forall3 R [] [] []
| Forall3_cons a b c la lb lc :
    R a b c -> Forall3 R la lb lc ->
    Forall3 R (a :: la) (b :: lb) (c :: lc).

(** Two predictions of the shape of [y_true] that are the same number at
    every measured pixel. *)
Definition same_on_valid (y_true y_pred y_pred' : tensor) : Prop :=
  Forall3 (Forall3 (fun t p p' => ~ t == 0 -> p = p')) y_true y_pred y_pred'.

(** ** preprocess.py: [scale_mvs_camera]

    The loop replaces each entry of the list [cams] by the copy
    [scale_camera] makes; the state is the list and the heap. *)

Definition scale_view (scale : Q) (st : list ref * heap) (view : nat)
  : result (list ref * heap) :=
  cam <- index (fst st) view ;;
  let (new_cam, h) := scale_camera (snd st) cam scale in
  ok (list_set (fst st) view new_cam, h).

Definition scale_mvs_camera (F : flags) (h : heap) (cams : list ref)
    (scale : Q) : result (list ref * heap) :=
  for_range (scale_view scale) 0 (FLAGS_view_num F) (cams, h).

(** Example: bounds 16 x 16 with base size 8. *)
Definition flags_16x16 (view_num : nat) : flags :=
  {| FLAGS_view_num := view_num; FLAGS_height := 16; FLAGS_width := 16;
     FLAGS_base_image_size := 8; true_division := true |}.

(** ** preprocess.py: [write_cam]

    The file is the concatenation of the arguments of the calls
    [f.write(...)], in order.  [str] is Python's conversion of a float to
    text. *)

Definition newline : string := String nl EmptyString.

Section WriteCam.

Variable str : Q -> string.

Definition write_cam_writes (cam : ndarray3) : list string :=
  ([("extrinsic" ++ newline)%string] ++
   flat_map (fun i =>
               map (fun j => (str (get3 cam 0 i j) ++ " ")%string) (seq 0 4) ++
               [newline]) (seq 0 4) ++
   [newline] ++
   [("intrinsic" ++ newline)%string] ++
   flat_map (fun i =>
               map (fun j => (str (get3 cam 1 i j) ++ " ")%string) (seq 0 3) ++
               [newline]) (seq 0 3) ++
   [(newline ++ str (get3 cam 1 3 0) ++ " " ++ str (get3 cam 1 3 1) ++ " " ++
     str (get3 cam 1 3 2) ++ " " ++ str (get3 cam 1 3 3) ++ newline)%string]
  )%list.

Definition write_cam (cam : ndarray3) : string :=
  String.concat ""%string (write_cam_writes cam).

End WriteCam.

(** The 29 cells [write_cam] prints: the extrinsic matrix, the upper left
    3 x 3 of the intrinsic array, and the depth row. *)
Definition written_cells : list (nat * nat * nat) :=
  map (fun p => (0, fst p, snd p)%nat) (range2 4) ++
  map (fun p => (1, fst p, snd p)%nat) (range2 3) ++
  map (fun j => (1, 3, j)%nat) (seq 0 4).

(** A token of [split]: not empty and free of white space. *)
Definition is_token (s : string) : bool :=
  negb (String.eqb s ""%string) &&
  forallb (fun c => negb (is_space_str c)) (list_ascii_of_string s).

(** [str] on the floats that are whole numbers, as in ['10.0']. *)
Definition str_whole (x : Q) : string :=
  (DecimalString.NilZero.string_of_int (Z.to_int (Qfloor x)) ++ ".0")%string.

(** ** preprocess.py: [center_image]

    An image of numbers has a value per row, column and channel;
    [np.mean] and [np.var] over the axes (0, 1) give one number per channel
    (the variance is the mean of the squared deviations).  [sqrt] is
    [np.sqrt]. *)

(** The positions [(i, j)] of an [h] x [w] image, row by row. *)
Definition positions (h w : nat) : list (nat * nat) :=
  list_prod (seq 0 h) (seq 0 w).

(** The values of channel [c]. *)
Definition channel (img : image (nat -> Q)) (c : nat) : list Q :=
  map (fun p => px img (fst p) (snd p) c) (positions (shape0 img) (shape1 img)).

Definition np_mean (img : image (nat -> Q)) (c : nat) : Q :=
  reduce_mean (channel img c).

Definition np_var (img : image (nat -> Q)) (c : nat) : Q :=
  reduce_mean
    (map (fun x => (x - np_mean img c) * (x - np_mean img c)) (channel img c)).

Section CenterImage.

Variable sqrt : Q -> Q.

Definition center_image (img : image (nat -> Q)) : image (nat -> Q) :=
  let var := np_var img in
  let mean := np_mean img in
  {| shape0 := shape0 img;
     shape1 := shape1 img;
     px := fun i j c =>
             (px img i j c - mean c) / (sqrt (var c) + (1 # 100000000)) |}.

End CenterImage.

(** [np.sqrt] on the squares of whole numbers. *)
Definition sqrt_whole (x : Q) : Q := inject_Z (Z.sqrt (Qfloor x)).

(** A grey 1 x 2 image with the values 1 and 3. *)
Definition grey_1_3 : image (nat -> Q) :=
  {| shape0 := 1; shape1 := 2;
     px := fun _ j _ => match j with O => 1 | _ => 3 end |}.

(** ** test.py: the views of a sample

    [MVSGenerator.__iter__] reads the images and cameras a sample lists,
    [data] being the paths [image, camera, image, camera, ...], and fills up
    to [view_num] views with the first pair.  [imread] is the image of a
    path after the conversion to BGR and [read_file] the text of a file;
    the files are taken to exist.  The line appended to [poses.txt] for the
    first view does not enter the lists and is left out. *)

Section Generator.

Variable Img : Type.
Variable imread : string -> Img.
Variable read_file : string -> string.
Variable float : string -> option Q.
Variable FLAGS_max_d : Q.
Variable FLAGS_interval_scale : Q.






End Generator.

(** ** preprocess.py: [gen_pipeline_mvs_list]

    [cluster_list] is the text of [pair.txt] split into words.  [int] is
    Python's [int] on a word ([None] stands for [ValueError]);
    [image_path] and [cam_path] are the paths
    [os.path.join(image_folder, '%08d.jpg' % index)] and
    [os.path.join(cam_folder, '%08d_cam.txt' % index)]. *)

(** [l[i]] for an integer subscript: a negative one counts from the end. *)
Definition index_z {A} (l : list A) (i : Z) : result A :=
  let n := Z.of_nat (List.length l) in
  if (i <? 0)%Z
  then if (i + n <? 0)%Z then raise IndexError
       else index l (Z.to_nat (i + n))
  else index l (Z.to_nat i).

Section PipelineList.

Variable int : string -> option Z.
Variable image_path : Z -> string.
Variable cam_path : Z -> string.
Variable F : flags.

Definition to_int (w : string) : result Z :=
  match int w with
  | Some z => ok z
  | None => raise ValueError
  end.

(** The body of the loop over the views of a cluster. *)
Definition add_view (cluster_list : list string) (pos : Z)
    (paths : list string) (view : nat) : result (list string) :=
  w <- index_z cluster_list (pos + 2 * Z.of_nat view) ;;
  view_index <- to_int w ;;
  let view_image_path := image_path view_index in
  let view_cam_path := cam_path view_index in
  ok (paths ++ [view_image_path; view_cam_path])%list.

(** The body of the loop over the clusters; the state is [mvs_list] and
    [pos].  [range] of a negative number is empty. *)
Definition add_cluster (cluster_list : list string)
    (st : list (list string) * Z) (i : nat)
  : result (list (list string) * Z) :=
  let mvs_list := fst st in
  let pos := snd st in
  (* ref image *)
  w <- index_z cluster_list pos ;;
  ref_index <- to_int w ;;
  let pos := (pos + 1)%Z in
  let paths := [image_path ref_index; cam_path ref_index] in
  (* view images *)
  w <- index_z cluster_list pos ;;
  all_view_num <- to_int w ;;
  let pos := (pos + 1)%Z in
  let check_view_num :=
    Z.min (Z.of_nat (FLAGS_view_num F) - 1) all_view_num in
  paths <- for_range (add_view cluster_list pos) 0 (Z.to_nat check_view_num)
             paths ;;
  let pos := (pos + 2 * all_view_num)%Z in
  ok ((mvs_list ++ [paths])%list, pos).

Definition gen_pipeline_mvs_list (cluster_list : list string)
  : result (list (list string)) :=
  w <- index cluster_list 0 ;;
  n <- to_int w ;;
  st <- for_range (add_cluster cluster_list) 0 (Z.to_nat n) ([], 1%Z) ;;
  ok (fst st).

End PipelineList.

(** The number of paths of a sample: a pair for the reference view and a
    pair for each further view, at most [FLAGS.view_num - 1] of them. *)
Definition sample_paths (F : flags) (paths : list string) : Prop :=
  exists k, List.length paths = (2 + 2 * k)%nat /\
            (k <= FLAGS_view_num F - 1)%nat.

(** [int] on decimal integers. *)
Definition int_dec (w : string) : option Z :=
  option_map Z.of_int (DecimalString.NilZero.int_of_string w).

(** The words of a [pair.txt] with one cluster: reference view 0 and the
    two views 1 and 2 with their scores. *)
Definition pair_words : list string :=
  ["1"; "0"; "2"; "1"; "0.5"; "2"; "0.4"]%string.

(** ** preprocess.py: [mask_depth_image]

    [cv2.threshold] with [THRESH_TOZERO] keeps a pixel above the threshold
    and sets the others to 0; with [THRESH_TOZERO_INV] it sets a pixel above
    the threshold to 0 and keeps the others ([maxval] is not used by these
    two types).  [np.expand_dims(depth_image, 2)] makes every pixel a
    channel vector of length 1. *)

Definition thresh_tozero (thresh : Q) (src : Q) : Q :=
  if Qgtb src thresh then src else 0.

Definition thresh_tozero_inv (thresh : Q) (src : Q) : Q :=
  if Qgtb src thresh then 0 else src.

Definition map_image {A B} (f : A -> B) (img : image A) : image B :=
  {| shape0 := shape0 img; shape1 := shape1 img;
     px := fun i j => f (px img i j) |}.

Definition mask_depth_image (depth_image : image Q) (min_depth max_depth : Q)
  : image (list Q) :=
  let depth_image := map_image (thresh_tozero min_depth) depth_image in
  let depth_image := map_image (thresh_tozero_inv max_depth) depth_image in
  map_image (fun v => [v]) depth_image.

(** * Properties *)

(** ** The error monad and arrays *)

Lemma bind_ok_inv {A B} (m : result A) (k : A -> result B) (b : B) :
  bind m k = ok b -> exists a, m = ok a /\ k a = ok b.
Proof.
  destruct m as [e | a]; simpl; intros H.
  - discriminate.
  - exists a; split; [reflexivity | exact H].
Qed.

Lemma same_cell_true a i j a' i' j' :
  same_cell a i j a' i' j' = true <-> a = a' /\ i = i' /\ j = j'.
Proof.
  unfold same_cell. rewrite !andb_true_iff, !Nat.eqb_eq. tauto.
Qed.

Lemma set3_same c a i j v : get3 (set3 c a i j v) a i j = v.
Proof.
  unfold get3, set3.
  replace (same_cell a i j a i j) with true; [reflexivity|].
  symmetry. apply same_cell_true. auto.
Qed.

Lemma set3_other c a i j v a' i' j' :
  same_cell a i j a' i' j' = false ->
  get3 (set3 c a i j v) a' i' j' = get3 c a' i' j'.
Proof. unfold get3, set3. intros ->. reflexivity. Qed.

(** ** Reading calibration text *)

Section LoadCamFacts.

Variable float : string -> option Q.
Variable FLAGS_max_d : Q.


Lemma numeric_at_index words k :
  numeric_at float words k ->
  exists w, index words k = ok w /\ to_float float w = ok (token_value float words k).
Proof.
  intros (w & v & Hw & Hv). exists w.
  unfold index, to_float, token_value. rewrite Hw, Hv. auto.
Qed.

(** Running the reading loop over numeric tokens succeeds; a cell of the
    loop holds its token's value, every other cell is untouched. *)
Lemma read_cells_ok words a n off cells :
  forall cam,
    (forall i j, In (i, j) cells -> numeric_at float words (n * i + j + off)) ->
    exists cam',
      read_cells float words a n off cells cam = ok cam' /\
      forall a' i' j',
        get3 cam' a' i' j' =
          if Nat.eqb a a' && in_cells cells i' j'
          then token_value float words (n * i' + j' + off)
          else get3 cam a' i' j'.
Proof.
  induction cells as [| [i j] rest IH]; intros cam Hnum.
  - exists cam. split; [reflexivity|].
    intros. simpl. rewrite andb_false_r. reflexivity.
  - destruct (numeric_at_index words (n * i + j + off)) as (w & Hw & Hv).
    { apply Hnum. left. reflexivity. }
    destruct (IH (set3 cam a i j (token_value float words (n * i + j + off))))
      as (cam' & Hrun & Hcells).
    { intros i0 j0 Hin. apply Hnum. right. exact Hin. }
    exists cam'. split.
    + simpl. rewrite Hw. simpl. rewrite Hv. simpl. exact Hrun.
    + intros a' i' j'. rewrite Hcells. simpl.
      destruct (Nat.eqb a a') eqn:Ea; simpl.
      * destruct (in_cells rest i' j') eqn:Er.
        -- rewrite orb_true_r. reflexivity.
        -- rewrite orb_false_r.
           destruct (Nat.eqb i i' && Nat.eqb j j') eqn:Eij.
           ++ apply andb_true_iff in Eij. destruct Eij as [Ei Ej].
              apply Nat.eqb_eq in Ea, Ei, Ej. subst. apply set3_same.
           ++ apply set3_other. unfold same_cell. rewrite Ea. simpl. exact Eij.
      * apply set3_other. unfold same_cell. rewrite Ea. reflexivity.
Qed.

Lemma index_to_float_value words k w v :
  index words k = ok w -> to_float float w = ok v -> v = token_value float words k.
Proof.
  unfold index, to_float, token_value.
  destruct (nth_error words k) as [w'|]; [|discriminate].
  intros [= ->]. destruct (float w) as [v'|]; [|discriminate].
  intros [= ->]. reflexivity.
Qed.

Lemma numeric_atb_true words k : numeric_atb float words k = true -> numeric_at float words k.
Proof.
  unfold numeric_atb, numeric_at.
  destruct (nth_error words k) as [w|]; [|discriminate].
  destruct (float w) as [v|] eqn:Hv; [|discriminate].
  intros _. exists w, v. auto.
Qed.

Lemma blocks_numeric words :
  forallb (numeric_atb float words) block_tokens = true ->
  forall k, (1 <= k <= 16 \/ 18 <= k <= 26)%nat -> numeric_at float words k.
Proof.
  intros Hall k Hk. apply numeric_atb_true.
  rewrite forallb_forall in Hall. apply Hall.
  unfold block_tokens. rewrite in_app_iff, !in_seq. lia.
Qed.

Lemma in_range2 n i j : In (i, j) (range2 n) -> (i < n /\ j < n)%nat.
Proof.
  unfold range2. rewrite in_prod_iff, !in_seq. lia.
Qed.

Lemma in_cells_range2 n i j :
  (i < n)%nat -> (j < n)%nat -> in_cells (range2 n) i j = true.
Proof.
  intros Hi Hj. unfold in_cells. rewrite existsb_exists.
  exists (i, j). split.
  - unfold range2. rewrite in_prod_iff, !in_seq. lia.
  - simpl. rewrite !Nat.eqb_refl. reflexivity.
Qed.

End LoadCamFacts.

Section LoadCamClaims.

Variable float : string -> option Q.
Variable FLAGS_max_d : Q.

Ltac bind_inv H :=
  let x := fresh "x" in
  let Hx := fresh "Hx" in
  apply bind_ok_inv in H; destruct H as (x & Hx & H).

(** C8.  A calibration text whose tokens 1..16 and 18..26 are numbers (the
    two blocks parse) and whose token count is none of 29, 30, 31 is read
    without an exception: the depth-sampling row of the camera is all
    zeros, and the extrinsic and intrinsic blocks hold the values of the
    text. *)
Theorem load_cam_other_count_zero_tail text interval_scale max_d :
  (forall k, (1 <= k <= 16 \/ 18 <= k <= 26)%nat ->
             numeric_at float (split text) k) ->
  List.length (split text) <> 29%nat ->
  List.length (split text) <> 30%nat ->
  List.length (split text) <> 31%nat ->
  exists cam,
    load_cam float FLAGS_max_d text interval_scale max_d = ok cam /\
    (forall j, (j < 4)%nat -> get3 cam 1 3 j = 0) /\
    (forall i j, (i < 4)%nat -> (j < 4)%nat ->
       get3 cam 0 i j = token_value float (split text) (4 * i + j + 1)) /\
    (forall i j, (i < 3)%nat -> (j < 3)%nat ->
       get3 cam 1 i j = token_value float (split text) (3 * i + j + 18)).
Proof.
  intros Hnum H29 H30 H31.
  destruct (read_cells_ok float (split text) 0 4 1 (range2 4) zeros3)
    as (c1 & Hr1 & Hc1).
  { intros i j Hin. apply in_range2 in Hin. apply Hnum. lia. }
  destruct (read_cells_ok float (split text) 1 3 18 (range2 3) c1)
    as (c2 & Hr2 & Hc2).
  { intros i j Hin. apply in_range2 in Hin. apply Hnum. lia. }
  eexists. split.
  - unfold load_cam. rewrite Hr1. cbv beta iota delta [bind ok].
    rewrite Hr2. cbv beta iota delta [bind ok].
    apply Nat.eqb_neq in H29, H30, H31. rewrite H29, H30, H31.
    reflexivity.
  - split; [|split].
    + intros j Hj.
      destruct j as [|[|[|[|j]]]]; try lia; reflexivity.
    + intros i j Hi Hj.
      rewrite !set3_other by reflexivity.
      rewrite Hc2, Hc1, (in_cells_range2 4 i j) by assumption.
      reflexivity.
    + intros i j Hi Hj.
      rewrite !set3_other
        by (destruct i as [|[|[|i]]]; try lia; reflexivity).
      rewrite Hc2, (in_cells_range2 3 i j) by assumption.
      reflexivity.
Qed.

(** C1 (as the code has it).  When the text has 29 or 30 tokens and the
    reader returns a camera, its depth row holds start = token 27,
    interval = token 28 times [interval_scale], count = the supplied
    [max_d] (or [FLAGS.max_d]) for 29 tokens and token 29 for 30 tokens,
    and end = start + interval * count. *)
Theorem load_cam_derived_end text interval_scale max_d cam :
  (List.length (split text) = 29 \/ List.length (split text) = 30)%nat ->
  load_cam float FLAGS_max_d text interval_scale max_d = ok cam ->
  get3 cam 1 3 0 = token_value float (split text) 27 /\
  get3 cam 1 3 1 = token_value float (split text) 28 * interval_scale /\
  (List.length (split text) = 29%nat ->
     get3 cam 1 3 2 = match max_d with Some d => d | None => FLAGS_max_d end) /\
  (List.length (split text) = 30%nat ->
     get3 cam 1 3 2 = token_value float (split text) 29) /\
  get3 cam 1 3 3 = get3 cam 1 3 0 + get3 cam 1 3 1 * get3 cam 1 3 2.
Proof.
  intros Hlen Hload. unfold load_cam in Hload.
  bind_inv Hload. bind_inv Hload.
  destruct Hlen as [Hlen | Hlen]; rewrite Hlen in Hload; simpl in Hload.
  - do 4 bind_inv Hload.
    match goal with
    | H1 : index _ 27 = ok ?w1, H2 : to_float _ ?w1 = ok ?v1,
      H3 : index _ 28 = ok ?w2, H4 : to_float _ ?w2 = ok ?v2 |- _ =>
        rewrite (index_to_float_value float _ _ _ _ H1 H2) in Hload;
        rewrite (index_to_float_value float _ _ _ _ H3 H4) in Hload
    end.
    injection Hload as <-.
    destruct max_d; repeat split; try reflexivity;
      intros H30; rewrite Hlen in H30; discriminate.
  - do 6 bind_inv Hload.
    match goal with
    | H1 : index _ 27 = ok ?w1, H2 : to_float _ ?w1 = ok ?v1,
      H3 : index _ 28 = ok ?w2, H4 : to_float _ ?w2 = ok ?v2,
      H5 : index _ 29 = ok ?w3, H6 : to_float _ ?w3 = ok ?v3 |- _ =>
        rewrite (index_to_float_value float _ _ _ _ H1 H2) in Hload;
        rewrite (index_to_float_value float _ _ _ _ H3 H4) in Hload;
        rewrite (index_to_float_value float _ _ _ _ H5 H6) in Hload
    end.
    injection Hload as <-.
    repeat split; try reflexivity.
    intros H29. rewrite Hlen in H29. discriminate.
Qed.

End LoadCamClaims.

(** C8 at a text of 27 tokens and decimal literals. *)
Lemma load_cam_other_count_zero_tail_witness :
  exists cam,
    load_cam float_dec 200 cam_text_27 1 None = ok cam /\
    (forall j, (j < 4)%nat -> get3 cam 1 3 j = 0) /\
    (forall i j, (i < 4)%nat -> (j < 4)%nat ->
       get3 cam 0 i j = token_value float_dec (split cam_text_27) (4 * i + j + 1)) /\
    (forall i j, (i < 3)%nat -> (j < 3)%nat ->
       get3 cam 1 i j = token_value float_dec (split cam_text_27) (3 * i + j + 18)).
Proof.
  apply (load_cam_other_count_zero_tail float_dec 200 cam_text_27 1 None).
  - apply blocks_numeric. vm_compute. reflexivity.
  - vm_compute. discriminate.
  - vm_compute. discriminate.
  - vm_compute. discriminate.
Defined.

(** The depth row of a camera, for display. *)
Lemma load_cam_text_29_row :
  match load_cam float_dec 200 cam_text_29 1 (Some 192) with
  | inr cam =>
      get3 cam 1 3 0 == 425 /\ get3 cam 1 3 1 == 2.5 /\
      get3 cam 1 3 2 == 192 /\ get3 cam 1 3 3 == 905
  | inl _ => False
  end.
Proof. vm_compute. repeat split. Qed.

(** C1 as stated fails: 29 tokens, start 425, interval 2.5 > 0, supplied
    count 192.  The reader returns end = 905, and
    start + interval * (count - 1) is 902.5. *)
Lemma load_cam_end_not_count_minus_one :
  List.length (split cam_text_29) = 29%nat /\
  match load_cam float_dec 200 cam_text_29 1 (Some 192) with
  | inr cam =>
      0 < get3 cam 1 3 1 /\
      get3 cam 1 3 2 == 192 /\
      ~ get3 cam 1 3 3 == get3 cam 1 3 0 + get3 cam 1 3 1 * (get3 cam 1 3 2 - 1)
  | inl _ => False
  end.
Proof.
  split; [reflexivity|].
  vm_compute. split; [reflexivity|]. split; [reflexivity|]. discriminate.
Qed.

(** C1 (as the code has it) at a text of 30 tokens. *)
Lemma load_cam_derived_end_witness :
  exists cam,
    load_cam float_dec 200 cam_text_30 1 None = ok cam /\
    get3 cam 1 3 2 = token_value float_dec (split cam_text_30) 29 /\
    get3 cam 1 3 3 = get3 cam 1 3 0 + get3 cam 1 3 1 * get3 cam 1 3 2.
Proof.
  destruct (load_cam float_dec 200 cam_text_30 1 None) as [e | cam] eqn:Hload.
  - vm_compute in Hload. discriminate.
  - exists cam. split; [reflexivity|].
    destruct (load_cam_derived_end float_dec 200 cam_text_30 1 None cam)
      as (_ & _ & _ & Hcount & Hend).
    + right. vm_compute. reflexivity.
    + exact Hload.
    + split; [apply Hcount; vm_compute; reflexivity | exact Hend].
Defined.

(** ** Masked sums *)

Lemma reduce_sum_cons x l : reduce_sum (x :: l) = x + reduce_sum l.
Proof. reflexivity. Qed.

Lemma reduce_sum_all_cons row t :
  reduce_sum_all (row :: t) = reduce_sum row + reduce_sum_all t.
Proof. reflexivity. Qed.

Lemma mask_px_cases v :
  (v == 0 /\ mask_px v = 0) \/ (~ v == 0 /\ mask_px v = 1).
Proof.
  unfold mask_px. destruct (Qeq_bool v 0) eqn:E.
  - left. split; [apply Qeq_bool_iff; exact E | reflexivity].
  - right. split; [|reflexivity].
    intros H. apply Qeq_bool_iff in H. congruence.
Qed.

Lemma mask_row_nonneg row : 0 <= reduce_sum (map mask_px row).
Proof.
  induction row as [|v row IH]; simpl.
  - apply Qle_refl.
  - destruct (mask_px_cases v) as [[_ ->] | [_ ->]]; lra.
Qed.

Lemma mask_all_nonneg t : 0 <= reduce_sum_all (mask_of t).
Proof.
  induction t as [|row t IH].
  - apply Qle_refl.
  - unfold mask_of in *. simpl map. rewrite reduce_sum_all_cons.
    pose proof (mask_row_nonneg row) as Hrow. lra.
Qed.

Lemma mask_row_valid row :
  Exists (fun t => ~ t == 0) row -> 1 <= reduce_sum (map mask_px row).
Proof.
  induction 1 as [v row Hv | v row _ IH]; simpl.
  - pose proof (mask_row_nonneg row).
    destruct (mask_px_cases v) as [[H0 _] | [_ ->]]; [contradiction | lra].
  - destruct (mask_px_cases v) as [[_ ->] | [_ ->]]; lra.
Qed.

Lemma mask_all_valid t : has_valid_pixel t -> 1 <= reduce_sum_all (mask_of t).
Proof.
  induction 1 as [row t Hrow | row t _ IH];
    unfold mask_of in *; simpl map; rewrite reduce_sum_all_cons.
  - pose proof (mask_row_valid row Hrow) as H1.
    pose proof (mask_all_nonneg t) as H2.
    unfold mask_of in *. lra.
  - pose proof (mask_row_nonneg row) as H1. lra.
Qed.

Lemma less_equal_div_exact t p iv k :
  p == t -> ~ iv == 0 -> 0 <= k -> less_equal_div (Qabs (t - p)) iv k = 1.
Proof.
  intros Hp Hiv Hk. unfold less_equal_div.
  destruct (Qeq_bool iv 0) eqn:E.
  - apply Qeq_bool_iff in E. contradiction.
  - assert (Hd : Qabs (t - p) / iv == 0).
    { assert (H0 : t - p == 0) by (rewrite Hp; ring).
      rewrite H0. simpl. unfold Qdiv. ring. }
    assert (Hle : Qle_bool (Qabs (t - p) / iv) k = true).
    { apply Qle_bool_iff. rewrite Hd. exact Hk. }
    rewrite Hle. reflexivity.
Qed.

Lemma less_row_exact row_t row_p iv k :
  Forall2 (fun t p => ~ t == 0 -> p == t) row_t row_p ->
  ~ iv == 0 -> 0 <= k ->
  reduce_sum
    (zip_with Qmult (map mask_px row_t)
       (map (fun d => less_equal_div d iv k)
          (zip_with (fun t p => Qabs (t - p)) row_t row_p)))
  == reduce_sum (map mask_px row_t).
Proof.
  intros Hrow Hiv Hk.
  induction Hrow as [| t p row_t row_p Htp _ IH].
  - reflexivity.
  - unfold zip_with in *. cbn [map combine fst snd]. rewrite !reduce_sum_cons, IH.
    destruct (mask_px_cases t) as [[_ ->] | [Ht ->]].
    + ring.
    + rewrite (less_equal_div_exact t p iv k (Htp Ht) Hiv Hk). ring.
Qed.

Lemma less_image_exact k y_true :
  forall y_pred interval,
    exact_on_valid y_true y_pred ->
    List.length interval = List.length y_true ->
    Forall (fun iv => 0 < iv) interval ->
    0 <= k ->
    reduce_sum_all
      (tmap2 Qmult (mask_of y_true)
         (zip_with (fun iv row => map (fun d => less_equal_div d iv k) row)
            interval (tmap2 (fun t p => Qabs (t - p)) y_true y_pred)))
    == reduce_sum_all (mask_of y_true).
Proof.
  induction y_true as [| row_t y_true IH]; intros y_pred interval Hex Hlen Hiv Hk.
  - reflexivity.
  - inversion Hex as [| ? row_p ? y_pred' Hrow Hrest]; subst.
    destruct interval as [| iv interval]; [discriminate|].
    inversion Hiv as [| ? ? Hpos Hiv']; subst.
    injection Hlen as Hlen.
    specialize (IH y_pred' interval Hrest Hlen Hiv' Hk).
    unfold tmap2, zip_with, mask_of in *. cbn [map combine fst snd].
    rewrite !reduce_sum_all_cons.
    rewrite IH.
    pose proof (less_row_exact row_t row_p iv k Hrow) as Hr.
    unfold zip_with in Hr. rewrite Hr; [reflexivity | lra | exact Hk].
Qed.

(** ** Threshold accuracy *)

Lemma less_percentage_exact k y_true y_pred interval :
  exact_on_valid y_true y_pred ->
  List.length interval = List.length y_true ->
  Forall (fun iv => 0 < iv) interval ->
  0 <= k ->
  less_percentage k y_true y_pred interval
  == reduce_sum_all (mask_of y_true) / (reduce_sum_all (mask_of y_true) + (1 # 1000000)).
Proof.
  intros Hex Hlen Hiv Hk. unfold less_percentage.
  rewrite (less_image_exact k y_true y_pred interval Hex Hlen Hiv Hk).
  rewrite (Qabs_pos _ (mask_all_nonneg y_true)).
  reflexivity.
Qed.

(** ** The regression entry point *)

Section RegressionLoss.

Variable pow : Q -> Q -> Q.

(** C9.  The entry point hands one and the same interval to the loss and
    to both accuracies: per sample, (depth_end - depth_start) / 191.  The
    number of depth bins is no argument of the function. *)
Theorem regression_interval_is_range_over_191
    (estimated_depth_image depth_image : tensor)
    (depth_start depth_end : list Q) (alpha beta : Q) :
  mvsnet_regression_loss pow estimated_depth_image depth_image
    depth_start depth_end alpha beta
  = (masked_loss pow depth_image estimated_depth_image
       (regression_interval depth_start depth_end) alpha beta,
     less_one_percentage depth_image estimated_depth_image
       (regression_interval depth_start depth_end),
     less_three_percentage depth_image estimated_depth_image
       (regression_interval depth_start depth_end))
  /\ List.length (regression_interval depth_start depth_end)
     = Nat.min (List.length depth_end) (List.length depth_start)
  /\ forall b s e,
       nth_error depth_start b = Some s ->
       nth_error depth_end b = Some e ->
       nth_error (regression_interval depth_start depth_end) b
       = Some ((e - s) / 191).
Proof.
  split; [reflexivity|]. split.
  - unfold regression_interval, zip_with.
    rewrite length_map, length_combine. reflexivity.
  - unfold regression_interval, zip_with.
    revert depth_end.
    induction depth_start as [|s0 ds IH]; intros depth_end b s e Hs He.
    + destruct b; discriminate.
    + destruct depth_end as [|e0 de]; [destruct b; discriminate|].
      destruct b as [|b]; simpl in *.
      * injection Hs as ->. injection He as ->. reflexivity.
      * apply IH; assumption.
Qed.

End RegressionLoss.

(** ** The normalisation of the masked loss *)

Section MaskedLossNormalization.

Variable pow : Q -> Q -> Q.
Hypothesis pow_one : forall x y, y == 1 -> pow x y == x.
Hypothesis pow_two : forall x y, y == 2 -> pow x y == x * x.

(** C2 at beta = 2, alpha = 1: one sample of two measured pixels predicted
    exactly, interval 1.  Each pixel's error is the noise floor 0.005 and
    V = 2.000001.  The code raises the count to beta before it takes the
    mean for the normalisation, and returns 0.01 / V^2 * V^2 = 0.01; with
    the factor mean(V)^(beta-1) / interval^alpha the loss is
    0.01 / V^2 * V = 0.01 / 2.000001. *)
Theorem masked_loss_normalization_at_beta_two :
  exists code spec,
    masked_loss pow two_pixels two_pixels [1] 1 2 = [code] /\
    masked_loss_spec pow two_pixels two_pixels [1] 1 2 = [spec] /\
    code == 1 # 100 /\
    spec == 10000 # 2000001 /\
    ~ code == spec.
Proof.
  eexists. eexists.
  split; [reflexivity|]. split; [reflexivity|].
  assert (Hcode :
    reduce_sum
      (zip_with Qdiv
         (reduce_sum_123
            (tmap2 Qmult
               (tmap2 Qplus
                  (tmap2 (fun t p => Qabs (t - p)) two_pixels two_pixels)
                  (map (map (fun t => 0.005 * t)) two_pixels))
               (mask_of two_pixels)))
         (map (fun d => pow d 2)
            (map (fun s => Qabs s + (1 # 1000000))
               (reduce_sum_123 (mask_of two_pixels))))) *
    (pow
       (reduce_mean
          (map (fun d => pow d 2)
             (map (fun s => Qabs s + (1 # 1000000))
                (reduce_sum_123 (mask_of two_pixels)))))
       (2 - 1) / pow 1 1) == 1 # 100).
  { unfold two_pixels, mask_of, reduce_sum_123, reduce_mean, tmap2, zip_with.
    cbn [map combine fst snd List.length reduce_sum fold_right].
    rewrite (pow_one _ (2 - 1)) by reflexivity.
    rewrite (pow_one 1 1) by reflexivity.
    rewrite (pow_two _ 2) by reflexivity.
    vm_compute. reflexivity. }
  assert (Hspec :
    reduce_sum
      (zip_with (fun n v => n / pow v 2)
         (masked_error_sum pow two_pixels two_pixels 1)
         (valid_count two_pixels)) *
    (pow (reduce_mean (valid_count two_pixels)) (2 - 1) / pow 1 1)
    == 10000 # 2000001).
  { unfold masked_error_sum, valid_count, two_pixels, mask_of, reduce_sum_123,
      reduce_mean, tmap2, zip_with.
    cbn [map combine fst snd List.length reduce_sum fold_right].
    rewrite (pow_one _ (2 - 1)) by reflexivity.
    rewrite !(pow_one _ 1) by reflexivity.
    rewrite (pow_two _ 2) by reflexivity.
    vm_compute. reflexivity. }
  split; [exact Hcode|]. split; [exact Hspec|].
  intros Heq.
  assert (H : (1 # 100) == (10000 # 2000001)).
  { rewrite <- Hcode, <- Hspec. exact Heq. }
  vm_compute in H. discriminate.
Qed.

End MaskedLossNormalization.

(** [pow_int] is a power function at the exponents 1 and 2. *)
Lemma pow_int_one x y : y == 1 -> pow_int x y == x.
Proof.
  intros Hy. unfold pow_int. rewrite (Qfloor_comp _ _ Hy).
  change (Qfloor 1) with 1%Z. simpl. reflexivity.
Qed.

Lemma pow_int_two x y : y == 2 -> pow_int x y == x * x.
Proof.
  intros Hy. unfold pow_int. rewrite (Qfloor_comp _ _ Hy).
  change (Qfloor 2) with 2%Z. simpl. reflexivity.
Qed.

(** C2's evaluation with a concrete power function. *)
Lemma masked_loss_normalization_at_beta_two_witness :
  exists code spec,
    masked_loss pow_int two_pixels two_pixels [1] 1 2 = [code] /\
    masked_loss_spec pow_int two_pixels two_pixels [1] 1 2 = [spec] /\
    code == 1 # 100 /\
    spec == 10000 # 2000001 /\
    ~ code == spec.
Proof.
  exact (masked_loss_normalization_at_beta_two pow_int pow_int_one pow_int_two).
Defined.

(** ** The shared resize scale *)

Lemma Qgtb_true a b : Qgtb a b = true <-> b < a.
Proof.
  unfold Qgtb. rewrite negb_true_iff.
  split; intros H.
  - apply Qnot_le_lt. intros Hle. apply Qle_bool_iff in Hle. congruence.
  - destruct (Qle_bool a b) eqn:E; [|reflexivity].
    apply Qle_bool_iff in E. exfalso. apply (Qlt_not_le _ _ H E).
Qed.

Lemma Qgtb_false a b : Qgtb a b = false <-> a <= b.
Proof.
  unfold Qgtb. rewrite negb_false_iff. apply Qle_bool_iff.
Qed.

(** [if x > m: m = x] leaves the larger of the two in [m]. *)
Lemma running_max x m :
  let r := if Qgtb x m then x else m in
  m <= r /\ x <= r /\ (r = m \/ r = x).
Proof.
  simpl. destruct (Qgtb x m) eqn:E.
  - apply Qgtb_true in E. repeat split; [lra | lra | right; reflexivity].
  - apply Qgtb_false in E. repeat split; [lra | lra | left; reflexivity].
Qed.

Lemma py_div_nat_ok (a : Z) (n : nat) :
  (0 < n)%nat ->
  py_div (inject_Z a) (inject_Z (Z.of_nat n))
  = ok (inject_Z a / inject_Z (Z.of_nat n)).
Proof.
  intros Hn. unfold py_div.
  destruct (Qeq_bool (inject_Z (Z.of_nat n)) 0) eqn:E; [|reflexivity].
  apply Qeq_bool_iff in E. unfold Qeq in E. simpl in E. lia.
Qed.

Lemma max_scales_spec max_h max_w images :
  Forall positive_shape images ->
  forall n view h0 w0,
    (view + n = List.length images)%nat ->
    exists h w,
      max_scales max_h max_w images view n h0 w0 = ok (h, w) /\
      h0 <= h /\ w0 <= w /\
      (forall i shape,
         (view <= i)%nat -> nth_error images i = Some shape ->
         height_scale_of max_h shape <= h /\ width_scale_of max_w shape <= w) /\
      (h = h0 \/ exists shape, In shape images /\ h = height_scale_of max_h shape) /\
      (w = w0 \/ exists shape, In shape images /\ w = width_scale_of max_w shape).
Proof.
  intros Hpos. induction n as [|n IH]; intros view h0 w0 Hlen.
  - exists h0, w0. split; [reflexivity|].
    split; [lra|]. split; [lra|]. split; [|split; left; reflexivity].
    intros i shape Hi Hnth.
    assert (i < List.length images)%nat by (apply nth_error_Some; congruence).
    lia.
  - destruct (nth_error images view) as [shape|] eqn:Hshape.
    2:{ apply nth_error_None in Hshape. lia. }
    assert (Hin : In shape images) by exact (nth_error_In images view Hshape).
    assert (Hp : positive_shape shape).
    { rewrite Forall_forall in Hpos. apply Hpos. exact Hin. }
    destruct Hp as [Hp0 Hp1].
    pose proof (running_max (height_scale_of max_h shape) h0) as (Hh1 & Hh2 & Hh3).
    pose proof (running_max (width_scale_of max_w shape) w0) as (Hw1 & Hw2 & Hw3).
    destruct (IH (S view)
                (if Qgtb (height_scale_of max_h shape) h0
                 then height_scale_of max_h shape else h0)
                (if Qgtb (width_scale_of max_w shape) w0
                 then width_scale_of max_w shape else w0))
      as (h & w & Hrun & Hh & Hw & Hall & Hhin & Hwin); [lia|].
    exists h, w. split.
    { simpl. unfold index. rewrite Hshape. simpl.
      rewrite (py_div_nat_ok max_h _ Hp0). simpl.
      rewrite (py_div_nat_ok max_w _ Hp1). simpl.
      exact Hrun. }
    split; [lra|]. split; [lra|]. split; [|split].
    + intros i shape' Hi Hnth.
      destruct (Nat.eq_dec i view) as [-> | Hne].
      * rewrite Hshape in Hnth. injection Hnth as <-. split; lra.
      * apply (Hall i shape'); [lia | exact Hnth].
    + destruct Hhin as [-> | Hhin]; [|right; exact Hhin].
      destruct Hh3 as [-> | ->]; [left; reflexivity|].
      right. exists shape. split; [exact Hin | reflexivity].
    + destruct Hwin as [-> | Hwin]; [|right; exact Hwin].
      destruct Hw3 as [-> | ->]; [left; reflexivity|].
      right. exists shape. split; [exact Hin | reflexivity].
Qed.

Lemma scale_of_positive (m : Z) (n : nat) :
  (0 < m)%Z -> (0 < n)%nat -> 0 < inject_Z m / inject_Z (Z.of_nat n).
Proof.
  intros Hm Hn. apply Qlt_shift_div_l.
  - unfold Qlt. simpl. lia.
  - rewrite Qmult_0_l. unfold Qlt. simpl. lia.
Qed.

(** C4.  For a non-empty list of views with positive native sizes and
    positive bounds, the scale the generator computes is the maximum over the
    views of max(max_h / h, max_w / w); the generator exits when that scale
    exceeds 1 and returns it otherwise. *)
Theorem resize_scale_is_shared_scale max_h max_w images :
  images <> [] ->
  Forall positive_shape images ->
  (0 < max_h)%Z -> (0 < max_w)%Z ->
  exists s,
    is_shared_scale max_h max_w images s /\
    (1 < s ->
     resize_scale true max_h max_w images (List.length images)
     = raise SystemExit) /\
    (s <= 1 ->
     resize_scale true max_h max_w images (List.length images) = ok s).
Proof.
  intros Hne Hpos Hmh Hmw.
  destruct (max_scales_spec max_h max_w images Hpos (List.length images) 0 0 0)
    as (h & w & Hrun & Hh0 & Hw0 & Hall & Hhin & Hwin); [reflexivity|].
  assert (Hbound : forall shape, In shape images ->
            height_scale_of max_h shape <= h /\ width_scale_of max_w shape <= w).
  { intros shape Hin. destruct (In_nth_error _ _ Hin) as [i Hi].
    apply (Hall i shape); [lia | exact Hi]. }
  assert (Hhpos : 0 < h).
  { destruct images as [|shape0 rest]; [contradiction|].
    destruct (Hbound shape0 (or_introl eq_refl)) as [Hb _].
    assert (Hp : positive_shape shape0) by (inversion Hpos; assumption).
    pose proof (scale_of_positive max_h (fst shape0) Hmh (proj1 Hp)) as H0.
    unfold height_scale_of in Hb. lra. }
  exists (if Qgtb w h then w else h).
  split; [|split].
  - split.
    + destruct (Qgtb w h) eqn:E.
      * apply Qgtb_true in E.
        destruct Hwin as [-> | (shape & Hin & ->)]; [lra|].
        exists shape. split; [exact Hin|].
        unfold view_scale. symmetry. apply Q.max_r.
        destruct (Hbound shape Hin) as [Hb _]. lra.
      * apply Qgtb_false in E.
        destruct Hhin as [-> | (shape & Hin & ->)]; [lra|].
        exists shape. split; [exact Hin|].
        unfold view_scale. symmetry. apply Q.max_l.
        destruct (Hbound shape Hin) as [_ Hb]. lra.
    + intros shape Hin. destruct (Hbound shape Hin) as [Hb1 Hb2].
      unfold view_scale. apply Q.max_lub.
      * destruct (Qgtb w h) eqn:E; [apply Qgtb_true in E; lra | lra].
      * destruct (Qgtb w h) eqn:E; [lra | apply Qgtb_false in E; lra].
  - intros Hs. unfold resize_scale. rewrite Hrun. simpl.
    destruct (Qgtb w h) eqn:E.
    + apply Qgtb_true in Hs. rewrite Hs, orb_true_r. reflexivity.
    + apply Qgtb_true in Hs. rewrite Hs. reflexivity.
  - intros Hs. unfold resize_scale. rewrite Hrun. simpl.
    assert (Hh1 : Qgtb h 1 = false).
    { apply Qgtb_false.
      destruct (Qgtb w h) eqn:E; [apply Qgtb_true in E; lra | lra]. }
    assert (Hw1 : Qgtb w 1 = false).
    { apply Qgtb_false.
      destruct (Qgtb w h) eqn:E; [lra | apply Qgtb_false in E; lra]. }
    rewrite Hh1, Hw1. reflexivity.
Qed.

(** C4 at the specification's example: native sizes (768, 1024) and
    (600, 800) with bounds 384 and 512.  The shared scale is 0.64 and the
    call succeeds. *)
Lemma resize_scale_is_shared_scale_witness :
  exists s,
    is_shared_scale 384 512 [(768, 1024); (600, 800)]%nat s /\
    s == 0.64 /\
    resize_scale true 384 512 [(768, 1024); (600, 800)]%nat 2 = ok s.
Proof.
  destruct (resize_scale_is_shared_scale 384 512 [(768, 1024); (600, 800)]%nat)
    as (s & Hs & _ & Hok).
  - discriminate.
  - repeat constructor.
  - reflexivity.
  - reflexivity.
  - assert (H64 : s == 0.64).
    { destruct Hs as [(shape & Hin & Heq) Hmax].
      pose proof (Hmax (600, 800)%nat (or_intror (or_introl eq_refl))) as Hge.
      assert (E2 : view_scale 384 512 (600, 800)%nat == 0.64)
        by (vm_compute; reflexivity).
      assert (E1 : view_scale 384 512 (768, 1024)%nat == 0.5)
        by (vm_compute; reflexivity).
      rewrite E2 in Hge.
      destruct Hin as [<- | [<- | []]].
      - rewrite E1 in Heq. lra.
      - rewrite E2 in Heq. exact Heq. }
    exists s. split; [exact Hs|]. split; [exact H64|].
    apply Hok. lra.
Defined.

(** ** The heap *)

Lemma load_store_same h r c : load (store h r c) r = c.
Proof. unfold load, store. simpl. rewrite Nat.eqb_refl. reflexivity. Qed.

Lemma load_store_other h r c r' : r' <> r -> load (store h r c) r' = load h r'.
Proof.
  intros Hne. unfold load, store. simpl.
  apply Nat.eqb_neq in Hne. rewrite Hne. reflexivity.
Qed.

Lemma load_store3_other h r a i j v r' :
  r' <> r -> load (store3 h r a i j v) r' = load h r'.
Proof. intros Hne. unfold store3. apply load_store_other. exact Hne. Qed.

Lemma load_store3_same h r a i j v :
  load (store3 h r a i j v) r = set3 (load h r) a i j v.
Proof. unfold store3. apply load_store_same. Qed.

Lemma next_store3 h r a i j v : next (store3 h r a i j v) = next h.
Proof. reflexivity. Qed.

(** [scale_camera] allocates: the result is a new object, no object that
    existed is written, the four intrinsics are scaled and every other entry
    is a copy. *)
Lemma scale_camera_copies h cam scale :
  (cam < next h)%nat ->
  fst (scale_camera h cam scale) = next h /\
  next (snd (scale_camera h cam scale)) = S (next h) /\
  (forall r, (r < next h)%nat ->
     load (snd (scale_camera h cam scale)) r = load h r) /\
  (forall a i j,
     get3 (load (snd (scale_camera h cam scale)) (next h)) a i j =
       if scaled_cell a i j
       then get3 (load h cam) a i j * scale
       else get3 (load h cam) a i j).
Proof.
  intros Hcam. unfold scale_camera, alloc.
  assert (Hne : cam <> next h) by lia.
  split; [reflexivity|]. split; [reflexivity|]. split.
  - intros r Hr. cbn [snd].
    rewrite !load_store3_other by lia.
    unfold load. simpl.
    assert (E : Nat.eqb r (next h) = false) by (apply Nat.eqb_neq; lia).
    rewrite E. reflexivity.
  - intros a i j. cbn [snd].
    rewrite !load_store3_same.
    rewrite !load_store3_other by exact Hne.
    set (h0 := {| cell := _; next := S (next h) |}).
    assert (Hc : load h0 cam = load h cam).
    { unfold load, h0. simpl.
      assert (E : Nat.eqb cam (next h) = false) by (apply Nat.eqb_neq; lia).
      rewrite E. reflexivity. }
    assert (Hn : load h0 (next h) = load h cam).
    { unfold load, h0. simpl. rewrite Nat.eqb_refl. reflexivity. }
    rewrite Hc, Hn.
    unfold scaled_cell, get3, set3.
    destruct (same_cell 1 1 2 a i j) eqn:E4.
    { apply same_cell_true in E4. destruct E4 as (<- & <- & <-).
      reflexivity. }
    destruct (same_cell 1 0 2 a i j) eqn:E3.
    { apply same_cell_true in E3. destruct E3 as (<- & <- & <-).
      reflexivity. }
    destruct (same_cell 1 1 1 a i j) eqn:E2.
    { apply same_cell_true in E2. destruct E2 as (<- & <- & <-).
      reflexivity. }
    destruct (same_cell 1 0 0 a i j) eqn:E1.
    { apply same_cell_true in E1. destruct E1 as (<- & <- & <-).
      reflexivity. }
    reflexivity.
Qed.

(** ** Lists updated by subscript *)

Lemma length_list_set {A} (l : list A) i v :
  List.length (list_set l i v) = List.length l.
Proof.
  revert i. induction l as [|x l IH]; intros [|i]; simpl; auto.
Qed.

Lemma nth_error_list_set_same {A} (l : list A) i v :
  (i < List.length l)%nat -> nth_error (list_set l i v) i = Some v.
Proof.
  revert i. induction l as [|x l IH]; intros [|i] Hi; simpl in *; try lia.
  - reflexivity.
  - apply IH. lia.
Qed.

Lemma nth_error_list_set_other {A} (l : list A) i v k :
  k <> i -> nth_error (list_set l i v) k = nth_error l k.
Proof.
  revert i k. induction l as [|x l IH]; intros [|i] [|k] Hk; simpl;
    try reflexivity; try congruence.
  apply IH. congruence.
Qed.

(** ** The cropping loop *)

Lemma index_ok_iff {A} (l : list A) i x :
  index l i = ok x <-> nth_error l i = Some x.
Proof.
  unfold index. destruct (nth_error l i); split; intros H;
    try discriminate; injection H as ->; reflexivity.
Qed.

Lemma crop_window_ok F h w :
  ~ FLAGS_base_image_size F == 0 -> exists win, crop_window F h w = ok win.
Proof.
  intros Hbase.
  assert (Hdiv : forall a, py_div a (FLAGS_base_image_size F)
                           = ok (a / FLAGS_base_image_size F)).
  { intros a. unfold py_div.
    destruct (Qeq_bool (FLAGS_base_image_size F) 0) eqn:E; [|reflexivity].
    apply Qeq_bool_iff in E. contradiction. }
  assert (Hsize : forall size flag, exists n, new_size F size flag = ok n).
  { intros size flag. unfold new_size.
    destruct (size >? flag)%Z; [eexists; reflexivity|].
    rewrite Hdiv. eexists. reflexivity. }
  unfold crop_window.
  destruct (Hsize h (FLAGS_height F)) as [nh ->].
  destruct (Hsize w (FLAGS_width F)) as [nw ->].
  eexists. reflexivity.
Qed.

(** One iteration: the image is replaced by its slice, the camera array is
    overwritten where it is, and the window is left in the variables. *)
Lemma crop_view_step {A} F cams (st : crop_state A) view img win cam :
  nth_error (st_images st) view = Some img ->
  window_of F img = ok win ->
  nth_error cams view = Some cam ->
  exists st1,
    crop_view F cams st view = ok st1 /\
    st_images st1 = list_set (st_images st) view (slice_window img win) /\
    st_window st1 = Some win /\
    next (st_heap st1) = next (st_heap st) /\
    load (st_heap st1) cam = crop_cam (load (st_heap st) cam) win /\
    (forall r, r <> cam -> load (st_heap st1) r = load (st_heap st) r).
Proof.
  intros Himg Hwin Hcam.
  apply index_ok_iff in Himg, Hcam.
  eexists. split.
  { unfold crop_view. rewrite Himg. simpl. rewrite Hwin. simpl.
    rewrite Hcam. simpl. reflexivity. }
  cbn [st_images st_window st_heap].
  split; [reflexivity|]. split; [reflexivity|]. split; [reflexivity|].
  split.
  - unfold load, store3, store. simpl. rewrite !Nat.eqb_refl. reflexivity.
  - intros r Hr. apply Nat.eqb_neq in Hr.
    unfold load, store3, store. simpl. rewrite !Hr. reflexivity.
Qed.

(** The loop over the views [view .. view + n - 1], on the images: every
    image is replaced by the slice at its own window, nothing is allocated,
    and the window variables hold the window of the last view. *)
Lemma crop_loop_images {A} F cams (images0 : list (image A)) :
  ~ FLAGS_base_image_size F == 0 ->
  List.length cams = List.length images0 ->
  forall n view st,
    (view + n = List.length images0)%nat ->
    List.length (st_images st) = List.length images0 ->
    (forall i, (view <= i)%nat ->
       nth_error (st_images st) i = nth_error images0 i) ->
    exists st',
      for_range (crop_view F cams) view n st = ok st' /\
      List.length (st_images st') = List.length images0 /\
      next (st_heap st') = next (st_heap st) /\
      (forall i, (i < view)%nat ->
         nth_error (st_images st') i = nth_error (st_images st) i) /\
      (forall i img, (view <= i)%nat -> nth_error images0 i = Some img ->
         exists win,
           window_of F img = ok win /\
           nth_error (st_images st') i = Some (slice_window img win)) /\
      match n with
      | O => st_window st' = st_window st
      | S _ =>
          exists img win,
            nth_error images0 (view + n - 1) = Some img /\
            window_of F img = ok win /\
            st_window st' = Some win
      end.
Proof.
  intros Hbase Hcams. induction n as [|n IH]; intros view st Hn Hlen Hsame.
  - exists st. split; [reflexivity|]. split; [exact Hlen|].
    split; [reflexivity|]. split; [reflexivity|]. split; [|reflexivity].
    intros i img Hi Himg.
    assert (i < List.length images0)%nat by (apply nth_error_Some; congruence).
    lia.
  - destruct (nth_error images0 view) as [img|] eqn:Himg.
    2:{ apply nth_error_None in Himg. lia. }
    destruct (nth_error cams view) as [cam|] eqn:Hcam.
    2:{ apply nth_error_None in Hcam. lia. }
    destruct (crop_window_ok F (Z.of_nat (shape0 img)) (Z.of_nat (shape1 img))
                Hbase) as [win Hwin].
    fold (window_of F img) in Hwin.
    assert (Himg' : nth_error (st_images st) view = Some img).
    { rewrite Hsame by lia. exact Himg. }
    destruct (crop_view_step F cams st view img win cam Himg' Hwin Hcam)
      as (st1 & Hstep & Himgs1 & Hwin1 & Hnext1 & _ & _).
    destruct (IH (S view) st1) as (st' & Hrun & Hlen' & Hnext' & Hlow & Hhigh & Hlast).
    { lia. }
    { rewrite Himgs1, length_list_set. exact Hlen. }
    { intros i Hi. rewrite Himgs1, nth_error_list_set_other by lia.
      apply Hsame. lia. }
    exists st'. split.
    { simpl. rewrite Hstep. simpl. exact Hrun. }
    split; [exact Hlen'|]. split; [congruence|]. split; [|split].
    + intros i Hi. rewrite Hlow by lia.
      rewrite Himgs1. apply nth_error_list_set_other. lia.
    + intros i img' Hi Himg0.
      destruct (Nat.eq_dec i view) as [-> | Hne].
      * rewrite Himg in Himg0. injection Himg0 as <-.
        exists win. split; [exact Hwin|].
        rewrite Hlow by lia. rewrite Himgs1.
        apply nth_error_list_set_same.
        rewrite Hlen. lia.
      * apply Hhigh; [lia | exact Himg0].
    + destruct n as [|n'].
      * exists img, win. split; [|split].
        -- replace (view + 1 - 1)%nat with view by lia. exact Himg.
        -- exact Hwin.
        -- rewrite Hlast. exact Hwin1.
      * destruct Hlast as (img' & win' & Hi' & Hw' & Hs').
        exists img', win'. split; [|split; assumption].
        replace (view + S (S n') - 1)%nat with (S view + S n' - 1)%nat by lia.
        exact Hi'.
Qed.

(** The loop on the heap, when the cameras are distinct objects: the array
    of view [i] is overwritten with [cx], [cy] moved by that view's crop
    origin, and no other array changes. *)
Lemma crop_loop_heap {A} F cams (images0 : list (image A)) :
  NoDup cams ->
  forall n view st st',
    (forall i, (view <= i)%nat ->
       nth_error (st_images st) i = nth_error images0 i) ->
    for_range (crop_view F cams) view n st = ok st' ->
    (forall i r img win,
       (view <= i < view + n)%nat ->
       nth_error cams i = Some r ->
       nth_error images0 i = Some img ->
       window_of F img = ok win ->
       load (st_heap st') r = crop_cam (load (st_heap st) r) win) /\
    (forall r,
       (forall i, (view <= i < view + n)%nat -> nth_error cams i <> Some r) ->
       load (st_heap st') r = load (st_heap st) r).
Proof.
  intros Hnodup. induction n as [|n IH]; intros view st st' Hsame Hrun.
  - simpl in Hrun. injection Hrun as <-. split.
    + intros i r img win Hi. lia.
    + reflexivity.
  - simpl in Hrun. apply bind_ok_inv in Hrun.
    destruct Hrun as (st1 & Hbody & Hrun).
    assert (Hparts : exists img win cam,
               nth_error (st_images st) view = Some img /\
               window_of F img = ok win /\
               nth_error cams view = Some cam).
    { unfold crop_view in Hbody.
      apply bind_ok_inv in Hbody. destruct Hbody as (img & Hi & Hbody).
      apply bind_ok_inv in Hbody. destruct Hbody as (win & Hw & Hbody).
      apply bind_ok_inv in Hbody. destruct Hbody as (cam & Hc & _).
      apply index_ok_iff in Hi, Hc. exists img, win, cam. auto. }
    destruct Hparts as (img & win & cam & Himg & Hwin & Hcam).
    destruct (crop_view_step F cams st view img win cam Himg Hwin Hcam)
      as (st1' & Hstep & Himgs1 & _ & _ & Hcam1 & Hother1).
    rewrite Hbody in Hstep. injection Hstep as <-.
    destruct (IH (S view) st1 st') as [IHcam IHother].
    { intros i Hi. rewrite Himgs1, nth_error_list_set_other by lia.
      apply Hsame. lia. }
    { exact Hrun. }
    assert (Hdistinct : forall i r, (i <> view)%nat ->
               nth_error cams i = Some r -> r <> cam).
    { intros i r Hi Hr ->. apply Hi.
      apply (proj1 (NoDup_nth_error cams) Hnodup).
      - apply nth_error_Some. congruence.
      - congruence. }
    split.
    + intros i r img' win' Hi Hr Himg0 Hwin'.
      destruct (Nat.eq_dec i view) as [-> | Hne].
      * assert (r = cam) by congruence. subst r.
        assert (img' = img).
        { rewrite Hsame in Himg by lia. congruence. }
        subst img'.
        assert (win' = win)
          by (rewrite Hwin in Hwin'; injection Hwin' as ->; reflexivity).
        subst win'.
        rewrite IHother; [exact Hcam1|].
        intros j Hj Hcj.
        apply (Hdistinct j cam); [lia | exact Hcj | reflexivity].
      * rewrite (IHcam i r img' win'); try assumption; [|lia].
        rewrite Hother1; [reflexivity|].
        apply (Hdistinct i r Hne Hr).
    + intros r Hr.
      rewrite IHother.
      * apply Hother1. intros ->. apply (Hr view); [lia | exact Hcam].
      * intros i Hi. apply Hr. lia.
Qed.

Lemma crop_cam_cells c win a i j :
  get3 (crop_cam c win) 1 0 2 = get3 c 1 0 2 - inject_Z (start_w win) /\
  get3 (crop_cam c win) 1 1 2 = get3 c 1 1 2 - inject_Z (start_h win) /\
  (cropped_cell a i j = false -> get3 (crop_cam c win) a i j = get3 c a i j).
Proof.
  split; [reflexivity|]. split; [reflexivity|].
  unfold cropped_cell. intros H.
  apply orb_false_iff in H. destruct H as [H1 H2].
  unfold crop_cam. rewrite set3_other by exact H2.
  apply set3_other. exact H1.
Qed.

(** The whole function: it succeeds, returns the list [cams] it was given,
    and leaves the window of the last view applied to the depth image. *)
Lemma crop_mvs_input_runs {A B} F h (images : list (image A)) cams
    (depth_image : option (image B)) :
  ~ FLAGS_base_image_size F == 0 ->
  (0 < FLAGS_view_num F)%nat ->
  List.length images = FLAGS_view_num F ->
  List.length cams = FLAGS_view_num F ->
  exists last win st,
    nth_error images (FLAGS_view_num F - 1) = Some last /\
    window_of F last = ok win /\
    for_range (crop_view F cams) 0 (FLAGS_view_num F)
      {| st_images := images; st_heap := h; st_window := None |} = ok st /\
    next (st_heap st) = next h /\
    crop_mvs_input F h images cams depth_image
    = ok (st_images st, cams,
          option_map (fun depth => slice_window depth win) depth_image,
          st_heap st).
Proof.
  intros Hbase Hpos Hlen Hcams.
  destruct (crop_loop_images F cams images Hbase (eq_trans Hcams (eq_sym Hlen))
              (FLAGS_view_num F) 0
              {| st_images := images; st_heap := h; st_window := None |})
    as (st & Hrun & _ & Hnext & _ & _ & Hlast).
  { simpl. symmetry. exact Hlen. }
  { reflexivity. }
  { reflexivity. }
  destruct (FLAGS_view_num F) as [|n] eqn:Hn; [lia|].
  destruct Hlast as (last & win & Hlast & Hwin & Hst).
  exists last, win, st.
  split; [exact Hlast|]. split; [exact Hwin|]. split; [exact Hrun|].
  split; [exact Hnext|].
  unfold crop_mvs_input. rewrite Hn, Hrun. simpl. rewrite Hst.
  destruct depth_image; reflexivity.
Qed.

(** C10 (as the code has it).  With a depth image and at least one view,
    the function crops the depth image at the window computed for the last
    view.  That window is the reference view's whenever the last view has
    the reference view's shape. *)
Theorem crop_depth_uses_last_window {A B} F h (images : list (image A)) cams
    (depth : image B) :
  ~ FLAGS_base_image_size F == 0 ->
  (0 < FLAGS_view_num F)%nat ->
  List.length images = FLAGS_view_num F ->
  List.length cams = FLAGS_view_num F ->
  exists last win images' h',
    nth_error images (FLAGS_view_num F - 1) = Some last /\
    window_of F last = ok win /\
    crop_mvs_input F h images cams (Some depth)
    = ok (images', cams, Some (slice_window depth win), h') /\
    (forall reference,
       nth_error images 0 = Some reference ->
       shape0 reference = shape0 last ->
       shape1 reference = shape1 last ->
       window_of F reference = ok win).
Proof.
  intros Hbase Hpos Hlen Hcams.
  destruct (crop_mvs_input_runs F h images cams (Some depth)
              Hbase Hpos Hlen Hcams)
    as (last & win & st & Hlast & Hwin & _ & _ & Hrun).
  exists last, win, (st_images st), (st_heap st).
  split; [exact Hlast|]. split; [exact Hwin|]. split; [exact Hrun|].
  intros reference _ H0 H1. unfold window_of. rewrite H0, H1. exact Hwin.
Qed.

(** C10 as stated fails in its last part.  Under bounds 4 x 4 a reference
    view of 5 x 5 and a last view of 6 x 6 pixels have one and the same
    window (rows 1..4, columns 1..4) with true division, as have 6 x 6 and
    7 x 7 with floor division, and that window is the one the depth image
    is cut at; and with either division a view in between, of any size,
    changes nothing. *)
Lemma crop_windows_coincide_for_different_shapes :
  window_of (flags_4x4 2) (blank 5 5)
  = ok {| start_h := 1; finish_h := 5; start_w := 1; finish_w := 5 |} /\
  window_of (flags_4x4 2) (blank 6 6)
  = ok {| start_h := 1; finish_h := 5; start_w := 1; finish_w := 5 |} /\
  shape0 (blank 5 5) <> shape0 (blank 6 6) /\
  match crop_mvs_input (flags_4x4 2) (heap_of 2 cam_10_20)
          [blank 5 5; blank 6 6] [0; 1]%nat (Some (blank 9 9)) with
  | inr (_, _, Some depth, _) =>
      shape0 depth = 4%nat /\ shape1 depth = 4%nat /\
      px depth 0 0 = (1, 1)%nat /\ px depth 3 3 = (4, 4)%nat
  | _ => False
  end /\
  window_of (flags_4x4_floor 2) (blank 6 6)
  = window_of (flags_4x4_floor 2) (blank 7 7) /\
  shape0 (blank 6 6) <> shape0 (blank 7 7) /\
  shape0 (blank 9 7) <> shape0 (blank 5 5) /\
  match crop_mvs_input (flags_4x4_floor 3) (heap_of 3 cam_10_20)
          [blank 5 5; blank 9 7; blank 5 5] [0; 1; 2]%nat (Some (blank 9 9))
  with
  | inr (_, _, Some depth, _) =>
      shape0 depth = 4%nat /\ shape1 depth = 4%nat /\
      px depth 0 0 = (0, 0)%nat
  | _ => False
  end.
Proof.
  split; [vm_compute; reflexivity|].
  split; [vm_compute; reflexivity|].
  split; [vm_compute; discriminate|].
  split; [vm_compute; repeat split|].
  split; [vm_compute; reflexivity|].
  split; [vm_compute; discriminate|].
  split; [vm_compute; discriminate|].
  vm_compute. repeat split.
Qed.

(** C10 (as the code has it) at two views of different shapes whose
    windows differ: the depth image is cut at the window of the second. *)
Lemma crop_depth_uses_last_window_witness :
  exists images' h',
    window_of (flags_4x4 2) (blank 9 9)
    = ok {| start_h := 3; finish_h := 7; start_w := 3; finish_w := 7 |} /\
    crop_mvs_input (flags_4x4 2) (heap_of 2 cam_10_20)
      [blank 5 5; blank 9 9] [0; 1]%nat (Some (blank 9 9))
    = ok (images', [0; 1]%nat,
          Some (slice_window (blank 9 9)
                  {| start_h := 3; finish_h := 7;
                     start_w := 3; finish_w := 7 |}),
          h').
Proof.
  destruct (crop_depth_uses_last_window (flags_4x4 2) (heap_of 2 cam_10_20)
              [blank 5 5; blank 9 9] [0; 1]%nat (blank 9 9))
    as (last & win & images' & h' & Hlast & Hwin & Hrun & _).
  - vm_compute. discriminate.
  - simpl. lia.
  - reflexivity.
  - reflexivity.
  - simpl in Hlast. injection Hlast as <-.
    assert (E : window_of (flags_4x4 2) (blank 9 9)
                = ok {| start_h := 3; finish_h := 7;
                        start_w := 3; finish_w := 7 |})
      by (vm_compute; reflexivity).
    rewrite E in Hwin. injection Hwin as <-.
    exists images', h'. split; [exact E | exact Hrun].
Defined.

(** C5 (as the code has it).  [scale_camera] returns a new array object:
    fx, fy, cx, cy are the argument's times the factor, every other entry is
    copied, and no existing object is written.  [crop_mvs_input] makes no
    new object: it returns the cameras it was given, and has overwritten cx
    and cy of each of them, in place, with cx - start_w and cy - start_h of
    that view's window (the cameras being distinct objects). *)
Theorem scale_copies_and_crop_overwrites {A B} F h (images : list (image A))
    cams (depth_image : option (image B)) scale :
  ~ FLAGS_base_image_size F == 0 ->
  (0 < FLAGS_view_num F)%nat ->
  List.length images = FLAGS_view_num F ->
  List.length cams = FLAGS_view_num F ->
  NoDup cams ->
  (forall cam, (cam < next h)%nat ->
     fst (scale_camera h cam scale) = next h /\
     (forall r, (r < next h)%nat ->
        load (snd (scale_camera h cam scale)) r = load h r) /\
     (forall a i j,
        get3 (load (snd (scale_camera h cam scale)) (next h)) a i j =
          if scaled_cell a i j
          then get3 (load h cam) a i j * scale
          else get3 (load h cam) a i j)) /\
  exists images' depth' h',
    crop_mvs_input F h images cams depth_image
    = ok (images', cams, depth', h') /\
    next h' = next h /\
    (forall view cam img win,
       nth_error cams view = Some cam ->
       nth_error images view = Some img ->
       window_of F img = ok win ->
       get3 (load h' cam) 1 0 2
       = get3 (load h cam) 1 0 2 - inject_Z (start_w win) /\
       get3 (load h' cam) 1 1 2
       = get3 (load h cam) 1 1 2 - inject_Z (start_h win) /\
       (forall a i j, cropped_cell a i j = false ->
          get3 (load h' cam) a i j = get3 (load h cam) a i j)) /\
    (forall r, ~ In r cams -> load h' r = load h r).
Proof.
  intros Hbase Hpos Hlen Hcams Hnodup. split.
  - intros cam Hcam.
    destruct (scale_camera_copies h cam scale Hcam) as (H1 & _ & H3 & H4).
    auto.
  - destruct (crop_mvs_input_runs F h images cams depth_image
                Hbase Hpos Hlen Hcams)
      as (last & win & st & _ & _ & Hloop & Hnext & Hrun).
    destruct (crop_loop_heap F cams images Hnodup (FLAGS_view_num F) 0
                {| st_images := images; st_heap := h; st_window := None |} st
                (fun i _ => eq_refl) Hloop)
      as [Hcam Hother].
    cbn [st_heap] in Hcam, Hother.
    eexists. eexists. exists (st_heap st).
    split; [exact Hrun|]. split; [exact Hnext|]. split.
    + intros view cam img win' Hc Hi Hw.
      assert (Hview : (view < FLAGS_view_num F)%nat).
      { rewrite <- Hcams. apply nth_error_Some. congruence. }
      rewrite (Hcam view cam img win'); try assumption; [|lia].
      split; [|split].
      * apply (crop_cam_cells (load h cam) win' 0 0 0).
      * apply (crop_cam_cells (load h cam) win' 0 0 0).
      * intros a i j. apply crop_cam_cells.
    + intros r Hr. apply Hother.
      intros i _ Hi. apply Hr. apply (nth_error_In cams i Hi).
Qed.

(** C5 as stated fails: one camera with principal point (10, 20) and one
    image of 6 x 6 pixels under bounds 4 x 4.  The function returns the
    object 0 it was given, the heap still has one object, and cx, cy of that
    object are now 9 and 19. *)
Lemma crop_mvs_input_mutates_camera :
  get3 (load (heap_of 1 cam_10_20) 0) 1 0 2 == 10 /\
  get3 (load (heap_of 1 cam_10_20) 0) 1 1 2 == 20 /\
  match crop_mvs_input (B := nat * nat) (flags_4x4 1) (heap_of 1 cam_10_20)
          [blank 6 6] [0%nat] None with
  | inr (_, cams', _, h') =>
      cams' = [0%nat] /\ next h' = 1%nat /\
      get3 (load h' 0) 1 0 2 == 9 /\
      get3 (load h' 0) 1 1 2 == 19 /\
      ~ get3 (load h' 0) 1 0 2 == get3 (load (heap_of 1 cam_10_20) 0) 1 0 2
  | inl _ => False
  end.
Proof.
  split; [reflexivity|]. split; [reflexivity|].
  vm_compute. repeat split; discriminate.
Qed.

(** C5 (as the code has it) at that input. *)
Lemma scale_copies_and_crop_overwrites_witness :
  fst (scale_camera (heap_of 1 cam_10_20) 0 (1 # 2)) = 1%nat /\
  load (snd (scale_camera (heap_of 1 cam_10_20) 0 (1 # 2))) 0
  = load (heap_of 1 cam_10_20) 0 /\
  exists images' depth' h',
    crop_mvs_input (B := nat * nat) (flags_4x4 1) (heap_of 1 cam_10_20)
      [blank 6 6] [0%nat] None
    = ok (images', [0%nat], depth', h') /\
    get3 (load h' 0) 1 0 2 = get3 (load (heap_of 1 cam_10_20) 0) 1 0 2 - 1.
Proof.
  destruct (scale_copies_and_crop_overwrites (B := nat * nat) (flags_4x4 1)
              (heap_of 1 cam_10_20) [blank 6 6] [0%nat] None (1 # 2))
    as [Hscale (images' & depth' & h' & Hrun & _ & Hcrop & _)].
  - vm_compute. discriminate.
  - simpl. lia.
  - reflexivity.
  - reflexivity.
  - repeat constructor. intros [].
  - destruct (Hscale 0%nat) as (Hfresh & Hold & _); [simpl; lia|].
    split; [exact Hfresh|]. split; [apply Hold; simpl; lia|].
    exists images', depth', h'. split; [exact Hrun|].
    destruct (Hcrop 0%nat 0%nat (blank 6 6)
                {| start_h := 1; finish_h := 5; start_w := 1; finish_w := 5 |})
      as (Hcx & _); try reflexivity.
    exact Hcx.
Defined.

(** ** The PFM codec: bytes and lines *)










(** ** Chunks and the row flip *)

Lemma chunks_concat {A} (k : nat) (rows : list (list A)) :
  Forall (fun r => List.length r = k) rows ->
  chunks (List.length rows) k (List.concat rows) = rows.
Proof.
  induction 1 as [|r rows Hr _ IH]; simpl.
  - reflexivity.
  - subst k.
    rewrite firstn_app, Nat.sub_diag, firstn_all, firstn_O, app_nil_r.
    rewrite skipn_app, Nat.sub_diag, skipn_all, skipn_O.
    simpl. rewrite IH. reflexivity.
Qed.

Lemma concat_chunks {A} (n k : nat) (l : list A) :
  List.length l = (n * k)%nat -> List.concat (chunks n k l) = l.
Proof.
  revert l. induction n as [|n IH]; intros l Hl; simpl in *.
  - destruct l; [reflexivity | discriminate].
  - rewrite IH.
    + apply firstn_skipn.
    + rewrite length_skipn. lia.
Qed.

Lemma chunks_lengths {A} (n k : nat) (l : list A) :
  List.length l = (n * k)%nat ->
  List.length (chunks n k l) = n /\
  Forall (fun r => List.length r = k) (chunks n k l).
Proof.
  revert l. induction n as [|n IH]; intros l Hl; simpl in *.
  - split; [reflexivity | constructor].
  - destruct (IH (skipn k l)) as [Hn Hall].
    { rewrite length_skipn. lia. }
    split; [rewrite Hn; reflexivity|].
    constructor; [|exact Hall].
    rewrite length_firstn. lia.
Qed.

Lemma length_concat_uniform {A} (k : nat) (rows : list (list A)) :
  Forall (fun r => List.length r = k) rows ->
  List.length (List.concat rows) = (List.length rows * k)%nat.
Proof.
  induction 1 as [|r rows Hr _ IH]; simpl.
  - reflexivity.
  - rewrite length_app, IH, Hr. reflexivity.
Qed.

(** Flipping the rows keeps the number of elements, and twice is the
    identity, on the elements of an array of that shape. *)
Lemma flip_rows_length {A} (shape : list nat) (l : list A) :
  List.length l = size_of shape ->
  List.length (flip_rows shape l) = List.length l.
Proof.
  destruct shape as [|h rest]; intros Hl; [reflexivity|].
  simpl in *. destruct (chunks_lengths h (size_of rest) l Hl) as [Hn Hall].
  rewrite (length_concat_uniform (size_of rest)).
  - rewrite length_rev, Hn. symmetry. exact Hl.
  - apply Forall_rev. exact Hall.
Qed.

Lemma flip_rows_involutive {A} (shape : list nat) (l : list A) :
  List.length l = size_of shape ->
  flip_rows shape (flip_rows shape l) = l.
Proof.
  destruct shape as [|h rest]; intros Hl; [reflexivity|].
  simpl in *. destruct (chunks_lengths h (size_of rest) l Hl) as [Hn Hall].
  assert (Hrev : Forall (fun r => List.length r = size_of rest)
                   (rev (chunks h (size_of rest) l)))
    by (apply Forall_rev; exact Hall).
  pose proof (chunks_concat (size_of rest) _ Hrev) as Hc.
  rewrite length_rev, Hn in Hc. rewrite Hc.
  rewrite rev_involutive. apply concat_chunks. exact Hl.
Qed.

(** The flip looks at the first extent and at the number of elements of a
    row only. *)
Lemma flip_rows_same_rows {A} (h : nat) (rest rest' : list nat) (l : list A) :
  size_of rest = size_of rest' ->
  flip_rows (h :: rest) l = flip_rows (h :: rest') l.
Proof. intros H. simpl. rewrite H. reflexivity. Qed.

(** ** Elements and bytes *)

Lemma fromstring_tostring o (d : list float32) :
  fromstring o (flat_map (encode o) d) = ok d.
Proof.
  induction d as [|x d IH].
  - reflexivity.
  - destruct o; destruct x; simpl in *; rewrite IH; reflexivity.
Qed.

(** ** The header, written and read back *)






Section LoadPfmHeader.

Variable float : string -> option Q.


End LoadPfmHeader.

(** ** Writing, then reading *)

Lemma pfm_image_color image h w :
  pfm_image image h w ->
  exists color,
    pfm_color (shape image) = ok color /\
    size_of (read_shape color h w) = size_of (shape image) /\
    flip_rows (read_shape color h w) (flip_rows (shape image) (data image))
    = data image /\
    (color = true <-> shape image = [h; w; 3%nat]).
Proof.
  intros (_ & _ & Hlen & [Hs | [Hs | Hs]]); rewrite Hs in *.
  - exists false. split; [reflexivity|]. split; [reflexivity|].
    split; [apply flip_rows_involutive; exact Hlen|].
    split; discriminate.
  - exists false. split; [reflexivity|].
    split; [simpl; lia|]. split.
    + rewrite (flip_rows_same_rows h [w] [w; 1%nat]) by (simpl; lia).
      apply flip_rows_involutive. exact Hlen.
    + split; discriminate.
  - exists true. split; [reflexivity|]. split; [reflexivity|].
    split; [apply flip_rows_involutive; exact Hlen|].
    split; reflexivity.
Qed.

(** The bytes of the file, for an image the codec accepts. *)
Lemma write_pfm_file sys image scale h w :
  pfm_image image h w ->
  exists color,
    pfm_color (shape image) = ok color /\
    write_pfm sys image scale
    = ok (((if color then lit "PF" else lit "Pf") ++ [nl]) ++
          (format_d w ++ lit " " ++ format_d h ++ [nl]) ++
          (format_f (written_scale sys image scale) ++ [nl]) ++
          flat_map (encode (memory_order sys image))
            (flip_rows (shape image) (data image))).
Proof.
  intros Himg.
  destruct (pfm_image_color image h w Himg) as (color & Hcolor & _).
  destruct Himg as (Hname & _ & _ & Hshape).
  exists color. split; [exact Hcolor|].
  unfold write_pfm. rewrite Hname. simpl negb. cbv iota.
  assert (Hflip : flipud image
                  = ok {| dtype_name := dtype_name image;
                          dtype_byteorder := dtype_byteorder image;
                          shape := shape image;
                          data := flip_rows (shape image) (data image) |}).
  { unfold flipud. destruct Hshape as [Hs | [Hs | Hs]]; rewrite Hs;
      reflexivity. }
  rewrite Hflip. cbv beta iota delta [bind ok]. cbn [shape].
  rewrite Hcolor. cbv beta iota delta [bind ok].
  assert (Hw : nth 1 (shape image) 0%nat = w)
    by (destruct Hshape as [Hs | [Hs | Hs]]; rewrite Hs; reflexivity).
  assert (Hh : nth 0 (shape image) 0%nat = h)
    by (destruct Hshape as [Hs | [Hs | Hs]]; rewrite Hs; reflexivity).
  rewrite Hw, Hh. unfold tostring, written_scale, writes_little, memory_order.
  cbn [dtype_byteorder data]. rewrite <- !app_assoc. reflexivity.
Qed.



(** ** The printed scale *)

Lemma round_half_even_nonneg (x : Q) : 0 <= x -> (0 <= round_half_even x)%Z.
Proof.
  intros Hx. unfold round_half_even.
  assert (Hf : (0 <= Qfloor x)%Z).
  { change 0%Z with (Qfloor 0). apply Qfloor_resp_le. exact Hx. }
  destruct (x - inject_Z (Qfloor x) ?= 1 # 2); [destruct (Z.even _)| |]; lia.
Qed.







(** ** Elements as OpenCV takes them *)

Lemma as_native_decode (o o' : byte_order) (x0 x1 x2 x3 : ascii) :
  as_native o o' (decode o' x0 x1 x2 x3) = decode o x0 x1 x2 x3.
Proof. destruct o, o'; reflexivity. Qed.







Section PfmClaims.

Variable float : string -> option Q.




End PfmClaims.



(** The file of a 1 x 1 image holding 1.0, written on a little-endian
    platform with the default scale. *)
Lemma write_pfm_one_pixel :
  write_pfm LittleEndian (image_of "=" [1; 1]%nat [one_f32]) 1
  = ok (lit "Pf" ++ [nl] ++ lit "1 1" ++ [nl] ++ lit "-1.000000" ++ [nl] ++
        ["000"; "000"; "128"; "063"]%char).
Proof. vm_compute. reflexivity. Qed.


(** C3 as stated also fails for an image held in the other byte order: on
    a little-endian platform a big-endian 1 x 1 image holding 1.0 comes
    back holding the bytes of 1.0 reversed (4.6e-41). *)
Lemma pfm_round_trip_swaps_foreign_order :
  match write_pfm LittleEndian (image_of ">" [1; 1]%nat [one_f32]) 1 with
  | inr file =>
      match load_pfm float_dec LittleEndian file with
      | inr (Some image') =>
          data image'
          = [{| f0 := "063"; f1 := "128"; f2 := "000"; f3 := "000" |}] /\
          data image' <> [one_f32]
      | _ => False
      end
  | inl _ => False
  end.
Proof. vm_compute. split; [reflexivity | discriminate]. Qed.

(** An image without elements is written, and read back as no array. *)
Lemma pfm_round_trip_empty_image :
  match write_pfm LittleEndian (image_of "=" [0; 0]%nat []) 1 with
  | inr file => load_pfm float_dec LittleEndian file = ok None
  | inl _ => False
  end.
Proof. vm_compute. reflexivity. Qed.




(** The same with the scale 0, written as 0.000000. *)
Lemma pfm_zero_scale_is_read_big_endian :
  match write_pfm LittleEndian (image_of "=" [1; 1]%nat [one_f32]) 0 with
  | inr file =>
      load_pfm_header float_dec file
      = ok (false, 1%nat, 1%nat, BigEndian,
            ["000"; "000"; "128"; "063"]%char)
  | inl _ => False
  end.
Proof. vm_compute. reflexivity. Qed.

(** ** Rounding to float32 *)

Lemma round_half_even_comp (x y : Q) :
  x == y -> round_half_even x = round_half_even y.
Proof.
  intros E. unfold round_half_even.
  rewrite (Qfloor_comp _ _ E).
  assert (E' : (x - inject_Z (Qfloor y) ?= 1 # 2)
               = (y - inject_Z (Qfloor y) ?= 1 # 2))
    by (rewrite E; reflexivity).
  rewrite E'. reflexivity.
Qed.

(** A whole number and less than a half more is rounded to the whole
    number. *)
Lemma round_half_even_near (t : Z) (r : Q) :
  0 <= r -> r < 1 # 2 -> round_half_even (inject_Z t + r) = t.
Proof.
  intros H0 H1. unfold round_half_even.
  assert (Hf : Qfloor (inject_Z t + r) = t).
  { apply Z.le_antisymm.
    - apply Z.lt_succ_r. rewrite Zlt_Qlt.
      apply Qle_lt_trans with (inject_Z t + r); [apply Qfloor_le|].
      rewrite <- Z.add_1_r, inject_Z_plus. change (inject_Z 1) with 1. lra.
    - rewrite <- (Qfloor_Z t) at 1. apply Qfloor_resp_le. lra. }
  rewrite Hf.
  assert (Hlt : (inject_Z t + r - inject_Z t ?= 1 # 2) = Lt).
  { apply (proj1 (Qlt_alt _ _)). lra. }
  rewrite Hlt. reflexivity.
Qed.

Lemma Qgtb_0_comp (x y : Q) : x == y -> Qgtb 0 x = Qgtb 0 y.
Proof.
  intros E. destruct (Qgtb 0 y) eqn:Hy.
  - apply Qgtb_true. apply Qgtb_true in Hy. rewrite E. exact Hy.
  - apply Qgtb_false. apply Qgtb_false in Hy. rewrite E. exact Hy.
Qed.

Lemma round32_comp (x y : Q) : x == y -> round32 x = round32 y.
Proof.
  intros E. unfold round32.
  assert (Ey : Qabs x * inject_Z (2 ^ 149) == Qabs y * inject_Z (2 ^ 149))
    by (rewrite E; reflexivity).
  assert (Es : ulp_exp (Qabs x * inject_Z (2 ^ 149))
               = ulp_exp (Qabs y * inject_Z (2 ^ 149))).
  { unfold ulp_exp. rewrite (Qfloor_comp _ _ Ey). reflexivity. }
  rewrite Es, (Qgtb_0_comp x y E).
  rewrite (round_half_even_comp
             (Qabs x * inject_Z (2 ^ 149) /
              inject_Z (2 ^ ulp_exp (Qabs y * inject_Z (2 ^ 149))))
             (Qabs y * inject_Z (2 ^ 149) /
              inject_Z (2 ^ ulp_exp (Qabs y * inject_Z (2 ^ 149)))))
    by (rewrite Ey; reflexivity).
  reflexivity.
Qed.

Lemma pow2_pos (e : Z) : (0 <= e)%Z -> (0 < 2 ^ e)%Z.
Proof. intros H. apply Z.pow_pos_nonneg; lia. Qed.

Lemma inject_Z_pow2_nonzero (e : Z) : (0 <= e)%Z -> ~ inject_Z (2 ^ e) == 0.
Proof.
  intros H E. pose proof (pow2_pos e H).
  unfold Qeq in E. simpl in E. lia.
Qed.

(** The value [round32] gives a number that is not negative, once the last
    place is known. *)
Lemma round32_at (x : Q) (e : Z) (t : Z) (r : Q) :
  0 <= x ->
  (23 <= e)%Z ->
  Z.log2 (Qfloor (x * inject_Z (2 ^ 149))) = e ->
  x * inject_Z (2 ^ 149) / inject_Z (2 ^ (e - 23)) == inject_Z t + r ->
  0 <= r -> r < 1 # 2 ->
  round32 x == inject_Z (t * 2 ^ (e - 23)) / inject_Z (2 ^ 149).
Proof.
  intros Hx He Hlog Hq Hr0 Hr1. unfold round32.
  assert (Ey : Qabs x * inject_Z (2 ^ 149) == x * inject_Z (2 ^ 149))
    by (rewrite (Qabs_pos x Hx); reflexivity).
  assert (Hs : ulp_exp (Qabs x * inject_Z (2 ^ 149)) = (e - 23)%Z)
    by (unfold ulp_exp; rewrite (Qfloor_comp _ _ Ey), Hlog; lia).
  rewrite Hs.
  assert (Hm : round_half_even
                 (Qabs x * inject_Z (2 ^ 149) / inject_Z (2 ^ (e - 23))) = t).
  { rewrite (round_half_even_comp _ (inject_Z t + r))
      by (rewrite Ey; exact Hq).
    apply round_half_even_near; assumption. }
  rewrite Hm.
  assert (Hsign : Qgtb 0 x = false) by (apply Qgtb_false; exact Hx).
  rewrite Hsign. apply Qmult_1_l.
Qed.

(** Whole numbers up to 2^24 are float32 numbers. *)
Lemma round32_whole (z : Z) :
  (0 <= z <= 2 ^ 24)%Z -> round32 (inject_Z z) == inject_Z z.
Proof.
  intros Hz.
  destruct (Z.eq_dec z 0) as [-> | Hz0]; [vm_compute; reflexivity|].
  destruct (Z.eq_dec z (2 ^ 24)) as [-> | Hz24]; [vm_compute; reflexivity|].
  assert (Hpos : (0 < z)%Z) by lia.
  set (e := Z.log2 z).
  assert (He : (0 <= e < 24)%Z).
  { split; [apply Z.log2_nonneg|]. apply Z.log2_lt_pow2; lia. }
  assert (Hx : inject_Z z * inject_Z (2 ^ 149) == inject_Z (z * 2 ^ 149))
    by (rewrite inject_Z_mult; reflexivity).
  assert (Hlog : Z.log2 (Qfloor (inject_Z z * inject_Z (2 ^ 149)))
                 = (e + 149)%Z).
  { rewrite (Qfloor_comp _ _ Hx), Qfloor_Z.
    rewrite Z.log2_mul_pow2 by lia. unfold e. lia. }
  assert (Hsplit : (z * 2 ^ 149 = z * 2 ^ (23 - e) * 2 ^ (e + 149 - 23))%Z).
  { rewrite <- Z.mul_assoc, <- Z.pow_add_r by lia. do 2 f_equal. lia. }
  rewrite (round32_at (inject_Z z) (e + 149) (z * 2 ^ (23 - e)) 0).
  - rewrite <- Hsplit, <- Hx. field. apply inject_Z_pow2_nonzero. lia.
  - change 0 with (inject_Z 0). rewrite <- Zle_Qle. lia.
  - lia.
  - exact Hlog.
  - rewrite Hx, Hsplit, inject_Z_mult. field.
    apply inject_Z_pow2_nonzero. lia.
  - lra.
  - reflexivity.
Qed.

(** The float32 nearest to 1e-6, in units of 2^-149. *)
Lemma round32_epsilon :
  round32 (1 # 1000000)
  == inject_Z (8796093 * 2 ^ 106) / inject_Z (2 ^ 149).
Proof. vm_compute. reflexivity. Qed.

(** From 32 on, adding 1e-6 to a whole number changes nothing: the 1e-6 is
    less than half of the last place. *)
Lemma round32_absorbs_epsilon (n : Z) :
  (32 <= n < 2 ^ 24)%Z ->
  round32 (inject_Z n + round32 (1 # 1000000)) == inject_Z n.
Proof.
  intros Hn.
  set (C := (8796093 * 2 ^ 106)%Z).
  set (e := Z.log2 n).
  assert (He : (5 <= e < 24)%Z).
  { split.
    - apply Z.log2_le_pow2; [lia|]. change (2 ^ 5)%Z with 32%Z. lia.
    - apply Z.log2_lt_pow2; lia. }
  destruct (Z.log2_spec n ltac:(lia)) as [Hlo Hhi]. fold e in Hlo, Hhi.
  rewrite (round32_comp _ (inject_Z n + inject_Z C / inject_Z (2 ^ 149)))
    by (rewrite round32_epsilon; reflexivity).
  assert (HP : ~ inject_Z (2 ^ 149) == 0)
    by (apply inject_Z_pow2_nonzero; lia).
  assert (HS : ~ inject_Z (2 ^ (e + 149 - 23)) == 0)
    by (apply inject_Z_pow2_nonzero; lia).
  assert (Hunits : (inject_Z n + inject_Z C / inject_Z (2 ^ 149))
                   * inject_Z (2 ^ 149) == inject_Z (n * 2 ^ 149 + C)).
  { rewrite inject_Z_plus, inject_Z_mult. field. exact HP. }
  assert (Hsplit : (2 ^ 149 = 2 ^ (23 - e) * 2 ^ (e + 149 - 23))%Z).
  { rewrite <- Z.pow_add_r by lia. f_equal. lia. }
  assert (HC : (0 <= C < 2 ^ 149)%Z) by (unfold C; split; vm_compute; congruence).
  assert (HC2 : (2 * C < 2 ^ (e + 149 - 23))%Z).
  { apply Z.lt_le_trans with (2 ^ 131)%Z; [vm_compute; reflexivity|].
    apply Z.pow_le_mono_r; lia. }
  assert (HSpos : (0 < 2 ^ (e + 149 - 23))%Z) by (apply pow2_pos; lia).
  rewrite (round32_at _ (e + 149) (n * 2 ^ (23 - e))
             (inject_Z C / inject_Z (2 ^ (e + 149 - 23)))).
  - rewrite <- Z.mul_assoc, <- Hsplit, inject_Z_mult. field. exact HP.
  - apply Qle_trans with (inject_Z n + 0).
    + rewrite Qplus_0_r. change 0 with (inject_Z 0). rewrite <- Zle_Qle. lia.
    + apply Qplus_le_r. apply Qle_shift_div_l.
      * change 0 with (inject_Z 0). rewrite <- Zlt_Qlt. apply pow2_pos. lia.
      * rewrite Qmult_0_l. change 0 with (inject_Z 0).
        rewrite <- Zle_Qle. lia.
  - lia.
  - rewrite (Qfloor_comp _ _ Hunits), Qfloor_Z.
    apply Z.log2_unique; [lia|].
    rewrite Z.pow_succ_r in Hhi by lia.
    rewrite Z.pow_succ_r, Z.pow_add_r by lia.
    assert (HPpos : (0 < 2 ^ 149)%Z) by reflexivity.
    clear Hsplit Hunits HP HS HC2 HSpos. clearbody C.
    revert HC HPpos. generalize (2 ^ 149)%Z. intros P HC HPpos.
    revert Hlo Hhi. generalize (2 ^ e)%Z. intros a Hlo Hhi. nia.
  - rewrite Hunits, inject_Z_plus, inject_Z_mult.
    rewrite Hsplit at 1. rewrite !inject_Z_mult. field.
    exact HS.
  - apply Qle_shift_div_l.
    + change 0 with (inject_Z 0). rewrite <- Zlt_Qlt. exact HSpos.
    + rewrite Qmult_0_l. change 0 with (inject_Z 0). rewrite <- Zle_Qle. lia.
  - apply Qlt_shift_div_r.
    + change 0 with (inject_Z 0). rewrite <- Zlt_Qlt. exact HSpos.
    + unfold Qlt. cbn [Qnum Qden inject_Z Qmult]. lia.
Qed.

(** ** Sums of whole numbers in float32 *)

Lemma sum_nonneg (zs : list Z) :
  Forall (fun z => (0 <= z)%Z) zs -> (0 <= fold_right Z.add 0%Z zs)%Z.
Proof. induction 1; simpl; lia. Qed.

Lemma whole_nonneg (l : list Q) (zs : list Z) :
  Forall2 whole l zs -> (0 <= fold_right Z.add 0%Z zs)%Z.
Proof.
  intros H. apply sum_nonneg.
  induction H as [| ? ? ? ? [_ ?] _ IH]; constructor; assumption.
Qed.

(** A sum of whole numbers that stays within 2^24 is exact. *)
Lemma reduce_sum_r_whole (l : list Q) (zs : list Z) :
  Forall2 whole l zs ->
  (fold_right Z.add 0%Z zs <= 2 ^ 24)%Z ->
  reduce_sum_r round32 l == inject_Z (fold_right Z.add 0%Z zs).
Proof.
  induction 1 as [| x z l zs [Hx Hz] Hrest IH]; intros Hsum.
  - reflexivity.
  - cbn [fold_right] in Hsum.
    pose proof (whole_nonneg l zs Hrest) as Hs.
    specialize (IH ltac:(lia)).
    unfold reduce_sum_r in *. cbn [fold_right].
    rewrite (round32_comp _ (inject_Z (z + fold_right Z.add 0%Z zs)))
      by (rewrite IH, Hx, inject_Z_plus; reflexivity).
    apply round32_whole. lia.
Qed.

Lemma count_row_nonneg (row : list Q) : (0 <= count_row row)%Z.
Proof.
  unfold count_row, valid_row. apply sum_nonneg.
  induction row as [|t row IH]; constructor; [|exact IH].
  destruct (Qeq_bool t 0); lia.
Qed.

Lemma count_valid_nonneg (y_true : tensor) : (0 <= count_valid y_true)%Z.
Proof.
  unfold count_valid. apply sum_nonneg.
  induction y_true as [|row y IH]; constructor; [|exact IH].
  apply count_row_nonneg.
Qed.

(** A tensor whose rows are whole numbers, row by row those of the measured
    pixels of [y_true], sums to the number of measured pixels. *)
Lemma reduce_sum_all_r_whole (T y_true : tensor) :
  Forall2 (fun row row_t => Forall2 whole row (valid_row row_t)) T y_true ->
  (count_valid y_true <= 2 ^ 24)%Z ->
  reduce_sum_all_r round32 T == inject_Z (count_valid y_true).
Proof.
  intros HT Hn. unfold reduce_sum_all_r, count_valid.
  apply reduce_sum_r_whole; [|exact Hn].
  induction HT as [| row row_t T y Hrow _ IH].
  - constructor.
  - unfold count_valid in Hn. cbn [map fold_right] in Hn.
    pose proof (count_row_nonneg row_t) as H0.
    pose proof (count_valid_nonneg y) as H1. unfold count_valid in H1.
    cbn [map]. constructor.
    + split; [|exact H0].
      apply reduce_sum_r_whole; [exact Hrow|]. fold (count_row row_t). lia.
    + apply IH. unfold count_valid. lia.
Qed.

Lemma mask_row_whole (row : list Q) :
  Forall2 whole (map mask_px row) (valid_row row).
Proof.
  induction row as [|t row IH]; [constructor|].
  cbn [map valid_row]. constructor; [|exact IH].
  unfold mask_px. destruct (Qeq_bool t 0); split; try reflexivity; lia.
Qed.

Lemma mask_whole (y_true : tensor) :
  Forall2 (fun row row_t => Forall2 whole row (valid_row row_t))
    (mask_of y_true) y_true.
Proof.
  induction y_true as [|row y IH]; [constructor|].
  cbn [mask_of map]. constructor; [apply mask_row_whole | exact IH].
Qed.

(** ** Exact predictions in float32 *)

Lemma round32_zero : Qabs (round32 0) == 0 /\ round32 0 == 0.
Proof. split; vm_compute; reflexivity. Qed.

(** A pixel predicted exactly counts as a hit if it is measured, and as
    nothing if it is not. *)
Lemma hit_px (t p iv k : Q) :
  (~ t == 0 -> p == t) -> 0 < iv -> 0 <= k ->
  whole (round32 (mask_px t *
                  less_equal_div_r round32 (Qabs (round32 (t - p))) iv k))
    (if Qeq_bool t 0 then 0%Z else 1%Z).
Proof.
  intros Hp Hiv Hk. unfold mask_px.
  destruct (Qeq_bool t 0) eqn:E.
  - split; [|lia].
    rewrite (round32_comp _ (inject_Z 0)) by (unfold inject_Z; ring).
    apply round32_whole. lia.
  - split; [|lia].
    assert (Ht : ~ t == 0).
    { intros H. apply Qeq_bool_iff in H. congruence. }
    assert (Hd : round32 (t - p) = round32 0).
    { apply round32_comp. rewrite (Hp Ht). ring. }
    rewrite Hd. unfold less_equal_div_r.
    assert (Hiv0 : Qeq_bool iv 0 = false).
    { destruct (Qeq_bool iv 0) eqn:E0; [|reflexivity].
      apply Qeq_bool_iff in E0. rewrite E0 in Hiv.
      exfalso. apply (Qlt_irrefl 0). exact Hiv. }
    rewrite Hiv0.
    assert (Hq : round32 (Qabs (round32 0) / iv) = round32 0).
    { apply round32_comp. rewrite (proj1 round32_zero).
      unfold Qdiv. ring. }
    rewrite Hq.
    assert (Hle : Qle_bool (round32 0) k = true).
    { apply Qle_bool_iff. rewrite (proj2 round32_zero). exact Hk. }
    rewrite Hle.
    rewrite (round32_comp _ (inject_Z 1)) by (unfold inject_Z; ring).
    apply round32_whole. lia.
Qed.

Lemma hit_row (row_t row_p : list Q) (iv k : Q) :
  Forall2 (fun t p => ~ t == 0 -> p == t) row_t row_p ->
  0 < iv -> 0 <= k ->
  Forall2 whole
    (zip_with (fun m l => round32 (m * l)) (map mask_px row_t)
       (map (fun d => less_equal_div_r round32 d iv k)
          (zip_with (fun t p => Qabs (round32 (t - p))) row_t row_p)))
    (valid_row row_t).
Proof.
  intros Hrow Hiv Hk.
  induction Hrow as [| t p row_t row_p Htp _ IH].
  - constructor.
  - unfold zip_with in *. cbn [map combine fst snd valid_row].
    constructor; [apply hit_px; assumption | exact IH].
Qed.

Lemma hit_image (k : Q) (y_true : tensor) :
  forall y_pred interval,
    exact_on_valid y_true y_pred ->
    List.length interval = List.length y_true ->
    Forall (fun iv => 0 < iv) interval ->
    0 <= k ->
    Forall2 (fun row row_t => Forall2 whole row (valid_row row_t))
      (tmap2 (fun m l => round32 (m * l)) (mask_of y_true)
         (zip_with
            (fun iv row => map (fun d => less_equal_div_r round32 d iv k) row)
            interval
            (tmap2 (fun t p => Qabs (round32 (t - p))) y_true y_pred)))
      y_true.
Proof.
  induction y_true as [| row_t y_true IH];
    intros y_pred interval Hex Hlen Hiv Hk.
  - constructor.
  - inversion Hex as [| ? row_p ? y_pred' Hrow Hrest]; subst.
    destruct interval as [| iv interval]; [discriminate|].
    inversion Hiv as [| ? ? Hpos Hiv']; subst.
    injection Hlen as Hlen.
    specialize (IH y_pred' interval Hrest Hlen Hiv' Hk).
    unfold tmap2, zip_with, mask_of in *. cbn [map combine fst snd].
    constructor; [|exact IH].
    pose proof (hit_row row_t row_p iv k Hrow Hpos Hk) as Hr.
    unfold zip_with in Hr. exact Hr.
Qed.

(** The accuracy of an exact prediction in float32, for [n] measured
    pixels. *)
Lemma less_percentage_r_exact (k : Q) (y_true y_pred : tensor)
    (interval : list Q) :
  exact_on_valid y_true y_pred ->
  List.length interval = List.length y_true ->
  Forall (fun iv => 0 < iv) interval ->
  0 <= k ->
  (count_valid y_true <= 2 ^ 24)%Z ->
  less_percentage_r round32 k y_true y_pred interval
  = round32 (inject_Z (count_valid y_true) /
             round32 (inject_Z (count_valid y_true) + round32 (1 # 1000000))).
Proof.
  intros Hex Hlen Hiv Hk Hn. unfold less_percentage_r.
  pose proof (reduce_sum_all_r_whole _ y_true
                (hit_image k y_true y_pred interval Hex Hlen Hiv Hk) Hn) as Hh.
  pose proof (reduce_sum_all_r_whole _ y_true (mask_whole y_true) Hn) as Hm.
  assert (Hd : round32 (Qabs (reduce_sum_all_r round32 (mask_of y_true)) +
                        round32 (1 # 1000000))
               = round32 (inject_Z (count_valid y_true) +
                          round32 (1 # 1000000))).
  { apply round32_comp. rewrite Hm.
    rewrite Qabs_pos; [reflexivity|].
    change 0 with (inject_Z 0). rewrite <- Zle_Qle.
    apply count_valid_nonneg. }
  rewrite Hd. apply round32_comp. rewrite Hh. reflexivity.
Qed.

(** From 1 to 31 measured pixels the quotient is rounded below 1. *)
Lemma less_than_one_below_32 :
  forallb
    (fun n => Qgtb 1 (round32 (inject_Z n /
                               round32 (inject_Z n + round32 (1 # 1000000)))))
    (map Z.of_nat (seq 1 31)) = true.
Proof. vm_compute. reflexivity. Qed.

(** C6 (as the code has it, in float32).  When the prediction equals the
    ground truth at every measured pixel and every interval is positive,
    both accuracies are the float32 quotient of the number n of measured
    pixels by the float32 sum n + 1e-6.  From 32 measured pixels on (and
    below 2^24) that sum is n itself and both accuracies are exactly 1;
    with 1 to 31 measured pixels the sum is above n and both accuracies are
    below 1. *)
Theorem accuracy_of_exact_prediction y_true y_pred interval :
  exact_on_valid y_true y_pred ->
  List.length interval = List.length y_true ->
  Forall (fun iv => 0 < iv) interval ->
  (1 <= count_valid y_true < 2 ^ 24)%Z ->
  let n := inject_Z (count_valid y_true) in
  less_one_percentage32 y_true y_pred interval
  = round32 (n / round32 (n + round32 (1 # 1000000))) /\
  less_three_percentage32 y_true y_pred interval
  = round32 (n / round32 (n + round32 (1 # 1000000))) /\
  ((32 <= count_valid y_true)%Z ->
   less_one_percentage32 y_true y_pred interval == 1 /\
   less_three_percentage32 y_true y_pred interval == 1) /\
  ((count_valid y_true < 32)%Z ->
   less_one_percentage32 y_true y_pred interval < 1 /\
   less_three_percentage32 y_true y_pred interval < 1).
Proof.
  intros Hex Hlen Hiv Hn n.
  assert (H1 : less_one_percentage32 y_true y_pred interval
               = round32 (n / round32 (n + round32 (1 # 1000000)))).
  { apply less_percentage_r_exact; try assumption; [lra | lia]. }
  assert (H3 : less_three_percentage32 y_true y_pred interval
               = round32 (n / round32 (n + round32 (1 # 1000000)))).
  { apply less_percentage_r_exact; try assumption; [lra | lia]. }
  split; [exact H1|]. split; [exact H3|]. rewrite H1, H3. split.
  - intros H32.
    assert (E : round32 (n / round32 (n + round32 (1 # 1000000))) == 1).
    { rewrite (round32_comp _ (inject_Z 1)).
      - apply round32_whole. lia.
      - unfold n. rewrite round32_absorbs_epsilon by lia.
        change (inject_Z 1) with 1. field.
        intros E. unfold Qeq in E. simpl in E. lia. }
    split; exact E.
  - intros H32.
    assert (E : round32 (n / round32 (n + round32 (1 # 1000000))) < 1).
    { pose proof less_than_one_below_32 as Hall.
      rewrite forallb_forall in Hall.
      apply Qgtb_true. apply (Hall (count_valid y_true)).
      replace (count_valid y_true) with (Z.of_nat (Z.to_nat (count_valid y_true)))
        by lia.
      apply in_map. apply in_seq. lia. }
    split; exact E.
Qed.

(** C6 as stated fails: two measured pixels predicted exactly, interval 1.
    In float32 the sum 2 + 1e-6 is 2 + 2^-20 and both accuracies are
    1 - 2^-21. *)
Lemma accuracy_of_exact_prediction_not_one :
  exact_on_valid two_pixels two_pixels /\
  count_valid two_pixels = 2%Z /\
  less_one_percentage32 two_pixels two_pixels [1] == 2097151 # 2097152 /\
  less_three_percentage32 two_pixels two_pixels [1] == 2097151 # 2097152 /\
  ~ less_one_percentage32 two_pixels two_pixels [1] == 1 /\
  ~ less_three_percentage32 two_pixels two_pixels [1] == 1.
Proof.
  split; [|split; [|split; [|split; [|split]]]].
  - repeat constructor.
  - reflexivity.
  - vm_compute. reflexivity.
  - vm_compute. reflexivity.
  - vm_compute. discriminate.
  - vm_compute. discriminate.
Qed.

(** C6 (as the code has it) at 32 measured pixels predicted exactly: both
    accuracies are 1. *)
Lemma accuracy_of_exact_prediction_witness :
  less_one_percentage32 thirty_two_pixels thirty_two_pixels [1] == 1 /\
  less_three_percentage32 thirty_two_pixels thirty_two_pixels [1] == 1.
Proof.
  destruct (accuracy_of_exact_prediction thirty_two_pixels thirty_two_pixels
              [1]) as (_ & _ & H32 & _).
  - constructor; [|constructor].
    unfold thirty_two_pixels. cbn [repeat].
    repeat (constructor; [intros _; reflexivity|]). constructor.
  - reflexivity.
  - constructor; [reflexivity | constructor].
  - split; vm_compute; congruence.
  - apply H32. vm_compute. congruence.
Defined.

(** * Further properties *)

(** ** More on reading calibration text *)

Section LoadCamMore.

Variable float : string -> option Q.
Variable FLAGS_max_d : Q.

Ltac bind_inv H :=
  let x := fresh "x" in
  let Hx := fresh "Hx" in
  apply bind_ok_inv in H; destruct H as (x & Hx & H).

(** A reading loop that returns has found a number at each of its tokens. *)
Lemma read_cells_numeric words a n off cells :
  forall cam cam',
    read_cells float words a n off cells cam = ok cam' ->
    forall i j, In (i, j) cells -> numeric_at float words (n * i + j + off).
Proof.
  induction cells as [| [i0 j0] rest IH]; intros cam cam' Hrun i j Hin.
  - destruct Hin.
  - simpl in Hrun. bind_inv Hrun. bind_inv Hrun.
    destruct Hin as [Heq | Hin].
    + injection Heq as <- <-.
      unfold index in Hx. unfold to_float in Hx0.
      destruct (nth_error words (n * i0 + j0 + off)) as [w|] eqn:Hw;
        [|discriminate].
      injection Hx as <-.
      destruct (float w) as [v|] eqn:Hv; [|discriminate].
      exists w, v. auto.
    + eapply IH; [exact Hrun | exact Hin].
Qed.

(** Whatever the tail, the last assignments of [load_cam] write the depth
    row only. *)
Lemma load_cam_tail_frame text interval_scale max_d c1 c2 cam :
  read_cells float (split text) 0 4 1 (range2 4) zeros3 = ok c1 ->
  read_cells float (split text) 1 3 18 (range2 3) c1 = ok c2 ->
  load_cam float FLAGS_max_d text interval_scale max_d = ok cam ->
  forall a i j, (a <> 1 \/ i <> 3)%nat -> get3 cam a i j = get3 c2 a i j.
Proof.
  intros H1 H2 Hload a i j Hai.
  assert (Hcell : forall k, same_cell 1 3 k a i j = false).
  { intros k. unfold same_cell.
    destruct (Nat.eqb 1 a) eqn:Ea; [|reflexivity].
    destruct (Nat.eqb 3 i) eqn:Ei; [|reflexivity].
    apply Nat.eqb_eq in Ea, Ei. lia. }
  unfold load_cam in Hload. rewrite H1 in Hload.
  cbv beta iota delta [bind ok] in Hload. rewrite H2 in Hload.
  cbv beta iota delta [bind ok] in Hload.
  destruct (List.length (split text) =? 29)%nat;
    [|destruct (List.length (split text) =? 30)%nat;
      [|destruct (List.length (split text) =? 31)%nat]];
    repeat match type of Hload with
           | match ?m with inl _ => _ | inr _ => _ end = _ =>
               destruct m; [discriminate|]
           end;
    injection Hload as <-; destruct max_d;
    rewrite !set3_other by apply Hcell; reflexivity.
Qed.

(** X1.  Whenever [load_cam] returns a camera, the text has at least 27 tokens,
    tokens 1..16 and 18..26 are numbers, the extrinsic and intrinsic blocks
    hold their values, and the fourth column of the intrinsic rows is 0. *)
Theorem load_cam_returns_blocks text interval_scale max_d cam :
  load_cam float FLAGS_max_d text interval_scale max_d = ok cam ->
  (27 <= List.length (split text))%nat /\
  (forall k, (1 <= k <= 16 \/ 18 <= k <= 26)%nat ->
     numeric_at float (split text) k) /\
  (forall i j, (i < 4)%nat -> (j < 4)%nat ->
     get3 cam 0 i j = token_value float (split text) (4 * i + j + 1)) /\
  (forall i j, (i < 3)%nat -> (j < 3)%nat ->
     get3 cam 1 i j = token_value float (split text) (3 * i + j + 18)) /\
  (forall i, (i < 3)%nat -> get3 cam 1 i 3 = 0).
Proof.
  intros Hload. pose proof Hload as Hload'.
  unfold load_cam in Hload'.
  bind_inv Hload'. bind_inv Hload'. clear Hload'.
  rename x into c1, x0 into c2, Hx into H1, Hx0 into H2.
  pose proof (read_cells_numeric _ _ _ _ _ _ _ H1) as Hn1.
  pose proof (read_cells_numeric _ _ _ _ _ _ _ H2) as Hn2.
  assert (Hnum : forall k, (1 <= k <= 16 \/ 18 <= k <= 26)%nat ->
                           numeric_at float (split text) k).
  { intros k [Hk | Hk].
    - replace k with (4 * ((k - 1) / 4) + (k - 1) mod 4 + 1)%nat
        by (pose proof (Nat.div_mod_eq (k - 1) 4); lia).
      apply Hn1. unfold range2. rewrite in_prod_iff, !in_seq.
      pose proof (Nat.mod_upper_bound (k - 1) 4).
      assert ((k - 1) / 4 < 4)%nat by (apply Nat.Div0.div_lt_upper_bound; lia).
      lia.
    - replace k with (3 * ((k - 18) / 3) + (k - 18) mod 3 + 18)%nat
        by (pose proof (Nat.div_mod_eq (k - 18) 3); lia).
      apply Hn2. unfold range2. rewrite in_prod_iff, !in_seq.
      pose proof (Nat.mod_upper_bound (k - 18) 3).
      assert ((k - 18) / 3 < 3)%nat by (apply Nat.Div0.div_lt_upper_bound; lia).
      lia. }
  destruct (read_cells_ok float (split text) 0 4 1 (range2 4) zeros3)
    as (c1' & Hr1 & Hc1).
  { intros i j Hin. apply in_range2 in Hin. apply Hnum. lia. }
  rewrite H1 in Hr1. injection Hr1 as <-.
  destruct (read_cells_ok float (split text) 1 3 18 (range2 3) c1)
    as (c2' & Hr2 & Hc2).
  { intros i j Hin. apply in_range2 in Hin. apply Hnum. lia. }
  rewrite H2 in Hr2. injection Hr2 as <-.
  pose proof (load_cam_tail_frame text interval_scale max_d c1 c2 cam H1 H2 Hload)
    as Hframe.
  split; [|split; [exact Hnum|split; [|split]]].
  - destruct (Hnum 26%nat) as (w & v & Hw & _); [lia|].
    assert (26 < List.length (split text))%nat
      by (apply nth_error_Some; congruence).
    lia.
  - intros i j Hi Hj. rewrite Hframe by lia.
    rewrite Hc2, Hc1, (in_cells_range2 4 i j) by assumption. reflexivity.
  - intros i j Hi Hj. rewrite Hframe by lia.
    rewrite Hc2, (in_cells_range2 3 i j) by assumption. reflexivity.
  - intros i Hi. rewrite Hframe by lia. rewrite Hc2.
    assert (E : in_cells (range2 3) i 3 = false).
    { unfold in_cells. apply not_true_is_false. intros H.
      apply existsb_exists in H. destruct H as ([i0 j0] & Hin & Heq).
      apply in_range2 in Hin. simpl in Heq.
      apply andb_true_iff in Heq. destruct Heq as [_ Heq].
      apply Nat.eqb_eq in Heq. lia. }
    rewrite E, andb_false_r. rewrite Hc1. reflexivity.
Qed.

(** X2.  With 31 tokens all four depth values are read from the text: start,
    interval (times [interval_scale]), count and end are tokens 27 to 30,
    and the supplied count plays no part. *)
Theorem load_cam_explicit_end text interval_scale max_d cam :
  List.length (split text) = 31%nat ->
  load_cam float FLAGS_max_d text interval_scale max_d = ok cam ->
  get3 cam 1 3 0 = token_value float (split text) 27 /\
  get3 cam 1 3 1 = token_value float (split text) 28 * interval_scale /\
  get3 cam 1 3 2 = token_value float (split text) 29 /\
  get3 cam 1 3 3 = token_value float (split text) 30.
Proof.
  intros Hlen Hload. unfold load_cam in Hload.
  bind_inv Hload. bind_inv Hload.
  rewrite Hlen in Hload. simpl in Hload.
  do 8 bind_inv Hload.
  repeat match goal with
         | H1 : index _ ?k = ok ?w, H2 : to_float _ ?w = ok ?v |- _ =>
             rewrite (index_to_float_value float _ _ _ _ H1 H2) in Hload;
             clear H2
         end.
  injection Hload as <-. repeat split; reflexivity.
Qed.

End LoadCamMore.

(** [load_cam_returns_blocks] at a text of 30 tokens. *)
Lemma load_cam_returns_blocks_witness :
  exists cam,
    load_cam float_dec 200 cam_text_30 1 None = ok cam /\
    get3 cam 0 0 0 = token_value float_dec (split cam_text_30) 1 /\
    get3 cam 1 2 3 = 0.
Proof.
  destruct (load_cam float_dec 200 cam_text_30 1 None) as [e | cam] eqn:Hload.
  - vm_compute in Hload. discriminate.
  - exists cam. split; [reflexivity|].
    destruct (load_cam_returns_blocks float_dec 200 cam_text_30 1 None cam Hload)
      as (_ & _ & Hext & _ & Hcol).
    split; [apply (Hext 0%nat 0%nat); lia | apply Hcol; lia].
Defined.

(** A text of 31 tokens. *)
Lemma load_cam_explicit_end_witness :
  exists cam,
    load_cam float_dec 200 (cam_text_30 ++ " 999") 1 (Some 7) = ok cam /\
    get3 cam 1 3 3
    = token_value float_dec (split (cam_text_30 ++ " 999")) 30.
Proof.
  destruct (load_cam float_dec 200 (cam_text_30 ++ " 999") 1 (Some 7))
    as [e | cam] eqn:Hload.
  - vm_compute in Hload. discriminate.
  - exists cam. split; [reflexivity|].
    apply (load_cam_explicit_end float_dec 200 (cam_text_30 ++ " 999") 1
             (Some 7) cam); [vm_compute; reflexivity | exact Hload].
Defined.

(** ** More on the threshold accuracies *)

Lemma less_equal_div_01 d iv k :
  0 <= less_equal_div d iv k /\ less_equal_div d iv k <= 1.
Proof.
  unfold less_equal_div.
  destruct (Qeq_bool iv 0); [split; lra|].
  destruct (Qle_bool (d / iv) k); split; lra.
Qed.

Lemma less_equal_div_mono d iv k k' :
  k <= k' -> less_equal_div d iv k <= less_equal_div d iv k'.
Proof.
  intros Hk. unfold less_equal_div.
  destruct (Qeq_bool iv 0); [lra|].
  destruct (Qle_bool (d / iv) k) eqn:E.
  - apply Qle_bool_iff in E.
    assert (E' : Qle_bool (d / iv) k' = true)
      by (apply Qle_bool_iff; lra).
    rewrite E'. lra.
  - destruct (Qle_bool (d / iv) k'); lra.
Qed.

Lemma mask_px_01 v : 0 <= mask_px v /\ mask_px v <= 1.
Proof. destruct (mask_px_cases v) as [[_ ->] | [_ ->]]; split; lra. Qed.

(** A masked row of values between two functions of the pixel. *)
Lemma masked_row_mono (f g : Q -> Q) (t d : list Q) :
  (forall x, f x <= g x) ->
  reduce_sum (zip_with Qmult (map mask_px t) (map f d))
  <= reduce_sum (zip_with Qmult (map mask_px t) (map g d)).
Proof.
  intros Hfg. revert d. induction t as [|v t IH]; intros [|x d];
    unfold zip_with in *; cbn [map combine fst snd]; try apply Qle_refl.
  rewrite !reduce_sum_cons.
  specialize (IH d). pose proof (mask_px_01 v) as [Hm _].
  pose proof (Hfg x) as Hx.
  assert (mask_px v * f x <= mask_px v * g x).
  { rewrite !(Qmult_comm (mask_px v)). apply Qmult_le_compat_r; assumption. }
  lra.
Qed.

Lemma masked_row_upper (f : Q -> Q) (t d : list Q) :
  (forall x, 0 <= f x <= 1) ->
  0 <= reduce_sum (zip_with Qmult (map mask_px t) (map f d)) /\
  reduce_sum (zip_with Qmult (map mask_px t) (map f d))
  <= reduce_sum (map mask_px t).
Proof.
  intros Hf. revert d. induction t as [|v t IH]; intros [|x d];
    unfold zip_with in *; cbn [map combine fst snd].
  - split; apply Qle_refl.
  - split; apply Qle_refl.
  - split; [apply Qle_refl|]. apply (mask_row_nonneg (v :: t)).
  - rewrite !reduce_sum_cons.
    destruct (IH d) as [IH1 IH2]. pose proof (mask_px_01 v) as [Hm0 Hm1].
    destruct (Hf x) as [Hx0 Hx1].
    assert (0 <= mask_px v * f x) by (apply Qmult_le_0_compat; assumption).
    assert (mask_px v * f x <= mask_px v * 1).
    { rewrite !(Qmult_comm (mask_px v)). apply Qmult_le_compat_r; assumption. }
    split; lra.
Qed.

Lemma less_percentage_hits k y_true y_pred interval :
  less_percentage k y_true y_pred interval
  = hits k y_true y_pred interval
    / (Qabs (reduce_sum_all (mask_of y_true)) + (1 # 1000000)).
Proof. reflexivity. Qed.

Lemma hits_bounds k y_true :
  forall y_pred interval,
    0 <= hits k y_true y_pred interval /\
    hits k y_true y_pred interval <= reduce_sum_all (mask_of y_true).
Proof.
  unfold hits, tmap2, mask_of.
  induction y_true as [|t ts IH]; intros y_pred interval.
  - split; apply Qle_refl.
  - destruct y_pred as [|p ps]; destruct interval as [|iv ivs];
      unfold zip_with in *; cbn [map combine fst snd];
      try (split; [apply Qle_refl | apply (mask_all_nonneg (t :: ts))]).
    rewrite !reduce_sum_all_cons.
    destruct (IH ps ivs) as [IH1 IH2].
    destruct (masked_row_upper (fun d => less_equal_div d iv k) t
                (map (fun q => Qabs (fst q - snd q)) (combine t p))
                (fun x => less_equal_div_01 x iv k)) as [Hr1 Hr2].
    unfold zip_with in Hr1, Hr2. split; lra.
Qed.

Lemma hits_mono k k' y_true :
  k <= k' ->
  forall y_pred interval,
    hits k y_true y_pred interval <= hits k' y_true y_pred interval.
Proof.
  intros Hk. unfold hits, tmap2, mask_of.
  induction y_true as [|t ts IH]; intros y_pred interval.
  - apply Qle_refl.
  - destruct y_pred as [|p ps]; destruct interval as [|iv ivs];
      unfold zip_with in *; cbn [map combine fst snd]; try apply Qle_refl.
    rewrite !reduce_sum_all_cons.
    specialize (IH ps ivs).
    pose proof (masked_row_mono (fun d => less_equal_div d iv k)
                  (fun d => less_equal_div d iv k') t
                  (map (fun q => Qabs (fst q - snd q)) (combine t p))
                  (fun x => less_equal_div_mono x iv k k' Hk)) as Hr.
    unfold zip_with in Hr. lra.
Qed.

(** ** The accuracies in float32 lie between 0 and 1 *)

Lemma round_half_even_le (x : Q) (N : Z) :
  x <= inject_Z N -> (round_half_even x <= N)%Z.
Proof.
  intros Hx. unfold round_half_even.
  assert (Hf : (Qfloor x <= N)%Z).
  { rewrite <- (Qfloor_Z N). apply Qfloor_resp_le. exact Hx. }
  assert (Hstep : (1 # 2) <= x - inject_Z (Qfloor x) -> (Qfloor x + 1 <= N)%Z).
  { intros Hhalf. destruct (Z.eq_dec (Qfloor x) N) as [Heq | Hne]; [|lia].
    rewrite Heq in Hhalf. lra. }
  destruct (x - inject_Z (Qfloor x) ?= 1 # 2) eqn:E.
  - destruct (Z.even (Qfloor x)); [exact Hf|].
    apply Hstep. apply (proj2 (Qeq_alt _ _)) in E. rewrite E. apply Qle_refl.
  - exact Hf.
  - apply Hstep. apply Qlt_le_weak. apply (proj2 (Qgt_alt _ _)). exact E.
Qed.

(** Rounding to float32 does not leave the interval from 0 to 1. *)
Lemma round32_unit (x : Q) :
  0 <= x -> x <= 1 -> 0 <= round32 x /\ round32 x <= 1.
Proof.
  intros H0 H1. unfold round32.
  assert (Hsign : Qgtb 0 x = false) by (apply Qgtb_false; exact H0).
  rewrite Hsign.
  set (y := Qabs x * inject_Z (2 ^ 149)).
  assert (HP : 0 < inject_Z (2 ^ 149)) by reflexivity.
  assert (Hy0 : 0 <= y).
  { unfold y. rewrite (Qabs_pos x H0). apply Qmult_le_0_compat; [exact H0|].
    apply Qlt_le_weak. exact HP. }
  assert (Hy1 : y <= inject_Z (2 ^ 149)).
  { unfold y. rewrite (Qabs_pos x H0).
    rewrite <- (Qmult_1_l (inject_Z (2 ^ 149))) at 2.
    apply Qmult_le_compat_r; [exact H1 | apply Qlt_le_weak; exact HP]. }
  set (s := ulp_exp y).
  assert (Hf0 : (0 <= Qfloor y)%Z).
  { change 0%Z with (Qfloor 0). apply Qfloor_resp_le. exact Hy0. }
  assert (Hf1 : (Qfloor y <= 2 ^ 149)%Z).
  { rewrite <- (Qfloor_Z (2 ^ 149)). apply Qfloor_resp_le. exact Hy1. }
  assert (Hs : (0 <= s <= 126)%Z).
  { unfold s, ulp_exp. split; [lia|].
    assert (Z.log2 (Qfloor y) <= 149)%Z; [|lia].
    rewrite <- (Z.log2_pow2 149) by lia. apply Z.log2_le_mono. exact Hf1. }
  assert (HSpos : (0 < 2 ^ s)%Z) by (apply pow2_pos; lia).
  assert (HS : 0 < inject_Z (2 ^ s)).
  { change 0 with (inject_Z 0). rewrite <- Zlt_Qlt. exact HSpos. }
  assert (Hsplit : (2 ^ 149 = 2 ^ (149 - s) * 2 ^ s)%Z).
  { rewrite <- Z.pow_add_r by lia. f_equal. lia. }
  set (m := round_half_even (y / inject_Z (2 ^ s))).
  assert (Hm0 : (0 <= m)%Z).
  { apply round_half_even_nonneg. apply Qle_shift_div_l; [exact HS|].
    rewrite Qmult_0_l. exact Hy0. }
  assert (Hm1 : (m <= 2 ^ (149 - s))%Z).
  { apply round_half_even_le. apply Qle_shift_div_r; [exact HS|].
    rewrite <- inject_Z_mult, <- Hsplit. exact Hy1. }
  rewrite Qmult_1_l. split.
  - apply Qle_shift_div_l; [exact HP|]. rewrite Qmult_0_l.
    change 0 with (inject_Z 0). rewrite <- Zle_Qle. nia.
  - apply Qle_shift_div_r; [exact HP|]. rewrite Qmult_1_l.
    rewrite <- Zle_Qle. rewrite Hsplit. nia.
Qed.

(** Up to 31 measured pixels the float32 divisor is positive and not below
    their number. *)
Lemma divisor_below_32 :
  forallb
    (fun n =>
       Qle_bool (inject_Z n) (round32 (inject_Z n + round32 (1 # 1000000))) &&
       Qgtb (round32 (inject_Z n + round32 (1 # 1000000))) 0)
    (map Z.of_nat (seq 0 32)) = true.
Proof. vm_compute. reflexivity. Qed.

Lemma divisor_bounds (n : Z) :
  (0 <= n < 2 ^ 24)%Z ->
  inject_Z n <= round32 (inject_Z n + round32 (1 # 1000000)) /\
  0 < round32 (inject_Z n + round32 (1 # 1000000)).
Proof.
  intros Hn. destruct (Z_lt_le_dec n 32) as [Hlt | Hge].
  - pose proof divisor_below_32 as Hall.
    rewrite forallb_forall in Hall.
    assert (Hin : In n (map Z.of_nat (seq 0 32))).
    { replace n with (Z.of_nat (Z.to_nat n)) by lia.
      apply in_map. apply in_seq. lia. }
    specialize (Hall n Hin). apply andb_true_iff in Hall.
    destruct Hall as [Hle Hpos].
    split; [apply Qle_bool_iff; exact Hle | apply Qgtb_true; exact Hpos].
  - rewrite (round32_absorbs_epsilon n) by lia. split; [apply Qle_refl|].
    change 0 with (inject_Z 0). rewrite <- Zlt_Qlt. lia.
Qed.

(** The comparison gives 0 or 1. *)
Lemma less_equal_image_bits (k : Q) (interval : list Q) :
  forall D : tensor,
    Forall (Forall (fun l => l = 0 \/ l = 1))
      (zip_with
         (fun iv row => map (fun d => less_equal_div_r round32 d iv k) row)
         interval D).
Proof.
  induction interval as [| iv interval IH]; intros [| row D];
    try (constructor; fail).
  unfold zip_with in *. cbn [map combine fst snd].
  constructor; [|apply IH].
  induction row as [| d row IHrow]; [constructor|].
  cbn [map]. constructor; [|exact IHrow].
  unfold less_equal_div_r.
  destruct (Qeq_bool iv 0); [left; reflexivity|].
  destruct (Qle_bool _ k); [right | left]; reflexivity.
Qed.

(** A masked pixel counts 0 or 1, and nothing where nothing is measured. *)
Lemma masked_px (t l : Q) :
  l = 0 \/ l = 1 ->
  exists z, whole (round32 (mask_px t * l)) z /\
            (z <= if Qeq_bool t 0 then 0 else 1)%Z.
Proof.
  intros Hl. unfold mask_px.
  destruct (Qeq_bool t 0), Hl as [-> | ->].
  - exists 0%Z. split; [|lia]. split; [|lia].
    rewrite (round32_comp _ (inject_Z 0)) by (unfold inject_Z; ring).
    apply round32_whole. lia.
  - exists 0%Z. split; [|lia]. split; [|lia].
    rewrite (round32_comp _ (inject_Z 0)) by (unfold inject_Z; ring).
    apply round32_whole. lia.
  - exists 0%Z. split; [|lia]. split; [|lia].
    rewrite (round32_comp _ (inject_Z 0)) by (unfold inject_Z; ring).
    apply round32_whole. lia.
  - exists 1%Z. split; [|lia]. split; [|lia].
    rewrite (round32_comp _ (inject_Z 1)) by (unfold inject_Z; ring).
    apply round32_whole. lia.
Qed.

Lemma masked_row (row_t : list Q) :
  forall ls,
    Forall (fun l => l = 0 \/ l = 1) ls ->
    exists zs,
      Forall2 whole
        (zip_with (fun m l => round32 (m * l)) (map mask_px row_t) ls) zs /\
      (fold_right Z.add 0 zs <= count_row row_t)%Z.
Proof.
  induction row_t as [| t row_t IH]; intros ls Hls.
  - exists []. split; [constructor|]. simpl. reflexivity.
  - destruct ls as [| l ls].
    + exists []. split; [constructor|]. apply (count_row_nonneg (t :: row_t)).
    + inversion Hls as [| ? ? Hl Hrest]; subst.
      destruct (IH ls Hrest) as (zs & Hzs & Hsum).
      destruct (masked_px t l Hl) as (z & Hz & Hle).
      exists (z :: zs). split.
      * unfold zip_with in *. cbn [map combine fst snd].
        constructor; assumption.
      * unfold count_row, valid_row in *. cbn [map fold_right]. lia.
Qed.

(** The hits sum to a whole number that does not exceed the number of
    measured pixels. *)
Lemma masked_image (y_true : tensor) :
  forall LE : tensor,
    Forall (Forall (fun l => l = 0 \/ l = 1)) LE ->
    (count_valid y_true <= 2 ^ 24)%Z ->
    exists hs,
      Forall2 whole
        (map (reduce_sum_r round32)
           (tmap2 (fun m l => round32 (m * l)) (mask_of y_true) LE)) hs /\
      (fold_right Z.add 0 hs <= count_valid y_true)%Z.
Proof.
  induction y_true as [| row_t y_true IH]; intros LE HLE Hn.
  - exists []. split; [constructor|]. simpl. reflexivity.
  - pose proof (count_row_nonneg row_t) as Hr0.
    pose proof (count_valid_nonneg y_true) as Hy0.
    assert (Hcv : count_valid (row_t :: y_true)
                  = (count_row row_t + count_valid y_true)%Z) by reflexivity.
    destruct LE as [| ls LE].
    + exists []. split; [constructor|]. simpl. lia.
    + inversion HLE as [| ? ? Hls Hrest]; subst.
      destruct (IH LE Hrest ltac:(lia)) as (hs & Hhs & Hsum).
      destruct (masked_row row_t ls Hls) as (zs & Hzs & Hz).
      exists (fold_right Z.add 0%Z zs :: hs). split.
      * unfold tmap2, zip_with, mask_of in *. cbn [map combine fst snd].
        constructor; [|exact Hhs].
        split; [|apply (whole_nonneg _ zs Hzs)].
        apply reduce_sum_r_whole; [exact Hzs | lia].
      * cbn [fold_right]. lia.
Qed.

(** X3.  Both accuracies lie between 0 and 1, for a ground truth, a
    prediction and intervals of one shape: in float32, as the code computes
    them, for fewer than 2^24 measured pixels, and in exact arithmetic.
    The hits are whole numbers counted among the measured pixels, and the
    divisor is not below the number of those; rounding keeps the quotient
    between 0 and 1.  (The bound 1 is reached in float32; see
    [accuracy_of_exact_prediction].) *)
Theorem accuracy_in_unit_interval k y_true y_pred interval :
  Forall2 (fun row_t row_p => List.length row_t = List.length row_p)
    y_true y_pred ->
  List.length interval = List.length y_true ->
  (count_valid y_true < 2 ^ 24)%Z ->
  (0 <= less_percentage_r round32 k y_true y_pred interval /\
   less_percentage_r round32 k y_true y_pred interval <= 1) /\
  (0 <= less_percentage k y_true y_pred interval /\
   less_percentage k y_true y_pred interval <= 1).
Proof.
  intros _ _ Hn. split.
  - unfold less_percentage_r.
    pose proof (count_valid_nonneg y_true) as Hn0.
    pose proof (reduce_sum_all_r_whole _ y_true (mask_whole y_true)
                  ltac:(lia)) as Hm.
    assert (Hd : round32 (Qabs (reduce_sum_all_r round32 (mask_of y_true)) +
                          round32 (1 # 1000000))
                 = round32 (inject_Z (count_valid y_true) +
                            round32 (1 # 1000000))).
    { apply round32_comp. rewrite Hm.
      rewrite Qabs_pos; [reflexivity|].
      change 0 with (inject_Z 0). rewrite <- Zle_Qle. exact Hn0. }
    rewrite Hd.
    destruct (divisor_bounds (count_valid y_true) ltac:(lia)) as [Hge Hpos].
    set (D := round32 (inject_Z (count_valid y_true) + round32 (1 # 1000000)))
      in *.
    destruct (masked_image y_true _
                (less_equal_image_bits k interval
                   (tmap2 (fun t p => Qabs (round32 (t - p))) y_true y_pred))
                ltac:(lia)) as (hs & Hhs & Hsum).
    pose proof (whole_nonneg _ hs Hhs) as Hh0.
    assert (Hh : reduce_sum_all_r round32
                   (tmap2 (fun m l => round32 (m * l)) (mask_of y_true)
                      (zip_with
                         (fun iv row =>
                            map (fun d => less_equal_div_r round32 d iv k) row)
                         interval
                         (tmap2 (fun t p => Qabs (round32 (t - p)))
                            y_true y_pred)))
                 == inject_Z (fold_right Z.add 0%Z hs)).
    { unfold reduce_sum_all_r. apply reduce_sum_r_whole; [exact Hhs | lia]. }
    rewrite (round32_comp _ (inject_Z (fold_right Z.add 0%Z hs) / D))
      by (rewrite Hh; reflexivity).
    apply round32_unit.
    + apply Qle_shift_div_l; [exact Hpos|]. rewrite Qmult_0_l.
      change 0 with (inject_Z 0). rewrite <- Zle_Qle. exact Hh0.
    + apply Qle_shift_div_r; [exact Hpos|]. rewrite Qmult_1_l.
      apply Qle_trans with (inject_Z (count_valid y_true)); [|exact Hge].
      rewrite <- Zle_Qle. exact Hsum.
  - rewrite less_percentage_hits.
    destruct (hits_bounds k y_true y_pred interval) as [H0 H1].
    pose proof (mask_all_nonneg y_true) as Hm.
    rewrite (Qabs_pos _ Hm).
    split.
    + apply Qle_shift_div_l; lra.
    + apply Qle_shift_div_r; lra.
Qed.

Lemma accuracy_in_unit_interval_witness :
  (0 <= less_one_percentage32 one_valid_pixel [[1; 7]] [2] /\
   less_one_percentage32 one_valid_pixel [[1; 7]] [2] <= 1) /\
  (0 <= less_one_percentage one_valid_pixel [[1; 7]] [2] /\
   less_one_percentage one_valid_pixel [[1; 7]] [2] <= 1).
Proof.
  apply (accuracy_in_unit_interval 1 one_valid_pixel [[1; 7]] [2]).
  - constructor; [reflexivity | constructor].
  - reflexivity.
  - reflexivity.
Defined.

(** X4.  The accuracy at threshold 1 never exceeds the accuracy at threshold 3. *)
Theorem less_one_le_less_three y_true y_pred interval :
  less_one_percentage y_true y_pred interval
  <= less_three_percentage y_true y_pred interval.
Proof.
  unfold less_one_percentage, less_three_percentage.
  rewrite !less_percentage_hits.
  assert (H13 : 1 <= 3) by lra.
  pose proof (hits_mono 1 3 y_true H13 y_pred interval) as Hm.
  pose proof (mask_all_nonneg y_true) as Hn.
  rewrite (Qabs_pos _ Hn).
  unfold Qdiv. apply Qmult_le_compat_r; [exact Hm|].
  apply Qinv_le_0_compat. lra.
Qed.

Lemma mask_all_zero y_true :
  Forall (Forall (fun t => t == 0)) y_true ->
  reduce_sum_all (mask_of y_true) == 0.
Proof.
  unfold mask_of. induction 1 as [|row rows Hrow _ IH].
  - reflexivity.
  - simpl map. rewrite reduce_sum_all_cons, IH.
    assert (Hr : reduce_sum (map mask_px row) == 0).
    { clear IH. induction Hrow as [|t row Ht _ IHr]; [reflexivity|].
      simpl. rewrite IHr.
      destruct (mask_px_cases t) as [[_ ->] | [Hne _]];
        [reflexivity | contradiction]. }
    rewrite Hr. reflexivity.
Qed.

(** X5.  With no measured pixel at all, both accuracies are 0: the epsilon of the
    denominator stands in for the missing count. *)
Theorem accuracy_without_valid_pixels k y_true y_pred interval :
  Forall (Forall (fun t => t == 0)) y_true ->
  less_percentage k y_true y_pred interval == 0.
Proof.
  intros Hzero. rewrite less_percentage_hits.
  destruct (hits_bounds k y_true y_pred interval) as [H0 H1].
  rewrite (mask_all_zero y_true Hzero) in H1.
  assert (Hh : hits k y_true y_pred interval == 0) by lra.
  rewrite Hh. unfold Qdiv. ring.
Qed.

(** Two unmeasured pixels, any prediction. *)
Lemma accuracy_without_valid_pixels_witness :
  less_percentage 1 [[0; 0]] [[5; 7]] [2] == 0.
Proof.
  apply accuracy_without_valid_pixels. repeat constructor.
Defined.

(** ** What the mask hides *)

Lemma masked_row_same (f : Q -> Q -> Q) (t p p' : list Q) :
  Forall3 (fun t p p' => ~ t == 0 -> p = p') t p p' ->
  reduce_sum
    (zip_with Qmult (map mask_px t) (zip_with f t p))
  == reduce_sum
       (zip_with Qmult (map mask_px t) (zip_with f t p')).
Proof.
  induction 1 as [|a b c la lb lc Habc _ IH].
  - reflexivity.
  - unfold zip_with in *. cbn [map combine fst snd].
    rewrite !reduce_sum_cons, IH.
    destruct (mask_px_cases a) as [[_ ->] | [Ha _]].
    + ring.
    + rewrite (Habc Ha). reflexivity.
Qed.

Lemma masked_row_same_r (f : Q -> Q -> Q) (t p p' : list Q) :
  Forall3 (fun t p p' => ~ t == 0 -> p = p') t p p' ->
  reduce_sum
    (zip_with Qmult (zip_with f t p) (map mask_px t))
  == reduce_sum
       (zip_with Qmult (zip_with f t p') (map mask_px t)).
Proof.
  induction 1 as [|a b c la lb lc Habc _ IH].
  - reflexivity.
  - unfold zip_with in *. cbn [map combine fst snd].
    rewrite !reduce_sum_cons, IH.
    destruct (mask_px_cases a) as [[_ ->] | [Ha _]].
    + ring.
    + rewrite (Habc Ha). reflexivity.
Qed.

(** X6.  The accuracies do not see the prediction at unmeasured pixels. *)
Theorem accuracy_ignores_invalid_pixels k y_true y_pred y_pred' interval :
  same_on_valid y_true y_pred y_pred' ->
  less_percentage k y_true y_pred interval
  == less_percentage k y_true y_pred' interval.
Proof.
  intros Hsame. rewrite !less_percentage_hits.
  assert (Hh : hits k y_true y_pred interval == hits k y_true y_pred' interval).
  { unfold hits, tmap2, mask_of. revert interval.
    induction Hsame as [|t p p' ts ps ps' Hrow _ IH]; intros interval.
    - reflexivity.
    - destruct interval as [|iv ivs];
        unfold zip_with in *; cbn [map combine fst snd]; [reflexivity|].
      rewrite !reduce_sum_all_cons, (IH ivs).
      pose proof (masked_row_same
                    (fun t p => less_equal_div (Qabs (t - p)) iv k)
                    t p p' Hrow) as Hr.
      unfold zip_with in Hr. rewrite !map_map. cbv beta in Hr |- *.
      rewrite Hr. reflexivity. }
  rewrite Hh. reflexivity.
Qed.

(** One measured pixel predicted alike, one unmeasured pixel predicted
    differently. *)
Lemma accuracy_ignores_invalid_pixels_witness :
  less_percentage 1 one_valid_pixel [[1; 7]] [2]
  == less_percentage 1 one_valid_pixel [[1; 99]] [2].
Proof.
  apply accuracy_ignores_invalid_pixels.
  constructor; [|constructor].
  constructor; [intros _; reflexivity|].
  constructor; [|constructor].
  intros H. exfalso. apply H. reflexivity.
Defined.

Section MaskedLossFrame.

Variable pow : Q -> Q -> Q.





End MaskedLossFrame.


(** ** More on the resize scale *)

Lemma max_scales_grow max_h max_w images :
  forall n view h0 w0 h w,
    max_scales max_h max_w images view n h0 w0 = ok (h, w) ->
    h0 <= h /\ w0 <= w.
Proof.
  induction n as [|n IH]; intros view h0 w0 h w Hrun.
  - simpl in Hrun. injection Hrun as <- <-. split; apply Qle_refl.
  - simpl in Hrun.
    apply bind_ok_inv in Hrun. destruct Hrun as (shape & _ & Hrun).
    apply bind_ok_inv in Hrun. destruct Hrun as (hs & _ & Hrun).
    apply bind_ok_inv in Hrun. destruct Hrun as (ws & _ & Hrun).
    apply IH in Hrun. destruct Hrun as [Hh Hw].
    pose proof (running_max hs h0) as (Hh1 & _ & _).
    pose proof (running_max ws w0) as (Hw1 & _ & _).
    simpl in Hh1, Hw1. split; lra.
Qed.

(** X8.  The generator never enlarges: a scale it returns lies in [0, 1], with
    or without adaptive scaling, for any list of shapes and any bounds. *)
Theorem resize_scale_at_most_one adaptive_scaling max_h max_w images view_num s :
  resize_scale adaptive_scaling max_h max_w images view_num = ok s ->
  0 <= s /\ s <= 1.
Proof.
  unfold resize_scale. destruct adaptive_scaling.
  - intros Hrun.
    apply bind_ok_inv in Hrun. destruct Hrun as ([h w] & Hloop & Hrun).
    apply max_scales_grow in Hloop. destruct Hloop as [Hh Hw].
    cbn [fst snd] in Hrun.
    destruct (Qgtb h 1) eqn:Eh; [discriminate|].
    destruct (Qgtb w 1) eqn:Ew; [discriminate|].
    apply Qgtb_false in Eh, Ew. simpl in Hrun.
    destruct (Qgtb w h); injection Hrun as <-; split; lra.
  - intros [= <-]. split; lra.
Qed.

(** The specification's example once more, as a scale that is returned. *)
Lemma resize_scale_at_most_one_witness :
  exists s,
    resize_scale true 384 512 [(768, 1024); (600, 800)]%nat 2 = ok s /\
    0 <= s /\ s <= 1.
Proof.
  destruct (resize_scale true 384 512 [(768, 1024); (600, 800)]%nat 2)
    as [e | s] eqn:Hrun.
  - vm_compute in Hrun. discriminate.
  - exists s. split; [reflexivity|].
    apply (resize_scale_at_most_one true 384 512
             [(768, 1024); (600, 800)]%nat 2 s Hrun).
Defined.

(** X9.  A view smaller than a bound, in height or in width, makes the generator
    exit: bringing it to the bound would enlarge it. *)
Theorem resize_scale_rejects_small_view max_h max_w images shape :
  Forall positive_shape images ->
  In shape images ->
  (Z.of_nat (fst shape) < max_h \/ Z.of_nat (snd shape) < max_w)%Z ->
  resize_scale true max_h max_w images (List.length images) = raise SystemExit.
Proof.
  intros Hpos Hin Hsmall.
  destruct (max_scales_spec max_h max_w images Hpos (List.length images) 0 0 0)
    as (h & w & Hrun & _ & _ & Hall & _ & _); [reflexivity|].
  destruct (In_nth_error _ _ Hin) as [i Hi].
  destruct (Hall i shape) as [Hhs Hws]; [lia | exact Hi|].
  assert (Hp : positive_shape shape).
  { rewrite Forall_forall in Hpos. apply Hpos. exact Hin. }
  destruct Hp as [Hp0 Hp1].
  unfold resize_scale. rewrite Hrun. simpl.
  assert (Hgate : Qgtb h 1 || Qgtb w 1 = true).
  { destruct Hsmall as [Hs | Hs].
    - assert (1 < height_scale_of max_h shape).
      { unfold height_scale_of. apply Qlt_shift_div_l.
        - change 0 with (inject_Z 0). rewrite <- Zlt_Qlt. lia.
        - rewrite Qmult_1_l, <- Zlt_Qlt. exact Hs. }
      assert (Hh : Qgtb h 1 = true) by (apply Qgtb_true; lra).
      rewrite Hh. reflexivity.
    - assert (1 < width_scale_of max_w shape).
      { unfold width_scale_of. apply Qlt_shift_div_l.
        - change 0 with (inject_Z 0). rewrite <- Zlt_Qlt. lia.
        - rewrite Qmult_1_l, <- Zlt_Qlt. exact Hs. }
      assert (Hw : Qgtb w 1 = true) by (apply Qgtb_true; lra).
      rewrite Hw. apply orb_true_r. }
  rewrite Hgate. reflexivity.
Qed.

(** The specification's example: a view of 300 x 400 under bounds
    384 x 512, beside a larger one. *)
Lemma resize_scale_rejects_small_view_witness :
  resize_scale true 384 512 [(768, 1024); (300, 400)]%nat 2 = raise SystemExit.
Proof.
  apply (resize_scale_rejects_small_view 384 512
           [(768, 1024); (300, 400)]%nat (300, 400)%nat).
  - repeat constructor.
  - right. left. reflexivity.
  - left. simpl. lia.
Defined.

(** ** Scaling a camera twice *)

Lemma scale_camera_twice h cam s t :
  (cam < next h)%nat ->
  fst (scale_camera h cam s) = next h /\
  fst (scale_camera (snd (scale_camera h cam s)) (next h) t) = S (next h) /\
  load (snd (scale_camera (snd (scale_camera h cam s)) (next h) t)) cam
  = load h cam /\
  forall a i j,
    get3 (load (snd (scale_camera (snd (scale_camera h cam s)) (next h) t))
            (S (next h))) a i j
    = if scaled_cell a i j
      then get3 (load h cam) a i j * s * t
      else get3 (load h cam) a i j.
Proof.
  intros Hcam.
  destruct (scale_camera_copies h cam s Hcam) as (Hr1 & Hn1 & Hold1 & Hnew1).
  set (h1 := snd (scale_camera h cam s)) in *.
  assert (Hr1' : (next h < next h1)%nat) by lia.
  destruct (scale_camera_copies h1 (next h) t Hr1') as (Hr2 & _ & Hold2 & Hnew2).
  rewrite Hn1 in Hr2, Hnew2.
  split; [exact Hr1|]. split; [exact Hr2|]. split.
  - rewrite Hold2 by lia. apply Hold1. exact Hcam.
  - intros a i j. rewrite Hnew2, Hnew1.
    destruct (scaled_cell a i j); reflexivity.
Qed.

(** X10.  Scaling by [s] and then by [t] gives a third camera whose fx, fy, cx,
    cy are the first one's times [s * t], every other entry being equal; the
    first camera is left as it was. *)
Theorem scale_camera_composes h cam s t :
  (cam < next h)%nat ->
  load (snd (scale_camera (snd (scale_camera h cam s))
               (fst (scale_camera h cam s)) t)) cam
  = load h cam /\
  forall a i j,
    get3 (load (snd (scale_camera (snd (scale_camera h cam s))
                       (fst (scale_camera h cam s)) t))
            (fst (scale_camera (snd (scale_camera h cam s))
                    (fst (scale_camera h cam s)) t))) a i j
    == if scaled_cell a i j
       then get3 (load h cam) a i j * (s * t)
       else get3 (load h cam) a i j.
Proof.
  intros Hcam.
  destruct (scale_camera_twice h cam s t Hcam) as (Hr1 & Hr2 & Hold & Hnew).
  rewrite Hr1, Hr2. split; [exact Hold|].
  intros a i j. rewrite Hnew.
  destruct (scaled_cell a i j); [ring | reflexivity].
Qed.

(** X11.  Scaling by a non-zero factor and then by its inverse gives back every
    entry of the camera. *)
Theorem scale_camera_inverse h cam s :
  (cam < next h)%nat ->
  ~ s == 0 ->
  forall a i j,
    get3 (load (snd (scale_camera (snd (scale_camera h cam s))
                       (fst (scale_camera h cam s)) (/ s)))
            (fst (scale_camera (snd (scale_camera h cam s))
                    (fst (scale_camera h cam s)) (/ s)))) a i j
    == get3 (load h cam) a i j.
Proof.
  intros Hcam Hs a i j.
  destruct (scale_camera_twice h cam s (/ s) Hcam) as (Hr1 & Hr2 & _ & Hnew).
  rewrite Hr1, Hr2, Hnew.
  destruct (scaled_cell a i j); [field; exact Hs | reflexivity].
Qed.

Lemma scale_camera_composes_witness :
  get3 (load (snd (scale_camera (snd (scale_camera (heap_of 1 cam_10_20) 0 2))
                     (fst (scale_camera (heap_of 1 cam_10_20) 0 2)) 3))
          (fst (scale_camera (snd (scale_camera (heap_of 1 cam_10_20) 0 2))
                  (fst (scale_camera (heap_of 1 cam_10_20) 0 2)) 3))) 1 0 2
  == 10 * (2 * 3).
Proof.
  destruct (scale_camera_composes (heap_of 1 cam_10_20) 0 2 3) as [_ H].
  - simpl. lia.
  - exact (H 1%nat 0%nat 2%nat).
Defined.

Lemma scale_camera_inverse_witness :
  get3 (load (snd (scale_camera (snd (scale_camera (heap_of 1 cam_10_20) 0 4))
                     (fst (scale_camera (heap_of 1 cam_10_20) 0 4)) (/ 4)))
          (fst (scale_camera (snd (scale_camera (heap_of 1 cam_10_20) 0 4))
                  (fst (scale_camera (heap_of 1 cam_10_20) 0 4)) (/ 4)))) 1 1 2
  == 20.
Proof.
  apply (scale_camera_inverse (heap_of 1 cam_10_20) 0 4).
  - simpl. lia.
  - discriminate.
Defined.

(** ** Scaling the cameras of a sample *)

Lemma scale_loop scale (cams : list ref) :
  forall n view (l : list ref) hp,
    (view + n = List.length cams)%nat ->
    List.length l = List.length cams ->
    (forall i, (view <= i)%nat -> nth_error l i = nth_error cams i) ->
    (forall r, In r cams -> (r < next hp)%nat) ->
    exists l' hp',
      for_range (scale_view scale) view n (l, hp) = ok (l', hp') /\
      List.length l' = List.length cams /\
      next hp' = (next hp + n)%nat /\
      (forall r, (r < next hp)%nat -> load hp' r = load hp r) /\
      (forall i, (i < view)%nat -> nth_error l' i = nth_error l i) /\
      (forall i (cam : ref), (view <= i)%nat -> nth_error cams i = Some cam ->
         nth_error l' i = Some (next hp + (i - view))%nat /\
         forall a i0 j,
           get3 (load hp' (next hp + (i - view))%nat) a i0 j
           = if scaled_cell a i0 j
             then get3 (load hp cam) a i0 j * scale
             else get3 (load hp cam) a i0 j).
Proof.
  induction n as [|n IH]; intros view l hp Hn Hlen Hsame Hrefs.
  - exists l, hp. split; [reflexivity|]. split; [exact Hlen|].
    split; [lia|]. split; [reflexivity|]. split; [reflexivity|].
    intros i cam Hi Hc.
    assert (i < List.length cams)%nat by (apply nth_error_Some; congruence).
    lia.
  - destruct (nth_error cams view) as [cam|] eqn:Hcam.
    2:{ apply nth_error_None in Hcam. lia. }
    assert (Hcam_lt : (cam < next hp)%nat)
      by (apply Hrefs; exact (nth_error_In cams view Hcam)).
    destruct (scale_camera_copies hp cam scale Hcam_lt)
      as (Hnew & Hnext & Hold & Hcells).
    destruct (scale_camera hp cam scale) as [new_cam hp1] eqn:Hsc.
    cbn [fst snd] in Hnew, Hnext, Hold, Hcells. subst new_cam.
    destruct (IH (S view) (list_set l view (next hp)) hp1)
      as (l' & hp' & Hrun & Hlen' & Hnext' & Hold' & Hlow' & Hhigh').
    { lia. }
    { rewrite length_list_set. exact Hlen. }
    { intros i Hi. rewrite nth_error_list_set_other by lia. apply Hsame. lia. }
    { intros r Hr. specialize (Hrefs r Hr). lia. }
    exists l', hp'. split.
    { assert (Hidx : index l view = ok cam).
      { apply index_ok_iff. rewrite Hsame by lia. exact Hcam. }
      cbn [for_range]. unfold scale_view at 1. cbn [fst snd].
      rewrite Hidx. cbv beta iota delta [bind ok]. rewrite Hsc. exact Hrun. }
    split; [exact Hlen'|]. split; [lia|]. split; [|split].
    + intros r Hr. rewrite Hold' by lia. apply Hold. exact Hr.
    + intros i Hi. rewrite Hlow' by lia.
      apply nth_error_list_set_other. lia.
    + intros i cam' Hi Hc.
      destruct (Nat.eq_dec i view) as [-> | Hne].
      * rewrite Hcam in Hc. injection Hc as <-.
        replace (next hp + (view - view))%nat with (next hp) by lia.
        split.
        -- rewrite Hlow' by lia. apply nth_error_list_set_same. lia.
        -- intros a i0 j. rewrite Hold' by lia. apply Hcells.
      * destruct (Hhigh' i cam') as [Hnth Hc']; [lia | exact Hc|].
        replace (next hp + (i - view))%nat with (next hp1 + (i - S view))%nat
          by lia.
        split; [exact Hnth|].
        intros a i0 j. rewrite Hc'.
        assert (Hlt : (cam' < next hp)%nat)
          by (apply Hrefs; exact (nth_error_In cams i Hc)).
        rewrite (Hold cam' Hlt). reflexivity.
Qed.

(** X12.  [scale_mvs_camera] puts a new camera at every place of the list: the
    view at place [i] becomes the object numbered [next h + i], a scaled
    copy of what was there, so the new list has no object twice even where
    the old one had; nothing that existed is written. *)
Theorem scale_mvs_camera_fresh_copies F h (cams : list ref) scale :
  List.length cams = FLAGS_view_num F ->
  (forall r, In r cams -> (r < next h)%nat) ->
  exists cams' h',
    scale_mvs_camera F h cams scale = ok (cams', h') /\
    cams' = seq (next h) (FLAGS_view_num F) /\
    (forall r, (r < next h)%nat -> load h' r = load h r) /\
    (forall i (cam : ref), nth_error cams i = Some cam ->
       forall a i0 j,
         get3 (load h' (next h + i)%nat) a i0 j
         = if scaled_cell a i0 j
           then get3 (load h cam) a i0 j * scale
           else get3 (load h cam) a i0 j).
Proof.
  intros Hlen Hrefs.
  destruct (scale_loop scale cams (FLAGS_view_num F) 0 cams h)
    as (cams' & h' & Hrun & Hlen' & _ & Hold & _ & Hhigh).
  { simpl. symmetry. exact Hlen. }
  { reflexivity. }
  { reflexivity. }
  { exact Hrefs. }
  exists cams', h'. split; [exact Hrun|]. split; [|split; [exact Hold|]].
  - apply nth_error_ext. intros i.
    destruct (nth_error cams i) as [cam|] eqn:Hc.
    + destruct (Hhigh i cam) as [Hnth _]; [lia | exact Hc|].
      rewrite Hnth. replace (i - 0)%nat with i by lia.
      assert (i < FLAGS_view_num F)%nat
        by (rewrite <- Hlen; apply nth_error_Some; congruence).
      symmetry. rewrite nth_error_seq.
      destruct (Nat.ltb_spec i (FLAGS_view_num F)); [reflexivity | lia].
    + apply nth_error_None in Hc.
      assert (H1 : nth_error cams' i = None)
        by (apply nth_error_None; lia).
      rewrite H1. symmetry. apply nth_error_None. rewrite length_seq. lia.
  - intros i cam Hc.
    destruct (Hhigh i cam) as [_ Hcells]; [lia | exact Hc|].
    replace (i - 0)%nat with i in Hcells by lia. exact Hcells.
Qed.

(** Two views that are one and the same camera object. *)
Lemma scale_mvs_camera_fresh_copies_witness :
  exists h',
    scale_mvs_camera (flags_4x4 2) (heap_of 1 cam_10_20) [0; 0]%nat 2
    = ok ([1; 2]%nat, h') /\
    load h' 0 = load (heap_of 1 cam_10_20) 0.
Proof.
  destruct (scale_mvs_camera_fresh_copies (flags_4x4 2) (heap_of 1 cam_10_20)
              [0; 0]%nat 2)
    as (cams' & h' & Hrun & Hcams & Hold & _).
  - reflexivity.
  - intros r [<- | [<- | []]]; simpl; lia.
  - exists h'. subst cams'. split; [exact Hrun|].
    apply Hold. simpl. lia.
Defined.

(** ** The crop window *)

Lemma Qceiling_half (d : Z) :
  Qceiling (inject_Z d / 2) = (- ((- d) / 2))%Z.
Proof.
  unfold Qceiling, Qfloor, Qdiv, Qmult, Qinv, Qopp, inject_Z. simpl.
  rewrite Z.mul_1_r. reflexivity.
Qed.

Lemma crop_start_centred F (size new : Z) :
  (0 <= new <= size)%Z ->
  (0 <= crop_start F size new)%Z /\
  (crop_start F size new + new <= size)%Z /\
  (Z.abs (crop_start F size new - (size - (crop_start F size new + new)))
   <= 1)%Z.
Proof.
  intros H. unfold crop_start. destruct (true_division F).
  - rewrite Qceiling_half.
    pose proof (Z.div_mod (- (size - new)) 2 ltac:(lia)) as E.
    pose proof (Z.mod_pos_bound (- (size - new)) 2 ltac:(lia)) as B.
    lia.
  - pose proof (Z.div_mod (size - new) 2 ltac:(lia)) as E.
    pose proof (Z.mod_pos_bound (size - new) 2 ltac:(lia)) as B.
    lia.
Qed.

Lemma clamp_index_inside (n i : Z) :
  (0 <= i <= n)%Z -> clamp_index n i = i.
Proof.
  intros H. unfold clamp_index.
  destruct (Z.ltb_spec i 0); lia.
Qed.

Lemma new_size_oversize F (size flag : Z) :
  (flag < size)%Z -> new_size F size flag = ok flag.
Proof.
  intros H. unfold new_size.
  destruct (Z.gtb_spec size flag); [reflexivity | lia].
Qed.

(** X13.  An image larger than the bounds on both axes is cut to exactly
    [FLAGS.height] by [FLAGS.width]; the window lies inside the image and is
    centred, the two margins of an axis differing by at most one pixel; the
    division by [FLAGS.base_image_size] is not evaluated. *)
Theorem crop_oversize_image {A} F (img : image A) :
  (0 <= FLAGS_height F < Z.of_nat (shape0 img))%Z ->
  (0 <= FLAGS_width F < Z.of_nat (shape1 img))%Z ->
  exists win,
    window_of F img = ok win /\
    shape0 (slice_window img win) = Z.to_nat (FLAGS_height F) /\
    shape1 (slice_window img win) = Z.to_nat (FLAGS_width F) /\
    (0 <= start_h win)%Z /\ (finish_h win <= Z.of_nat (shape0 img))%Z /\
    (0 <= start_w win)%Z /\ (finish_w win <= Z.of_nat (shape1 img))%Z /\
    (Z.abs (start_h win - (Z.of_nat (shape0 img) - finish_h win)) <= 1)%Z /\
    (Z.abs (start_w win - (Z.of_nat (shape1 img) - finish_w win)) <= 1)%Z /\
    (forall i j,
       px (slice_window img win) i j
       = px img (Z.to_nat (start_h win) + i) (Z.to_nat (start_w win) + j)).
Proof.
  intros Hh Hw.
  unfold window_of, crop_window.
  rewrite (new_size_oversize F _ _ (proj2 Hh)).
  rewrite (new_size_oversize F _ _ (proj2 Hw)).
  cbv beta iota delta [bind ok].
  eexists. split; [reflexivity|].
  destruct (crop_start_centred F (Z.of_nat (shape0 img)) (FLAGS_height F))
    as (Hs0 & Hf0 & Hc0); [lia|].
  destruct (crop_start_centred F (Z.of_nat (shape1 img)) (FLAGS_width F))
    as (Hs1 & Hf1 & Hc1); [lia|].
  unfold slice_window, slice2. cbn [start_h finish_h start_w finish_w
    shape0 shape1 px].
  rewrite !clamp_index_inside by lia.
  repeat split; try lia; try assumption.
Qed.

Lemma crop_oversize_image_witness :
  exists win,
    window_of (flags_4x4 1) (blank 7 6) = ok win /\
    shape0 (slice_window (blank 7 6) win) = 4%nat /\
    shape1 (slice_window (blank 7 6) win) = 4%nat /\
    px (slice_window (blank 7 6) win) 0 0 = (2, 1)%nat.
Proof.
  destruct (@crop_oversize_image (nat * nat) (flags_4x4 1) (blank 7 6))
    as (win & Hwin & H0 & H1 & _ & _ & _ & _ & _ & _ & Hpx);
    [simpl; lia | simpl; lia |].
  exists win. split; [exact Hwin|]. split; [exact H0|]. split; [exact H1|].
  rewrite Hpx.
  vm_compute in Hwin. injection Hwin as <-. reflexivity.
Defined.

Lemma crop_oversize_window {A} F (img : image A) :
  (0 <= FLAGS_height F < Z.of_nat (shape0 img))%Z ->
  (0 <= FLAGS_width F < Z.of_nat (shape1 img))%Z ->
  exists win,
    window_of F img = ok win /\
    shape0 (slice_window img win) = Z.to_nat (FLAGS_height F) /\
    shape1 (slice_window img win) = Z.to_nat (FLAGS_width F).
Proof.
  intros Hh Hw.
  unfold window_of, crop_window.
  rewrite (new_size_oversize F _ _ (proj2 Hh)).
  rewrite (new_size_oversize F _ _ (proj2 Hw)).
  cbv beta iota delta [bind ok].
  eexists. split; [reflexivity|].
  destruct (crop_start_centred F (Z.of_nat (shape0 img)) (FLAGS_height F))
    as (Hs0 & Hf0 & _); [lia|].
  destruct (crop_start_centred F (Z.of_nat (shape1 img)) (FLAGS_width F))
    as (Hs1 & Hf1 & _); [lia|].
  unfold slice_window, slice2. cbn [start_h finish_h start_w finish_w
    shape0 shape1 px].
  rewrite !clamp_index_inside by lia.
  split; f_equal; lia.
Qed.

(** X14.  Every image [crop_mvs_input] returns for a sample of images larger than
    the bounds has the shape [FLAGS.height] by [FLAGS.width]. *)
Theorem crop_mvs_input_oversize_shapes {A} F h (images : list (image A))
    (cams : list ref) :
  ~ FLAGS_base_image_size F == 0 ->
  List.length images = FLAGS_view_num F ->
  List.length cams = FLAGS_view_num F ->
  (forall img, In img images ->
     (0 <= FLAGS_height F < Z.of_nat (shape0 img))%Z /\
     (0 <= FLAGS_width F < Z.of_nat (shape1 img))%Z) ->
  exists images' h',
    crop_mvs_input F h images cams (@None (image A))
    = ok (images', cams, None, h') /\
    List.length images' = FLAGS_view_num F /\
    (forall img', In img' images' ->
       shape0 img' = Z.to_nat (FLAGS_height F) /\
       shape1 img' = Z.to_nat (FLAGS_width F)).
Proof.
  intros Hbase Hlen Hcams Hbig.
  destruct (crop_loop_images F cams images Hbase ltac:(congruence)
              (FLAGS_view_num F) 0
              {| st_images := images; st_heap := h; st_window := None |})
    as (st & Hrun & Hlen' & _ & _ & Himgs & _).
  { simpl. symmetry. exact Hlen. }
  { reflexivity. }
  { reflexivity. }
  exists (st_images st), (st_heap st).
  split; [|split].
  - unfold crop_mvs_input. rewrite Hrun. reflexivity.
  - rewrite Hlen'. exact Hlen.
  - intros img' Hin.
    destruct (In_nth_error _ _ Hin) as [i Hi].
    assert (Hlt : (i < List.length images)%nat).
    { rewrite <- Hlen'. apply nth_error_Some. congruence. }
    destruct (nth_error images i) as [img|] eqn:Himg.
    2:{ apply nth_error_None in Himg. lia. }
    destruct (Himgs i img ltac:(lia) Himg) as (win & Hwin & Hnth).
    destruct (Hbig img (nth_error_In images i Himg)) as [Hh Hw].
    destruct (crop_oversize_window F img Hh Hw)
      as (win0 & Hwin0 & H0 & H1).
    rewrite Hwin in Hwin0. injection Hwin0 as <-.
    rewrite Hi in Hnth. injection Hnth as ->.
    split; assumption.
Qed.

Lemma crop_mvs_input_oversize_shapes_witness :
  exists images' h',
    crop_mvs_input (flags_4x4 2) (heap_of 2 cam_10_20)
      [blank 7 6; blank 5 9] [0; 1]%nat (@None (image (nat * nat)))
    = ok (images', [0; 1]%nat, None, h') /\
    List.length images' = 2%nat /\
    (forall img', In img' images' ->
       shape0 img' = 4%nat /\ shape1 img' = 4%nat).
Proof.
  apply (@crop_mvs_input_oversize_shapes (nat * nat) (flags_4x4 2)
           (heap_of 2 cam_10_20) [blank 7 6; blank 5 9] [0; 1]%nat).
  - simpl. unfold Qeq. simpl. lia.
  - reflexivity.
  - reflexivity.
  - intros img [<- | [<- | []]]; simpl; lia.
Defined.

(** ** Images that are not larger than the bounds *)

Lemma Qceiling_div_pos (a b : Z) :
  (0 < b)%Z -> Qceiling (inject_Z a / inject_Z b) = (- ((- a) / b))%Z.
Proof.
  intros Hb. destruct b as [|p|p]; try lia.
  unfold Qceiling, Qfloor, Qdiv, Qmult, Qinv, Qopp, inject_Z. simpl.
  rewrite Z.mul_1_r. reflexivity.
Qed.

Lemma py_int_inject_mul (c b : Z) :
  py_int (inject_Z c * inject_Z b) = (c * b)%Z.
Proof. unfold py_int. simpl. apply Z.quot_1_r. Qed.

(** The extent of an axis that does not exceed its bound is rounded up to
    the next multiple of the base size. *)
Lemma new_size_small F (b size flag : Z) :
  (0 < b)%Z -> FLAGS_base_image_size F = inject_Z b ->
  (size <= flag)%Z ->
  new_size F size flag = ok (size + (- size) mod b)%Z.
Proof.
  intros Hb Hbase Hle. unfold new_size.
  destruct (Z.gtb_spec size flag); [lia|].
  rewrite Hbase. unfold py_div.
  destruct (Qeq_bool (inject_Z b) 0) eqn:E.
  { apply Qeq_bool_iff in E. unfold Qeq in E. simpl in E. lia. }
  cbv beta iota delta [bind ok].
  rewrite Qceiling_div_pos by exact Hb.
  rewrite py_int_inject_mul.
  pose proof (Z.div_mod (- size) b ltac:(lia)) as E'.
  f_equal. rewrite Z.mul_opp_l, (Z.mul_comm _ b). lia.
Qed.

Lemma crop_start_zero F (size : Z) : crop_start F size size = 0%Z.
Proof.
  unfold crop_start. rewrite Z.sub_diag.
  destruct (true_division F); reflexivity.
Qed.

(** X15.  An image within the bounds whose height and width are multiples of the
    base size passes through [crop_mvs_input] as it is: the window is the
    whole image, and the principal point of its camera keeps its value. *)
Theorem crop_aligned_image_unchanged {A} F (b : Z) (img : image A) c :
  (0 < b)%Z -> FLAGS_base_image_size F = inject_Z b ->
  (Z.of_nat (shape0 img) <= FLAGS_height F)%Z ->
  (Z.of_nat (shape1 img) <= FLAGS_width F)%Z ->
  (b | Z.of_nat (shape0 img))%Z ->
  (b | Z.of_nat (shape1 img))%Z ->
  exists win,
    window_of F img = ok win /\
    shape0 (slice_window img win) = shape0 img /\
    shape1 (slice_window img win) = shape1 img /\
    (forall i j, px (slice_window img win) i j = px img i j) /\
    (forall a i j, get3 (crop_cam c win) a i j == get3 c a i j).
Proof.
  intros Hb Hbase Hh Hw Hdh Hdw.
  assert (Hz : forall n, (b | n)%Z -> ((- n) mod b = 0)%Z).
  { intros n Hn. apply Z.mod_opp_l_z; [lia|].
    apply Z.mod_divide; [lia | exact Hn]. }
  unfold window_of, crop_window.
  rewrite (new_size_small F b _ _ Hb Hbase Hh).
  rewrite (new_size_small F b _ _ Hb Hbase Hw).
  rewrite (Hz _ Hdh), (Hz _ Hdw), !Z.add_0_r.
  cbv beta iota delta [bind ok].
  rewrite !crop_start_zero.
  eexists. split; [reflexivity|].
  unfold slice_window, slice2.
  cbn [start_h finish_h start_w finish_w shape0 shape1 px].
  rewrite !Z.add_0_l.
  rewrite !(clamp_index_inside _ 0) by lia.
  rewrite !clamp_index_inside by lia.
  rewrite !Z.sub_0_r, !Nat2Z.id.
  split; [reflexivity|]. split; [reflexivity|]. split; [reflexivity|].
  intros a i j. unfold crop_cam, get3, set3.
  cbn [start_h start_w].
  destruct (same_cell 1 1 2 a i j) eqn:E1.
  { apply same_cell_true in E1. destruct E1 as (<- & <- & <-).
    simpl. unfold Qminus. change (- inject_Z 0) with 0. apply Qplus_0_r. }
  destruct (same_cell 1 0 2 a i j) eqn:E2.
  { apply same_cell_true in E2. destruct E2 as (<- & <- & <-).
    unfold Qminus. change (- inject_Z 0) with 0. apply Qplus_0_r. }
  reflexivity.
Qed.

Lemma crop_aligned_image_unchanged_witness :
  exists win,
    window_of (flags_16x16 1) (blank 8 16) = ok win /\
    shape0 (slice_window (blank 8 16) win) = 8%nat /\
    shape1 (slice_window (blank 8 16) win) = 16%nat /\
    (forall i j, px (slice_window (blank 8 16) win) i j = (i, j)) /\
    (forall a i j, get3 (crop_cam cam_10_20 win) a i j == get3 cam_10_20 a i j).
Proof.
  apply (@crop_aligned_image_unchanged (nat * nat) (flags_16x16 1) 8
           (blank 8 16) cam_10_20).
  - lia.
  - reflexivity.
  - simpl. lia.
  - simpl. lia.
  - exists 1%Z. reflexivity.
  - exists 2%Z. reflexivity.
Defined.

(** X16.  An image within the height bound whose height is not a multiple of the
    base size is not padded.  The rounded-up height makes the window start
    at a negative row [- m], which the slice counts from the end: with [pad]
    the distance to the next multiple, at least 2 and less than [2 h - 1],
    only the last [m] rows remain, where [m] is half of [pad] (rounded down
    under true division, up under floor division), and [cy] grows by [m]. *)
Theorem crop_unaligned_keeps_last_rows {A} F (b : Z) (img : image A) c :
  (0 < b)%Z -> FLAGS_base_image_size F = inject_Z b ->
  (Z.of_nat (shape0 img) <= FLAGS_height F)%Z ->
  (2 <= (- Z.of_nat (shape0 img)) mod b)%Z ->
  ((- Z.of_nat (shape0 img)) mod b + 1 < 2 * Z.of_nat (shape0 img))%Z ->
  exists win m,
    window_of F img = ok win /\
    start_h win = (- m)%Z /\
    m = (if true_division F
         then (- Z.of_nat (shape0 img)) mod b / 2
         else ((- Z.of_nat (shape0 img)) mod b + 1) / 2)%Z /\
    (0 < m < Z.of_nat (shape0 img))%Z /\
    shape0 (slice_window img win) = Z.to_nat m /\
    (forall i j,
       px (slice_window img win) i j
       = px img (Z.to_nat (Z.of_nat (shape0 img) - m) + i)
           (Z.to_nat (clamp_index (Z.of_nat (shape1 img)) (start_w win)) + j)) /\
    get3 (crop_cam c win) 1 1 2 == get3 c 1 1 2 + inject_Z m.
Proof.
  intros Hb Hbase Hh Hpad2 Hpadh.
  set (h := Z.of_nat (shape0 img)) in *.
  set (pad := ((- h) mod b)%Z) in *.
  assert (Hw : exists nw, new_size F (Z.of_nat (shape1 img)) (FLAGS_width F)
                          = ok nw).
  { destruct (Z_lt_le_dec (FLAGS_width F) (Z.of_nat (shape1 img))) as [L|L].
    - eexists. apply new_size_oversize. exact L.
    - eexists. apply (new_size_small F b _ _ Hb Hbase L). }
  destruct Hw as [nw Hnw].
  set (m := (if true_division F then pad / 2 else (pad + 1) / 2)%Z).
  assert (Hm : (0 < m <= pad)%Z /\ (m < h)%Z).
  { unfold m. destruct (true_division F).
    - pose proof (Z.div_mod pad 2 ltac:(lia)).
      pose proof (Z.mod_pos_bound pad 2 ltac:(lia)). lia.
    - pose proof (Z.div_mod (pad + 1) 2 ltac:(lia)).
      pose proof (Z.mod_pos_bound (pad + 1) 2 ltac:(lia)). lia. }
  assert (Hstart : crop_start F h (h + pad) = (- m)%Z).
  { unfold crop_start, m. destruct (true_division F).
    - rewrite Qceiling_half. f_equal. f_equal. lia.
    - pose proof (Z.div_mod (h - (h + pad)) 2 ltac:(lia)).
      pose proof (Z.mod_pos_bound (h - (h + pad)) 2 ltac:(lia)).
      pose proof (Z.div_mod (pad + 1) 2 ltac:(lia)).
      pose proof (Z.mod_pos_bound (pad + 1) 2 ltac:(lia)). lia. }
  unfold window_of, crop_window. fold h.
  rewrite (new_size_small F b h _ Hb Hbase Hh). fold pad.
  rewrite Hnw. cbv beta iota delta [bind ok]. rewrite Hstart.
  eexists. exists m. split; [reflexivity|].
  cbn [start_h start_w]. split; [reflexivity|]. split; [reflexivity|].
  split; [lia|].
  assert (Hc1 : clamp_index h (- m) = (h - m)%Z).
  { unfold clamp_index. destruct (Z.ltb_spec (- m) 0); lia. }
  assert (Hc2 : clamp_index h (- m + (h + pad)) = h).
  { unfold clamp_index. destruct (Z.ltb_spec (- m + (h + pad)) 0); lia. }
  unfold slice_window, slice2.
  cbn [start_h finish_h start_w finish_w shape0 shape1 px]. fold h.
  rewrite Hc1, Hc2.
  split; [f_equal; lia|]. split; [reflexivity|].
  unfold crop_cam. rewrite set3_same. cbn [start_h].
  rewrite inject_Z_opp. unfold Qminus. rewrite Qopp_involutive. reflexivity.
Qed.

(** A 10 x 16 image under bounds 16 x 16 and base size 8 keeps its rows 7, 8
    and 9. *)
Lemma crop_unaligned_keeps_last_rows_witness :
  exists win,
    window_of (flags_16x16 1) (blank 10 16) = ok win /\
    start_h win = (- 3)%Z /\
    shape0 (slice_window (blank 10 16) win) = 3%nat /\
    px (slice_window (blank 10 16) win) 0 0 = (7, 0)%nat /\
    get3 (crop_cam cam_10_20 win) 1 1 2 == 23.
Proof.
  destruct (@crop_unaligned_keeps_last_rows (nat * nat) (flags_16x16 1) 8
              (blank 10 16) cam_10_20)
    as (win & m & Hwin & Hs & Hm & _ & H0 & Hpx & Hcy).
  - lia.
  - reflexivity.
  - simpl. lia.
  - vm_compute. discriminate.
  - vm_compute. reflexivity.
  - vm_compute in Hm. subst m.
    exists win. split; [exact Hwin|]. split; [exact Hs|].
    split; [exact H0|]. split.
    + rewrite Hpx. vm_compute in Hwin. injection Hwin as <-. reflexivity.
    + rewrite Hcy. reflexivity.
Defined.

(** ** Lists shorter than the number of views *)

Lemma crop_loop_short {A} F (cams : list ref) :
  ~ FLAGS_base_image_size F == 0 ->
  forall n view (st : crop_state A),
    (view <= List.length (st_images st))%nat ->
    (view <= List.length cams)%nat ->
    (List.length (st_images st) < view + n)%nat \/
    (List.length cams < view + n)%nat ->
    for_range (crop_view F cams) view n st = raise IndexError.
Proof.
  intros Hbase. induction n as [|n IH]; intros view st Hi Hc Hshort.
  - lia.
  - cbn [for_range].
    destruct (nth_error (st_images st) view) as [img|] eqn:Himg.
    2:{ unfold crop_view, index. rewrite Himg. reflexivity. }
    destruct (crop_window_ok F (Z.of_nat (shape0 img)) (Z.of_nat (shape1 img))
                Hbase) as [win Hwin].
    destruct (nth_error cams view) as [cam|] eqn:Hcam.
    2:{ unfold crop_view, index. rewrite Himg.
        cbv beta iota delta [bind ok]. unfold window_of. rewrite Hwin.
        rewrite Hcam. reflexivity. }
    destruct (crop_view_step F cams st view img win cam Himg Hwin Hcam)
      as (st1 & Hstep & Himgs & _).
    rewrite Hstep. cbv beta iota delta [bind ok].
    assert (Hlt1 : (view < List.length (st_images st))%nat)
      by (apply nth_error_Some; congruence).
    assert (Hlt2 : (view < List.length cams)%nat)
      by (apply nth_error_Some; congruence).
    apply IH.
    + rewrite Himgs, length_list_set. lia.
    + lia.
    + rewrite Himgs, length_list_set. lia.
Qed.

(** X17.  With fewer images or fewer cameras than [FLAGS.view_num],
    [crop_mvs_input] raises [IndexError], with or without a depth image. *)
Theorem crop_mvs_input_short_lists {A B} F h (images : list (image A))
    (cams : list ref) (depth_image : option (image B)) :
  ~ FLAGS_base_image_size F == 0 ->
  (List.length images < FLAGS_view_num F)%nat \/
  (List.length cams < FLAGS_view_num F)%nat ->
  crop_mvs_input F h images cams depth_image = raise IndexError.
Proof.
  intros Hbase Hshort. unfold crop_mvs_input.
  rewrite (crop_loop_short F cams Hbase); [reflexivity | | | ].
  - simpl. lia.
  - lia.
  - simpl. exact Hshort.
Qed.

Lemma crop_mvs_input_short_lists_witness :
  crop_mvs_input (flags_4x4 2) (heap_of 2 cam_10_20) [blank 7 6] [0; 1]%nat
    (Some (blank 7 6))
  = raise IndexError.
Proof.
  apply (@crop_mvs_input_short_lists (nat * nat) (nat * nat) (flags_4x4 2)).
  - simpl. unfold Qeq. simpl. lia.
  - left. simpl. lia.
Defined.

(** ** The PFM codec: what is accepted *)

(** X18.  [write_pfm] writes exactly the float32 images of two axes, or of three
    with one or three channels; the number of elements plays no part. *)
Theorem write_pfm_accepts sys image scale :
  (exists file, write_pfm sys image scale = ok file) <->
  dtype_name image = "float32"%string /\
  exists h w, shape image = [h; w] \/ shape image = [h; w; 1%nat] \/
              shape image = [h; w; 3%nat].
Proof.
  unfold write_pfm. split.
  - intros [file H].
    destruct (String.eqb (dtype_name image) "float32") eqn:En;
      [|discriminate H].
    apply String.eqb_eq in En. split; [exact En|].
    simpl negb in H. cbv iota in H.
    unfold flipud in H.
    destruct (shape image) as [|h [|w [|c [|x rest]]]] eqn:Hs;
      try discriminate H.
    + exists h, w. left. reflexivity.
    + exists h, w. cbv beta iota delta [bind ok] in H.
      cbn [shape pfm_color] in H.
      destruct (Nat.eqb_spec c 3) as [-> | _]; [right; right; reflexivity|].
      destruct (Nat.eqb_spec c 1) as [-> | _]; [right; left; reflexivity|].
      discriminate H.
  - intros (Hname & h & w & Hs).
    rewrite Hname. simpl negb. cbv iota. unfold flipud.
    destruct Hs as [Hs | [Hs | Hs]]; rewrite Hs;
      cbv beta iota delta [bind ok]; cbn [shape pfm_color Nat.eqb];
      eexists; reflexivity.
Qed.

Lemma fromstring_cases o :
  forall n s, (List.length s <= 4 * n)%nat ->
    (exists d, fromstring o s = ok d /\
               List.length s = (4 * List.length d)%nat) \/
    (fromstring o s = raise ValueError /\
     forall k, List.length s <> (4 * k)%nat).
Proof.
  induction n as [|n IH]; intros s Hs.
  - destruct s; [|simpl in Hs; lia]. left. exists []. split; reflexivity.
  - destruct s as [|x0 [|x1 [|x2 [|x3 rest]]]].
    + left. exists []. split; reflexivity.
    + right. split; [reflexivity|]. intros k. simpl. lia.
    + right. split; [reflexivity|]. intros k. simpl. lia.
    + right. split; [reflexivity|]. intros k. simpl. lia.
    + destruct (IH rest) as [(d & Hd & Hl) | (He & Hl)].
      { simpl in Hs. lia. }
      * left. exists (decode o x0 x1 x2 x3 :: d). split.
        -- cbn [fromstring]. rewrite Hd. reflexivity.
        -- simpl. simpl in Hl. lia.
      * right. split.
        -- cbn [fromstring]. rewrite He. reflexivity.
        -- intros k Hk. simpl in Hk. apply (Hl (k - 1)%nat). lia.
Qed.

Section PfmMore.

Variable float : string -> option Q.

(** What [load_pfm] does once the header is read. *)
Lemma load_pfm_after_header sys file color w h o payload :
  load_pfm_header float file = ok (color, w, h, o, payload) ->
  load_pfm float sys file
  = (data <- fromstring o payload ;;
     data <- reshape data (read_shape color h w) ;;
     ok (cv2_flip sys
           {| dtype_name := "float32";
              dtype_byteorder :=
                match o with
                | LittleEndian => "<"%char
                | BigEndian => ">"%char
                end;
              shape := read_shape color h w;
              data := data |})).
Proof. intros H. unfold load_pfm. rewrite H. reflexivity. Qed.

Lemma read_shape_size color h w :
  (0 < h)%nat -> (0 < w)%nat -> size_of (read_shape color h w) <> 0%nat.
Proof. intros Hh Hw. destruct color; simpl; nia. Qed.

(** X19.  Once the three header lines are read and announce an image that
    is not empty, [load_pfm] returns an array exactly when the rest of the
    file has four bytes for every element the header announces, and raises
    [ValueError] otherwise. *)
Theorem load_pfm_checks_payload_length sys file color w h o payload :
  load_pfm_header float file = ok (color, w, h, o, payload) ->
  (0 < h)%nat -> (0 < w)%nat ->
  if (List.length payload =? 4 * size_of (read_shape color h w))%nat
  then exists image,
         load_pfm float sys file = ok (Some image) /\
         shape image = read_shape color h w /\
         List.length (data image) = size_of (read_shape color h w)
  else load_pfm float sys file = raise ValueError.
Proof.
  intros Hhdr Hh Hw.
  rewrite (load_pfm_after_header sys file color w h o payload Hhdr).
  pose proof (read_shape_size color h w Hh Hw) as Hsize.
  destruct (fromstring_cases o (List.length payload) payload ltac:(lia))
    as [(d & Hd & Hl) | (He & Hl)].
  - rewrite Hd. cbv beta iota delta [bind ok]. unfold reshape.
    destruct (Nat.eqb_spec (List.length payload)
                (4 * size_of (read_shape color h w))) as [E | E].
    + assert (Hlen : List.length d = size_of (read_shape color h w)) by lia.
      rewrite Hlen, Nat.eqb_refl. cbv beta iota delta [ok].
      unfold cv2_flip. cbn [shape data dtype_name].
      destruct (Nat.eqb_spec (size_of (read_shape color h w)) 0);
        [contradiction|].
      eexists. split; [reflexivity|]. split; [reflexivity|].
      cbn [data].
      rewrite flip_rows_length by (rewrite length_map; exact Hlen).
      rewrite length_map. exact Hlen.
    + destruct (Nat.eqb_spec (List.length d)
                  (size_of (read_shape color h w))) as [E' | E'];
        [lia | reflexivity].
  - rewrite He. cbv beta iota delta [bind raise].
    destruct (Nat.eqb_spec (List.length payload)
                (4 * size_of (read_shape color h w))) as [E | E];
      [exfalso; exact (Hl _ E) | reflexivity].
Qed.

Lemma load_pfm_inv sys file image :
  load_pfm float sys file = ok (Some image) ->
  exists color w h o payload d,
    load_pfm_header float file = ok (color, w, h, o, payload) /\
    fromstring o payload = ok d /\
    List.length d = size_of (read_shape color h w) /\
    size_of (read_shape color h w) <> 0%nat /\
    image = {| dtype_name := "float32";
               dtype_byteorder := "="%char;
               shape := read_shape color h w;
               data := flip_rows (read_shape color h w)
                         (map (as_native sys o) d) |}.
Proof.
  intros Hload.
  destruct (load_pfm_header float file) as [e | [[[[color w] h] o] payload]]
    eqn:Hhdr.
  { unfold load_pfm in Hload. rewrite Hhdr in Hload. discriminate Hload. }
  rewrite (load_pfm_after_header sys file color w h o payload Hhdr) in Hload.
  destruct (fromstring o payload) as [e | d] eqn:Hd; [discriminate Hload|].
  cbv beta iota delta [bind ok] in Hload. unfold reshape in Hload.
  destruct (Nat.eqb_spec (List.length d) (size_of (read_shape color h w)))
    as [E | E]; [|discriminate Hload].
  cbv beta iota delta [ok] in Hload.
  unfold cv2_flip in Hload. cbn [shape data dtype_name] in Hload.
  destruct (Nat.eqb_spec (size_of (read_shape color h w)) 0) as [Z | Z];
    [discriminate Hload|].
  injection Hload as <-.
  exists color, w, h, o, payload, d.
  split; [reflexivity|]. split; [exact Hd|]. split; [exact E|].
  split; [exact Z|].
  f_equal. f_equal. f_equal. destruct o; reflexivity.
Qed.

(** X20.  Whatever array [load_pfm] returns can be written again: it is a
    float32 array in the platform's byte order ([=]), not empty, with as
    many elements as its shape says and a shape of two axes or of three
    with three channels, never H x W x 1; [write_pfm] accepts it with any
    scale. *)
Theorem load_pfm_returns_pfm_image sys file image :
  load_pfm float sys file = ok (Some image) ->
  exists h w,
    pfm_image image h w /\
    (shape image = [h; w] \/ shape image = [h; w; 3%nat]) /\
    dtype_byteorder image = "="%char /\
    data image <> [] /\
    forall sys' scale, exists file', write_pfm sys' image scale = ok file'.
Proof.
  intros Hload.
  destruct (load_pfm_inv sys file image Hload)
    as (color & w & h & o & payload & d & _ & _ & Hlen & Hsize & ->).
  exists h, w.
  assert (Hs : read_shape color h w = [h; w] \/
               read_shape color h w = [h; w; 3%nat])
    by (destruct color; [right | left]; reflexivity).
  assert (Hdata : List.length (flip_rows (read_shape color h w)
                                 (map (as_native sys o) d))
                  = size_of (read_shape color h w)).
  { rewrite flip_rows_length by (rewrite length_map; exact Hlen).
    rewrite length_map. exact Hlen. }
  assert (Himg : pfm_image
                   {| dtype_name := "float32";
                      dtype_byteorder := "=";
                      shape := read_shape color h w;
                      data := flip_rows (read_shape color h w)
                                (map (as_native sys o) d) |} h w).
  { split; [reflexivity|]. split; [simpl; auto|].
    split; [exact Hdata|]. cbn [shape].
    destruct Hs as [-> | ->]; auto. }
  split; [exact Himg|]. split; [exact Hs|]. split; [reflexivity|].
  split.
  - cbn [data]. intros E. rewrite E in Hdata. simpl in Hdata.
    apply Hsize. symmetry. exact Hdata.
  - intros sys' scale.
    destruct (write_pfm_file sys' _ scale h w Himg) as (c & _ & Hwrite).
    eexists. exact Hwrite.
Qed.

End PfmMore.

(** A grey 1 x 1 file with a complete payload is read; the same file one
    byte short is refused. *)
Lemma load_pfm_checks_payload_length_witness :
  (exists image,
     load_pfm float_dec LittleEndian
       (pfm_layout false 1 1 (- (1)) (encode LittleEndian one_f32))
     = ok (Some image) /\
     shape image = [1; 1]%nat /\
     List.length (data image) = 1%nat) /\
  load_pfm float_dec LittleEndian
    (pfm_layout false 1 1 (- (1)) (firstn 3 (encode LittleEndian one_f32)))
  = raise ValueError.
Proof.
  split.
  - apply (load_pfm_checks_payload_length float_dec LittleEndian
             (pfm_layout false 1 1 (- (1)) (encode LittleEndian one_f32))
             false 1 1 LittleEndian (encode LittleEndian one_f32));
      [vm_compute; reflexivity | lia | lia].
  - apply (load_pfm_checks_payload_length float_dec LittleEndian
             (pfm_layout false 1 1 (- (1))
                (firstn 3 (encode LittleEndian one_f32)))
             false 1 1 LittleEndian (firstn 3 (encode LittleEndian one_f32)));
      [vm_compute; reflexivity | lia | lia].
Defined.

Lemma load_pfm_returns_pfm_image_witness :
  exists h w,
    pfm_image (image_of "=" [1; 1]%nat [one_f32]) h w /\
    (shape (image_of "=" [1; 1]%nat [one_f32]) = [h; w] \/
     shape (image_of "=" [1; 1]%nat [one_f32]) = [h; w; 3%nat]) /\
    dtype_byteorder (image_of "=" [1; 1]%nat [one_f32]) = "="%char /\
    data (image_of "=" [1; 1]%nat [one_f32]) <> [] /\
    forall sys' scale,
      exists file',
        write_pfm sys' (image_of "=" [1; 1]%nat [one_f32]) scale = ok file'.
Proof.
  apply (load_pfm_returns_pfm_image float_dec LittleEndian
           (pfm_layout false 1 1 (- (1)) (encode LittleEndian one_f32))).
  vm_compute. reflexivity.
Defined.

(** ** Calibration files written and read back *)

Lemma split_acc_chars (w : list ascii) :
  forallb (fun c => negb (is_space_str c)) w = true ->
  forall cur s,
    split_acc cur (string_of_list_ascii w ++ s)%string
    = split_acc (rev w ++ cur) s.
Proof.
  induction w as [|c w IH]; intros Hw cur s.
  - reflexivity.
  - simpl in Hw. apply andb_true_iff in Hw. destruct Hw as [Hc Hw].
    apply negb_true_iff in Hc.
    cbn [string_of_list_ascii append split_acc]. rewrite Hc.
    rewrite (IH Hw). cbn [rev]. rewrite <- app_assoc. reflexivity.
Qed.

(** A token followed by a white-space character is the first word. *)
Lemma split_token_space (w : string) (c : ascii) (s : string) :
  is_token w = true -> is_space_str c = true ->
  split_acc [] (w ++ String c s)%string = w :: split_acc [] s.
Proof.
  intros Hw Hc. unfold is_token in Hw.
  apply andb_true_iff in Hw. destruct Hw as [Hne Hw].
  rewrite <- (string_of_list_ascii_of_string w) at 1.
  rewrite (split_acc_chars _ Hw). rewrite app_nil_r.
  cbn [split_acc]. rewrite Hc.
  destruct (rev (list_ascii_of_string w)) as [|x l] eqn:E.
  - apply (f_equal (@rev ascii)) in E. rewrite rev_involutive in E.
    simpl in E.
    apply (f_equal string_of_list_ascii) in E.
    rewrite string_of_list_ascii_of_string in E. subst w. discriminate Hne.
  - rewrite <- E, rev_involutive, string_of_list_ascii_of_string.
    reflexivity.
Qed.

Lemma split_space (c : ascii) (s : string) :
  is_space_str c = true -> split_acc [] (String c s) = split_acc [] s.
Proof. intros Hc. cbn [split_acc]. rewrite Hc. reflexivity. Qed.

Lemma string_app_assoc (s1 s2 s3 : string) :
  ((s1 ++ s2) ++ s3)%string = (s1 ++ (s2 ++ s3))%string.
Proof.
  induction s1 as [|c s1 IH]; [reflexivity|].
  cbn [append]. rewrite IH. reflexivity.
Qed.

Lemma in_written_cells a i j :
  existsb (fun c => match c with
                    | (a', i', j') => Nat.eqb a a' && Nat.eqb i i' && Nat.eqb j j'
                    end) written_cells = true ->
  In (a, i, j) written_cells.
Proof.
  intros H. apply existsb_exists in H. destruct H as ([[a' i'] j'] & Hin & E).
  apply andb_true_iff in E. destruct E as [E Ej].
  apply andb_true_iff in E. destruct E as [Ea Ei].
  apply Nat.eqb_eq in Ea, Ei, Ej. subst. exact Hin.
Qed.

Ltac keyword kw :=
  match goal with
  | |- context [split_acc [] (String ?c ?t)] =>
      match t with
      | context [String nl ?rest] =>
          change (split_acc [] (String c t))
            with (split_acc [] (kw ++ String nl rest)%string);
          rewrite (split_token_space kw nl rest eq_refl eq_refl)
      end
  end.

(** The words of a written calibration file: 31 of them. *)
Lemma split_write_cam str cam :
  (forall a i j, In (a, i, j) written_cells ->
     is_token (str (get3 cam a i j)) = true) ->
  split (write_cam str cam)
  = ("extrinsic"%string
     :: map (fun c => match c with (a, i, j) => str (get3 cam a i j) end)
          (firstn 16 written_cells)) ++
    "intrinsic"%string
    :: map (fun c => match c with (a, i, j) => str (get3 cam a i j) end)
         (skipn 16 written_cells).
Proof.
  intros Htok.
  unfold split, write_cam, write_cam_writes, newline.
  cbn [String.concat flat_map map seq List.app].
  rewrite !string_app_assoc.
  cbn [String.append].
  repeat first
    [ rewrite split_token_space
        by first [ reflexivity
                 | apply Htok; apply in_written_cells; reflexivity ]
    | rewrite split_space by reflexivity
    | keyword "extrinsic"%string
    | keyword "intrinsic"%string ].
  reflexivity.
Qed.

Section WriteCamFacts.

Variable float : string -> option Q.
Variable FLAGS_max_d : Q.
Variable str : Q -> string.

(** A value whose text is one word that [float] reads back. *)
Lemma token_value_reads (words : list string) (k : nat) (x : Q) :
  nth_error words k = Some (str x) ->
  (exists v, float (str x) = Some v /\ v == x) ->
  numeric_at float words k /\ token_value float words k == x.
Proof.
  intros Hk (v & Hv & Hvx). split.
  - exists (str x), v. auto.
  - unfold token_value. rewrite Hk, Hv. exact Hvx.
Qed.

(** X21.  A camera written by [write_cam] and read by [load_cam] comes back: the
    file has 31 words, so the four depth values are read from it, the
    interval multiplied by [interval_scale]; the extrinsic matrix and the
    3 x 3 intrinsic matrix are the written ones, and the fourth column of
    the intrinsic rows, which is not written, reads 0.  Each printed number
    is required to be one word that [float] reads back. *)
Theorem write_cam_load_cam_round_trip cam interval_scale max_d :
  (forall a i j, In (a, i, j) written_cells ->
     is_token (str (get3 cam a i j)) = true /\
     exists v, float (str (get3 cam a i j)) = Some v /\ v == get3 cam a i j) ->
  exists cam',
    load_cam float FLAGS_max_d (write_cam str cam) interval_scale max_d
    = ok cam' /\
    (forall i j, (i < 4)%nat -> (j < 4)%nat ->
       get3 cam' 0 i j == get3 cam 0 i j) /\
    (forall i j, (i < 3)%nat -> (j < 3)%nat ->
       get3 cam' 1 i j == get3 cam 1 i j) /\
    (forall i, (i < 3)%nat -> get3 cam' 1 i 3 == 0) /\
    get3 cam' 1 3 0 == get3 cam 1 3 0 /\
    get3 cam' 1 3 1 == get3 cam 1 3 1 * interval_scale /\
    get3 cam' 1 3 2 == get3 cam 1 3 2 /\
    get3 cam' 1 3 3 == get3 cam 1 3 3.
Proof.
  intros Hcells.
  assert (Hsplit := split_write_cam str cam
                      (fun a i j H => proj1 (Hcells a i j H))).
  cbn [firstn skipn written_cells range2 list_prod seq map List.app fst snd]
    in Hsplit.
  set (words := split (write_cam str cam)) in *.
  assert (Hin : forall a i j,
             existsb (fun c => match c with
                               | (a', i', j') =>
                                   Nat.eqb a a' && Nat.eqb i i' && Nat.eqb j j'
                               end) written_cells = true ->
             exists v, float (str (get3 cam a i j)) = Some v /\
                       v == get3 cam a i j).
  { intros a i j H. apply Hcells, in_written_cells, H. }
  assert (Hext : forall i j, (i < 4)%nat -> (j < 4)%nat ->
             numeric_at float words (4 * i + j + 1) /\
             token_value float words (4 * i + j + 1) == get3 cam 0 i j).
  { intros i j Hi Hj.
    destruct i as [|[|[|[|i]]]]; try lia;
      destruct j as [|[|[|[|j]]]]; try lia;
      (apply token_value_reads;
       [rewrite Hsplit; reflexivity | apply Hin; reflexivity]). }
  assert (Hint : forall i j, (i < 3)%nat -> (j < 3)%nat ->
             numeric_at float words (3 * i + j + 18) /\
             token_value float words (3 * i + j + 18) == get3 cam 1 i j).
  { intros i j Hi Hj.
    destruct i as [|[|[|i]]]; try lia;
      destruct j as [|[|[|j]]]; try lia;
      (apply token_value_reads;
       [rewrite Hsplit; reflexivity | apply Hin; reflexivity]). }
  destruct (read_cells_ok float words 0 4 1 (range2 4) zeros3)
    as (c1 & Hr1 & Hc1).
  { intros i j H. apply in_range2 in H. apply Hext; lia. }
  destruct (read_cells_ok float words 1 3 18 (range2 3) c1)
    as (c2 & Hr2 & Hc2).
  { intros i j H. apply in_range2 in H. apply Hint; lia. }
  destruct (Hin 1 3 0)%nat as (v27 & Hv27 & E27); [reflexivity|].
  destruct (Hin 1 3 1)%nat as (v28 & Hv28 & E28); [reflexivity|].
  destruct (Hin 1 3 2)%nat as (v29 & Hv29 & E29); [reflexivity|].
  destruct (Hin 1 3 3)%nat as (v30 & Hv30 & E30); [reflexivity|].
  unfold load_cam. fold words. rewrite Hr1.
  cbv beta iota delta [bind ok]. rewrite Hr2.
  cbv beta iota delta [bind ok].
  assert (Hlen : List.length words = 31%nat) by (rewrite Hsplit; reflexivity).
  assert (H27 : index words 27 = ok (str (get3 cam 1 3 0)))
    by (rewrite Hsplit; reflexivity).
  assert (H28 : index words 28 = ok (str (get3 cam 1 3 1)))
    by (rewrite Hsplit; reflexivity).
  assert (H29 : index words 29 = ok (str (get3 cam 1 3 2)))
    by (rewrite Hsplit; reflexivity).
  assert (H30 : index words 30 = ok (str (get3 cam 1 3 3)))
    by (rewrite Hsplit; reflexivity).
  rewrite Hlen. cbn [Nat.eqb].
  rewrite H27, H28, H29, H30. unfold to_float.
  cbv beta iota delta [ok]. rewrite Hv27, Hv28, Hv29, Hv30.
  cbv beta iota zeta.
  eexists. split; [reflexivity|].
  split; [|split; [|split; [|split; [|split; [|split]]]]].
  - intros i j Hi Hj.
    rewrite !set3_other by reflexivity.
    rewrite Hc2. cbn [Nat.eqb andb]. rewrite Hc1.
    rewrite (in_cells_range2 4 i j Hi Hj). cbn [Nat.eqb andb].
    apply Hext; assumption.
  - intros i j Hi Hj.
    destruct i as [|[|[|i]]]; try lia;
      destruct j as [|[|[|j]]]; try lia;
      rewrite !set3_other by reflexivity; rewrite Hc2;
      (match goal with
       | |- (if _ then token_value _ _ ?k else _) == get3 _ _ ?i0 ?j0 =>
           apply (Hint i0 j0); lia
       end).
  - intros i Hi.
    destruct i as [|[|[|i]]]; try lia;
      rewrite !set3_other by reflexivity; rewrite Hc2;
      cbn [Nat.eqb andb in_cells existsb range2 list_prod seq map List.app
             fst snd orb];
      rewrite Hc1; reflexivity.
  - rewrite !set3_other by reflexivity. rewrite set3_same. exact E27.
  - rewrite !set3_other by reflexivity. rewrite set3_same.
    rewrite E28. reflexivity.
  - rewrite !set3_other by reflexivity. rewrite set3_same. exact E29.
  - rewrite set3_same. exact E30.
Qed.

End WriteCamFacts.

(** The camera with principal point (10, 20), printed with one decimal and
    read back. *)
Lemma write_cam_load_cam_round_trip_witness :
  exists cam',
    load_cam float_dec 0 (write_cam str_whole cam_10_20) 1 None = ok cam' /\
    get3 cam' 1 0 2 == 10 /\ get3 cam' 1 1 2 == 20.
Proof.
  destruct (write_cam_load_cam_round_trip float_dec 0 str_whole cam_10_20 1
              None) as (cam' & Hload & _ & Hint & _).
  - intros a i j H. simpl in H.
    repeat (destruct H as [H | H];
            [injection H as <- <- <-; split;
             [vm_compute; reflexivity
             | eexists; split; vm_compute; reflexivity] |]).
    destruct H.
  - exists cam'. split; [exact Hload|]. split.
    + apply (Hint 0 2)%nat; lia.
    + apply (Hint 1 2)%nat; lia.
Defined.

(** ** Centred images *)

Lemma reduce_sum_centred (l : list Q) (m k : Q) :
  reduce_sum (map (fun x => (x - m) / k) l)
  == (reduce_sum l - inject_Z (Z.of_nat (List.length l)) * m) / k.
Proof.
  induction l as [|x l IH].
  - simpl. unfold reduce_sum. simpl. unfold Qdiv.
    rewrite Qmult_0_l. unfold Qminus. rewrite Qplus_0_l.
    rewrite Qmult_0_l. reflexivity.
  - cbn [map]. rewrite !reduce_sum_cons, IH.
    cbn [List.length]. rewrite Nat2Z.inj_succ, <- Z.add_1_r, inject_Z_plus.
    unfold Qdiv. ring.
Qed.

Section CenterImageFacts.

Variable sqrt : Q -> Q.

(** X22.  Every channel of a centred image has mean 0: the image is not empty,
    and the square root of the variance is not negative, so that the
    divisor is not 0. *)
Theorem center_image_zero_mean (img : image (nat -> Q)) (c : nat) :
  (0 < shape0 img)%nat -> (0 < shape1 img)%nat ->
  0 <= sqrt (np_var img c) ->
  np_mean (center_image sqrt img) c == 0.
Proof.
  intros Hh Hw Hsqrt.
  unfold np_mean at 1, reduce_mean, channel, center_image.
  cbn [shape0 shape1 px].
  set (cells := positions (shape0 img) (shape1 img)).
  set (k := sqrt (np_var img c) + (1 # 100000000)).
  assert (Hmap : map (fun p => (px img (fst p) (snd p) c - np_mean img c) / k)
                   cells
                 = map (fun x => (x - np_mean img c) / k) (channel img c)).
  { unfold channel. fold cells. rewrite map_map. reflexivity. }
  rewrite Hmap, reduce_sum_centred.
  rewrite !length_map.
  assert (Hlen : List.length (channel img c) = List.length cells)
    by (unfold channel; fold cells; apply length_map).
  assert (Hpos : (0 < List.length cells)%nat).
  { unfold cells, positions. rewrite length_prod, !length_seq. nia. }
  unfold np_mean, reduce_mean. rewrite Hlen.
  set (n := inject_Z (Z.of_nat (List.length cells))).
  assert (Hn : ~ n == 0).
  { unfold n. intros E. unfold Qeq in E. simpl in E. lia. }
  assert (Hk : ~ k == 0).
  { unfold k. intros E.
    assert (0 < sqrt (np_var img c) + (1 # 100000000)).
    { apply Qlt_le_trans with (0 + (1 # 100000000)).
      - reflexivity.
      - apply Qplus_le_l. exact Hsqrt. }
    rewrite E in H. apply (Qlt_irrefl 0). exact H. }
  field. split; assumption.
Qed.

End CenterImageFacts.

Lemma center_image_zero_mean_witness :
  np_mean (center_image sqrt_whole grey_1_3) 0 == 0.
Proof.
  apply (center_image_zero_mean sqrt_whole grey_1_3 0).
  - simpl. lia.
  - simpl. lia.
  - vm_compute. discriminate.
Defined.

(** ** The views of a sample *)



Section GeneratorFacts.

Variable Img : Type.
Variable imread : string -> Img.
Variable read_file : string -> string.
Variable float : string -> option Q.
Variable FLAGS_max_d : Q.
Variable FLAGS_interval_scale : Q.


End GeneratorFacts.


(** ** The list of samples *)

Section PipelineListFacts.

Variable int : string -> option Z.
Variable image_path : Z -> string.
Variable cam_path : Z -> string.
Variable F : flags.

Lemma add_view_loop cluster_list pos :
  forall n view paths paths',
    for_range (add_view int image_path cam_path cluster_list pos) view n paths
    = ok paths' ->
    List.length paths' = (List.length paths + 2 * n)%nat.
Proof.
  induction n as [|n IH]; intros view paths paths' Hrun.
  - simpl in Hrun. injection Hrun as <-. lia.
  - cbn [for_range] in Hrun.
    apply bind_ok_inv in Hrun. destruct Hrun as (p1 & Hbody & Hrun).
    unfold add_view in Hbody.
    apply bind_ok_inv in Hbody. destruct Hbody as (w & _ & Hbody).
    apply bind_ok_inv in Hbody. destruct Hbody as (z & _ & Hbody).
    injection Hbody as <-.
    rewrite (IH _ _ _ Hrun), length_app. simpl. lia.
Qed.

Lemma add_cluster_loop cluster_list :
  forall n i st st',
    for_range (add_cluster int image_path cam_path F cluster_list) i n st
    = ok st' ->
    Forall (sample_paths F) (fst st) ->
    Forall (sample_paths F) (fst st') /\
    List.length (fst st') = (List.length (fst st) + n)%nat.
Proof.
  induction n as [|n IH]; intros i st st' Hrun Hall.
  - simpl in Hrun. injection Hrun as <-. split; [exact Hall | lia].
  - cbn [for_range] in Hrun.
    apply bind_ok_inv in Hrun. destruct Hrun as (st1 & Hbody & Hrun).
    unfold add_cluster in Hbody.
    apply bind_ok_inv in Hbody. destruct Hbody as (w1 & _ & Hbody).
    apply bind_ok_inv in Hbody. destruct Hbody as (ref_index & _ & Hbody).
    apply bind_ok_inv in Hbody. destruct Hbody as (w2 & _ & Hbody).
    apply bind_ok_inv in Hbody. destruct Hbody as (all_view_num & _ & Hbody).
    apply bind_ok_inv in Hbody. destruct Hbody as (paths & Hviews & Hbody).
    injection Hbody as <-.
    apply add_view_loop in Hviews. cbn [List.length] in Hviews.
    destruct (IH _ _ _ Hrun) as [Hall' Hlen'].
    { cbn [fst]. apply Forall_app. split; [exact Hall|].
      constructor; [|constructor].
      exists (Z.to_nat (Z.min (Z.of_nat (FLAGS_view_num F) - 1) all_view_num)).
      split; [rewrite Hviews; lia | lia]. }
    split; [exact Hall'|].
    rewrite Hlen'. cbn [fst]. rewrite length_app. simpl. lia.
Qed.

End PipelineListFacts.

(** X24.  Every sample [gen_pipeline_mvs_list] returns lists an even number of
    paths, image and camera in turn: at least the pair of the reference view
    and at most [FLAGS.view_num] pairs (one pair if [FLAGS.view_num] is 0);
    and there are as many samples as the first word says. *)
Theorem gen_pipeline_mvs_list_samples int image_path cam_path F cluster_list
    mvs_list :
  gen_pipeline_mvs_list int image_path cam_path F cluster_list = ok mvs_list ->
  (exists w n, nth_error cluster_list 0 = Some w /\ int w = Some n /\
               List.length mvs_list = Z.to_nat n) /\
  (forall paths, In paths mvs_list ->
     exists k, List.length paths = (2 + 2 * k)%nat /\
               (k <= FLAGS_view_num F - 1)%nat).
Proof.
  intros Hrun. unfold gen_pipeline_mvs_list in Hrun.
  apply bind_ok_inv in Hrun. destruct Hrun as (w & Hw & Hrun).
  apply bind_ok_inv in Hrun. destruct Hrun as (n & Hn & Hrun).
  apply bind_ok_inv in Hrun. destruct Hrun as (st & Hloop & Hrun).
  injection Hrun as <-.
  destruct (add_cluster_loop int image_path cam_path F cluster_list
              _ _ _ _ Hloop) as [Hall Hlen].
  { constructor. }
  split.
  - exists w, n. split; [apply index_ok_iff; exact Hw|]. split.
    + unfold to_int in Hn. destruct (int w); [|discriminate Hn].
      injection Hn as ->. reflexivity.
    + rewrite Hlen. reflexivity.
  - intros paths Hin. rewrite Forall_forall in Hall.
    exact (Hall paths Hin).
Qed.

Lemma gen_pipeline_mvs_list_samples_witness :
  (exists w n, nth_error pair_words 0 = Some w /\ int_dec w = Some n /\
               List.length [["i0"; "c0"; "i1"; "c1"; "i2"; "c2"]%string]
               = Z.to_nat n) /\
  (forall paths, In paths [["i0"; "c0"; "i1"; "c1"; "i2"; "c2"]%string] ->
     exists k, List.length paths = (2 + 2 * k)%nat /\
               (k <= FLAGS_view_num (flags_4x4 3) - 1)%nat).
Proof.
  apply (gen_pipeline_mvs_list_samples int_dec
           (fun z => String "i" (DecimalString.NilZero.string_of_int (Z.to_int z)))
           (fun z => String "c" (DecimalString.NilZero.string_of_int (Z.to_int z)))
           (flags_4x4 3) pair_words).
  vm_compute. reflexivity.
Defined.

(** ** Depth masks *)

(** X25.  [mask_depth_image] keeps the shape and exactly the depths [d] with
    [min_depth < d <= max_depth]; every other pixel becomes 0, which is what
    the losses take for a pixel without measurement. *)
Theorem mask_depth_image_keeps_range (depth_image : image Q)
    (min_depth max_depth : Q) (i j : nat) :
  shape0 (mask_depth_image depth_image min_depth max_depth)
  = shape0 depth_image /\
  shape1 (mask_depth_image depth_image min_depth max_depth)
  = shape1 depth_image /\
  exists v,
    px (mask_depth_image depth_image min_depth max_depth) i j = [v] /\
    (min_depth < px depth_image i j <= max_depth -> v = px depth_image i j) /\
    (~ min_depth < px depth_image i j <= max_depth -> v = 0) /\
    (mask_px v = 1 ->
     min_depth < px depth_image i j <= max_depth /\ v = px depth_image i j).
Proof.
  split; [reflexivity|]. split; [reflexivity|].
  unfold mask_depth_image, map_image. cbn [px].
  set (d := px depth_image i j).
  eexists. split; [reflexivity|].
  unfold thresh_tozero, thresh_tozero_inv.
  destruct (Qgtb d min_depth) eqn:E1.
  - apply Qgtb_true in E1.
    destruct (Qgtb d max_depth) eqn:E2.
    + apply Qgtb_true in E2. split; [|split].
      * intros [_ H]. exfalso. apply (Qlt_irrefl d).
        apply Qle_lt_trans with max_depth; assumption.
      * reflexivity.
      * intros H. discriminate H.
    + apply Qgtb_false in E2. split; [|split].
      * reflexivity.
      * intros H. exfalso. apply H. split; assumption.
      * intros _. split; [split; assumption | reflexivity].
  - apply Qgtb_false in E1.
    assert (Hz : (if Qgtb 0 max_depth then 0 else 0) = 0)
      by (destruct (Qgtb 0 max_depth); reflexivity).
    rewrite Hz. split; [|split].
    + intros [H _]. exfalso. apply (Qlt_irrefl d).
      apply Qle_lt_trans with min_depth; assumption.
    + reflexivity.
    + intros H. discriminate H.
Qed.
